(** * CascadedGaze (src/models/cgnet.py): tensor-level model and properties

    The network is written against a tensor library.  Tensors are modelled
    the way the library stores a contiguous tensor: a shape and the elements
    in row-major order.  Every library primitive the file calls (reshape,
    permute, chunk, cat, broadcasting arithmetic, mean, convolution, pooling,
    nearest upsampling, constant padding, slicing) is written out over that
    representation; an operation the library rejects with an exception
    returns [None]. Scalars are kept abstract behind the class [Scalar], so
    that the same definitions run on integers and on binary64 floats and
    are reasoned about on real numbers. *)

From Stdlib Require Import List Arith ArithRing Lia ZArith Bool.
From Stdlib Require Import Reals Lra.
From Stdlib Require Import Floats.
Import ListNotations.

Set Implicit Arguments.

(** ** Scalars *)

Class Scalar (F : Type) := {
  zero : F;
  add : F -> F -> F;
  sub : F -> F -> F;
  mul : F -> F -> F;
  div : F -> F -> F;
  sqrt : F -> F;
  of_nat : nat -> F;
  gelu_tanh : F -> F;
  eps_1e_6 : F
}.

(** ** Option monad for operations that can raise *)

Definition bind {A B} (o : option A) (k : A -> option B) : option B :=
  match o with Some a => k a | None => None end.

Notation "x <- e ;; k" := (bind e (fun x => k))
  (at level 61, e at next level, right associativity).

Definition guard (b : bool) : option unit := if b then Some tt else None.

(** ** Shapes and row-major indexing *)

Definition numel (s : list nat) : nat := fold_right Nat.mul 1 s.

Fixpoint ravel (s idx : list nat) : nat :=
  match s, idx with
  | _ :: s', i :: idx' => i * numel s' + ravel s' idx'
  | _, _ => 0
  end.

Fixpoint unravel (s : list nat) (k : nat) : list nat :=
  match s with
  | [] => []
  | _ :: s' => (k / numel s') :: unravel s' (k mod numel s')
  end.

Definition in_range (idx s : list nat) : Prop := Forall2 lt idx s.

Definition shape_eqb (s1 s2 : list nat) : bool :=
  if list_eq_dec Nat.eq_dec s1 s2 then true else false.

(** Broadcasting aligns shapes from the last axis; an axis of size 1
    stretches to the other operand's size. *)
Fixpoint broadcast_rev (s1 s2 : list nat) : option (list nat) :=
  match s1, s2 with
  | [], s => Some s
  | s, [] => Some s
  | a :: s1', b :: s2' =>
      r <- broadcast_rev s1' s2' ;;
      if a =? b then Some (a :: r)
      else if a =? 1 then Some (b :: r)
      else if b =? 1 then Some (a :: r)
      else None
  end.

Definition broadcast_shape (s1 s2 : list nat) : option (list nat) :=
  option_map (@rev nat) (broadcast_rev (rev s1) (rev s2)).

(** Index into an operand of shape [s] for the result index [idx]. *)
Definition bidx (s idx : list nat) : list nat :=
  map (fun di => if fst di =? 1 then 0 else snd di)
      (combine s (skipn (length idx - length s) idx)).

Definition is_perm (p : list nat) (r : nat) : bool :=
  (length p =? r) && forallb (fun a => existsb (Nat.eqb a) p) (seq 0 r).

Fixpoint index_of (a : nat) (p : list nat) : nat :=
  match p with
  | [] => 0
  | b :: p' => if a =? b then 0 else S (index_of a p')
  end.

(** Result extent and operand index of one broadcast axis. *)
Definition bdim (a b : nat) : nat := if a =? 1 then b else a.

Definition bsel (d i : nat) : nat := if d =? 1 then 0 else i.

Definition bcompat (a b : nat) : Prop := a = b \/ a = 1 \/ b = 1.

(** Least height and width on which the context extractor of a
    [CascadedGazeBlock] built with [GCE_Conv] can run: kernels (2, 4, 4) with
    strides (2, 4, 4) need 32, kernels (3, 3) with strides (2, 3) need 7. *)
Definition GCE_min_size (GCE_Conv : nat) : nat :=
  if GCE_Conv =? 3 then 32 else 7.

(** Output extent of a convolution along one axis. *)
Definition conv_out (size k s p : nat) : nat := (size + 2 * p - k) / s + 1.

(** Whether the (kernel_size, stride) pairs [ks] of a context extractor can
    be applied one after the other to a feature map of height [Hh] and
    width [W]: kernel and stride are positive, the map is not empty and the
    kernel is no larger than the padded map, at every stage. *)
Fixpoint GCE_fits (ks : list (nat * nat)) (padding Hh W : nat) : bool :=
  match ks with
  | [] => true
  | (k, s) :: ks' =>
      (0 <? k) && (0 <? s) && (0 <? Hh) && (0 <? W)
      && (k <=? Hh + 2 * padding) && (k <=? W + 2 * padding)
      && GCE_fits ks' padding (conv_out Hh k s padding) (conv_out W k s padding)
  end.

(** * Part I: the model *)

Section Model.

Context {F : Type} `{Scalar F}.

(** ** Tensors *)

Record tensor := mkT { shape : list nat; data : list F }.

Definition wf (t : tensor) : Prop := length (data t) = numel (shape t).

Definition get (t : tensor) (idx : list nat) : F :=
  nth (ravel (shape t) idx) (data t) zero.

Definition tabulate (n : nat) (f : nat -> F) : list F := map f (seq 0 n).

(** The contiguous tensor of shape [s] whose element at index [idx] is [g idx]. *)
Definition build (s : list nat) (g : list nat -> F) : tensor :=
  mkT s (tabulate (numel s) (fun k => g (unravel s k))).

Definition full (s : list nat) (v : F) : tensor := mkT s (repeat v (numel s)).

Definition sum_list (l : list F) : F := fold_left add l zero.

Definition sum_upto (n : nat) (f : nat -> F) : F := sum_list (map f (seq 0 n)).

(** ** Library primitives *)

(** [t.reshape(s)] / [t.view(s)] of a contiguous tensor keeps the storage. *)
Definition reshape (t : tensor) (s : list nat) : option tensor :=
  if numel (shape t) =? numel s then Some (mkT s (data t)) else None.

(** [t.permute(p)]: axis [k] of the result is axis [p[k]] of [t]. *)
Definition permute (t : tensor) (p : list nat) : option tensor :=
  let s := shape t in
  _ <- guard (is_perm p (length s)) ;;
  Some (build (map (fun a => nth a s 0) p)
          (fun idx' => get t (map (fun a => nth (index_of a p) idx' 0)
                                 (seq 0 (length s))))).

(** Elementwise map and broadcasting binary operations. *)
Definition tmap (f : F -> F) (t : tensor) : tensor :=
  mkT (shape t) (map f (data t)).

Definition binop (f : F -> F -> F) (a b : tensor) : option tensor :=
  s <- broadcast_shape (shape a) (shape b) ;;
  Some (build s (fun idx => f (get a (bidx (shape a) idx))
                              (get b (bidx (shape b) idx)))).

Definition tadd := binop add.
Definition tsub := binop sub.
Definition tmul := binop mul.
Definition tdiv := binop div.

(** [t.mean(d, keepdim=True)] and [t.sum(dim=d)]. *)
Definition mean_keepdim (d : nat) (t : tensor) : option tensor :=
  let s := shape t in
  _ <- guard (d <? length s) ;;
  Some (build (firstn d s ++ 1 :: skipn (S d) s)
          (fun idx =>
             div (sum_upto (nth d s 0)
                    (fun j => get t (firstn d idx ++ j :: skipn (S d) idx)))
                 (of_nat (nth d s 0)))).

Definition sum_dim (d : nat) (t : tensor) : option tensor :=
  let s := shape t in
  _ <- guard (d <? length s) ;;
  Some (build (firstn d s ++ skipn (S d) s)
          (fun idx =>
             sum_upto (nth d s 0)
               (fun j => get t (firstn d idx ++ j :: skipn d idx)))).

(** [t.narrow(1, start, len)] and [t.chunk(chunks, dim=1)]. *)
Definition narrow1 (t : tensor) (start len : nat) : tensor :=
  match shape t with
  | n :: _ :: rest =>
      build (n :: len :: rest)
        (fun idx => match idx with
                    | i :: j :: r => get t (i :: (start + j) :: r)
                    | _ => zero
                    end)
  | _ => t
  end.

Definition chunk_dim1 (chunks : nat) (t : tensor) : option (list tensor) :=
  match shape t with
  | _ :: c :: _ =>
      _ <- guard (0 <? chunks) ;;
      let split_size := (c + chunks - 1) / chunks in
      if split_size =? 0 then Some (repeat (narrow1 t 0 0) chunks)
      else
        let num := (c + split_size - 1) / split_size in
        Some (map (fun i => narrow1 t (i * split_size)
                              (Nat.min split_size (c - i * split_size)))
                (seq 0 num))
  | _ => None
  end.

(** [torch.cat(ts, dim=1)]. *)
Fixpoint cat_get (ts : list tensor) (b c : nat) (r : list nat) : F :=
  match ts with
  | [] => zero
  | t :: ts' =>
      let ct := nth 1 (shape t) 0 in
      if c <? ct then get t (b :: c :: r) else cat_get ts' b (c - ct) r
  end.

Definition cat_dim1 (ts : list tensor) : option tensor :=
  match ts with
  | [] => None
  | t0 :: _ =>
      match shape t0 with
      | n :: _ :: rest =>
          _ <- guard (forallb (fun t => match shape t with
                                        | n' :: _ :: rest' =>
                                            (n' =? n) && shape_eqb rest' rest
                                        | _ => false
                                        end) ts) ;;
          Some (build (n :: list_sum (map (fun t => nth 1 (shape t) 0) ts) :: rest)
                  (fun idx => match idx with
                              | b :: c :: r => cat_get ts b c r
                              | _ => zero
                              end))
      | _ => None
      end
  end.

(** [F.pad(x, (left, right, top, bottom))] with the default mode
    ['constant'] and fill value 0, on a 4-D tensor. *)
Definition pad_constant (x : tensor) (left right top bottom : nat) : option tensor :=
  match shape x with
  | [B; C; H; W] =>
      Some (build [B; C; top + H + bottom; left + W + right]
              (fun idx => match idx with
                          | [b; c; i; j] =>
                              if (top <=? i) && (i <? top + H)
                                 && (left <=? j) && (j <? left + W)
                              then get x [b; c; i - top; j - left]
                              else zero
                          | _ => zero
                          end))
  | _ => None
  end.

(** [x[:, :, :Hc, :Wc]]. *)
Definition crop (x : tensor) (Hc Wc : nat) : option tensor :=
  match shape x with
  | [B; C; H; W] => Some (build [B; C; Nat.min Hc H; Nat.min Wc W] (get x))
  | _ => None
  end.

(** [nn.AdaptiveAvgPool2d(1)]. *)
Definition adaptive_avg_pool_1 (x : tensor) : option tensor :=
  match shape x with
  | [B; C; H; W] =>
      _ <- guard ((0 <? C) && (0 <? H) && (0 <? W)) ;;
      Some (build [B; C; 1; 1]
              (fun idx => match idx with
                          | b :: c :: _ =>
                              div (sum_upto H (fun i => sum_upto W (fun j =>
                                     get x [b; c; i; j])))
                                  (of_nat (H * W))
                          | _ => zero
                          end))
  | _ => None
  end.

(** [nn.Upsample(size=(h, w), mode='nearest')]. *)
Definition upsample_nearest (h w : nat) (x : tensor) : option tensor :=
  match shape x with
  | [B; C; Hin; Win] =>
      _ <- guard ((0 <? Hin) && (0 <? Win) && (0 <? h) && (0 <? w)) ;;
      Some (build [B; C; h; w]
              (fun idx => match idx with
                          | [b; c; i; j] =>
                              get x [b; c; Nat.min (i * Hin / h) (Hin - 1);
                                     Nat.min (j * Win / w) (Win - 1)]
                          | _ => zero
                          end))
  | _ => None
  end.

(** [nn.Conv2d] (square kernel, zero padding, dilation 1):
    hyper-parameters as the constructor receives them, the weight of shape
    (out, in/groups, k, k) and the optional bias as index functions.
    [forward] is applied to 4-D tensors only in this file.  It raises when
    the input's channel count differs from [in_channels] and when the
    kernel is larger than the padded input; the constructor's own checks
    (positive stride and groups, channel counts divisible by groups) are
    folded into [forward] as [conv2d_valid]. *)
Record Conv2d := {
  in_channels : nat;
  out_channels : nat;
  kernel_size : nat;
  stride : nat;
  padding : nat;
  groups : nat;
  cv_weight : nat -> nat -> nat -> nat -> F;
  cv_bias : option (nat -> F)
}.

Definition padded_get (x : tensor) (p Hh W b c y z : nat) : F :=
  if (p <=? y) && (y <? Hh + p) && (p <=? z) && (z <? W + p)
  then get x [b; c; y - p; z - p]
  else zero.

Definition conv2d_valid (cv : Conv2d) : bool :=
  (0 <? stride cv) && (0 <? groups cv)
  && (in_channels cv mod groups cv =? 0)
  && (out_channels cv mod groups cv =? 0).

Definition Conv2d_forward (cv : Conv2d) (x : tensor) : option tensor :=
  match shape x with
  | [B; C; Hh; W] =>
      let k := kernel_size cv in
      let s := stride cv in
      let p := padding cv in
      _ <- guard (conv2d_valid cv) ;;
      _ <- guard (C =? in_channels cv) ;;
      _ <- guard ((k <=? Hh + 2 * p) && (k <=? W + 2 * p)) ;;
      let cin_g := in_channels cv / groups cv in
      let cout_g := out_channels cv / groups cv in
      Some (build [B; out_channels cv; conv_out Hh k s p; conv_out W k s p]
              (fun idx =>
                 match idx with
                 | [b; o; i; j] =>
                     let acc :=
                       sum_upto cin_g (fun ci =>
                         sum_upto k (fun ki =>
                           sum_upto k (fun kj =>
                             mul (cv_weight cv o ci ki kj)
                                 (padded_get x p Hh W b
                                    ((o / cout_g) * cin_g + ci)
                                    (i * s + ki) (j * s + kj))))) in
                     match cv_bias cv with
                     | Some bs => add acc (bs o)
                     | None => acc
                     end
                 | _ => zero
                 end))
  | _ => None
  end.

(** ** Learned parameters

    Every module constructor below takes the values of its parameters from
    an oracle [theta]: a path (the position of the parameter in the module
    tree) and up to four indices give a scalar.  The shapes are fixed by the
    constructor, as in the source; the values are arbitrary. *)

Definition Params := list nat -> nat -> nat -> nat -> nat -> F.

Definition sub_params (theta : Params) (k : nat) : Params :=
  fun path => theta (k :: path).

Definition vec (n : nat) (f : nat -> F) : tensor :=
  build [n] (fun idx => f (hd 0 idx)).

Definition Conv2d_init (nin nout k s p g : nat) (bias : bool) (theta : Params)
  : Conv2d :=
  {| in_channels := nin; out_channels := nout; kernel_size := k;
     stride := s; padding := p; groups := g;
     cv_weight := theta [0];
     cv_bias := if bias then Some (fun o => theta [1] o 0 0 0) else None |}.

(** ** LayerNormFunction *)

Record LayerNorm_ctx := {
  ctx_eps : F;
  saved_y : tensor;
  saved_var : tensor;
  saved_weight : tensor
}.

Definition LayerNormFunction_forward (x weight bias : tensor) (eps : F)
  : option (LayerNorm_ctx * tensor) :=
  match shape x with
  | [N; C; Hh; W] =>
      mu <- mean_keepdim 1 x ;;
      d <- tsub x mu ;;
      var <- mean_keepdim 1 (tmap (fun v => mul v v) d) ;;
      d' <- tsub x mu ;;
      y <- tdiv d' (tmap sqrt (tmap (fun v => add v eps) var)) ;;
      w <- reshape weight [1; C; 1; 1] ;;
      wy <- tmul w y ;;
      b <- reshape bias [1; C; 1; 1] ;;
      out <- tadd wy b ;;
      Some ({| ctx_eps := eps; saved_y := y; saved_var := var;
               saved_weight := weight |}, out)
  | _ => None
  end.

Definition LayerNormFunction_backward (ctx : LayerNorm_ctx) (grad_output : tensor)
  : option (tensor * tensor * tensor) :=
  let eps := ctx_eps ctx in
  match shape grad_output with
  | [N; C; Hh; W] =>
      let y := saved_y ctx in
      let var := saved_var ctx in
      w <- reshape (saved_weight ctx) [1; C; 1; 1] ;;
      g <- tmul grad_output w ;;
      mean_g <- mean_keepdim 1 g ;;
      gy <- tmul g y ;;
      mean_gy <- mean_keepdim 1 gy ;;
      let r := tmap (fun v => div (of_nat 1) v)
                 (tmap sqrt (tmap (fun v => add v eps) var)) in
      ymg <- tmul y mean_gy ;;
      t1 <- tsub g ymg ;;
      t2 <- tsub t1 mean_g ;;
      gx <- tmul r t2 ;;
      goy <- tmul grad_output y ;;
      gw3 <- sum_dim 3 goy ;;
      gw2 <- sum_dim 2 gw3 ;;
      gw <- sum_dim 0 gw2 ;;
      gb3 <- sum_dim 3 grad_output ;;
      gb2 <- sum_dim 2 gb3 ;;
      gb <- sum_dim 0 gb2 ;;
      Some (gx, gw, gb)
  | _ => None
  end.

(** ** LayerNorm2d *)

Record LayerNorm2d := {
  ln_channels : nat;
  ln_weight : nat -> F;
  ln_bias : nat -> F;
  ln_eps : F
}.

Definition LayerNorm2d_init (channels : nat) (eps : F) (theta : Params)
  : LayerNorm2d :=
  {| ln_channels := channels;
     ln_weight := fun c => theta [0] c 0 0 0;
     ln_bias := fun c => theta [1] c 0 0 0;
     ln_eps := eps |}.

Definition LayerNorm2d_forward (m : LayerNorm2d) (x : tensor) : option tensor :=
  r <- LayerNormFunction_forward x (vec (ln_channels m) (ln_weight m))
         (vec (ln_channels m) (ln_bias m)) (ln_eps m) ;;
  Some (snd r).

(** ** CustomPixelShuffle *)

Definition CustomPixelShuffle_forward (upscale_factor : nat) (x : tensor)
  : option tensor :=
  match shape x with
  | [b; c; h; w] =>
      let blocksize := upscale_factor in
      _ <- guard (negb (blocksize ^ 2 =? 0)) ;;
      tmp <- reshape x [b; c / (blocksize ^ 2); blocksize; blocksize; h; w] ;;
      tmp <- permute tmp [0; 1; 4; 2; 5; 3] ;;
      reshape tmp [b; c / (blocksize ^ 2); h * blocksize; w * blocksize]
  | _ => None
  end.

(** ** SimpleGate *)

Definition SimpleGate_forward (x : tensor) : option tensor :=
  cs <- chunk_dim1 2 x ;;
  match cs with
  | [x1; x2] => tmul x1 x2
  | _ => None
  end.

(** ** depthwise_separable_conv *)

Record depthwise_separable_conv := {
  pointwise : Conv2d;
  depthwise : Conv2d
}.

Definition depthwise_separable_conv_init
  (nin nout kernel_size padding stide : nat) (bias : bool) (theta : Params)
  : depthwise_separable_conv :=
  {| pointwise := Conv2d_init nin nout 1 1 0 1 bias (sub_params theta 0);
     depthwise := Conv2d_init nin nin kernel_size stide padding nin bias
                    (sub_params theta 1) |}.

Definition depthwise_separable_conv_forward
  (m : depthwise_separable_conv) (x : tensor) : option tensor :=
  x <- Conv2d_forward (depthwise m) x ;;
  Conv2d_forward (pointwise m) x.

(** ** GlobalContextExtractor *)

Definition GlobalContextExtractor := list depthwise_separable_conv.

Fixpoint GCE_convs_from (i c : nat) (ks : list (nat * nat)) (padding : nat)
  (bias : bool) (theta : Params) : list depthwise_separable_conv :=
  match ks with
  | [] => []
  | (kernel_size, stride) :: ks' =>
      depthwise_separable_conv_init c c kernel_size padding stride bias
        (sub_params theta i)
      :: GCE_convs_from (S i) c ks' padding bias theta
  end.

Definition GlobalContextExtractor_init (c : nat) (kernel_sizes strides : list nat)
  (padding : nat) (bias : bool) (theta : Params) : GlobalContextExtractor :=
  GCE_convs_from 0 c (combine kernel_sizes strides) padding bias theta.

(** The loop of [forward]: [x] is rebound to each stage's activated
    output, which is also appended to [outputs]. *)
Fixpoint GCE_loop (convs : list depthwise_separable_conv) (x : tensor)
  (outputs : list tensor) : option (list tensor) :=
  match convs with
  | [] => Some outputs
  | conv :: rest =>
      t <- depthwise_separable_conv_forward conv x ;;
      let x := tmap gelu_tanh t in
      GCE_loop rest x (outputs ++ [x])
  end.

Definition GlobalContextExtractor_forward (m : GlobalContextExtractor) (x : tensor)
  : option (list tensor) :=
  GCE_loop m x [].

(** ** CascadedGazeBlock

    [drop_out_rate] keeps its default 0 in every block the network builds,
    so [dropout1] and [dropout2] are [nn.Identity].  The [__flops__]
    counter of [UpsampleWithFlops] does not reach the result and is left
    out. *)

Record CascadedGazeBlock := {
  cgb_dw_channel : nat;
  cgb_GCE_Conv : nat;
  cgb_conv1 : Conv2d;
  cgb_conv2 : Conv2d;
  cgb_GCE : GlobalContextExtractor;
  cgb_project_out : Conv2d;
  cgb_sca : Conv2d;
  cgb_conv4 : Conv2d;
  cgb_conv5 : Conv2d;
  cgb_norm1 : LayerNorm2d;
  cgb_norm2 : LayerNorm2d;
  cgb_c : nat;
  cgb_beta : nat -> F;
  cgb_gamma : nat -> F
}.

Definition Identity (x : tensor) : option tensor := Some x.

Definition CascadedGazeBlock_init (c GCE_Conv DW_Expand FFN_Expand : nat)
  (theta : Params) : CascadedGazeBlock :=
  let dw_channel := c * DW_Expand in
  let ffn_channel := FFN_Expand * c in
  {| cgb_dw_channel := dw_channel;
     cgb_GCE_Conv := GCE_Conv;
     cgb_conv1 := Conv2d_init c dw_channel 1 1 0 1 true (sub_params theta 0);
     cgb_conv2 := Conv2d_init dw_channel dw_channel 3 1 1 dw_channel true
                    (sub_params theta 1);
     cgb_GCE :=
       if GCE_Conv =? 3
       then GlobalContextExtractor_init c [2; 4; 4] [2; 4; 4] 0 false
              (sub_params theta 2)
       else GlobalContextExtractor_init c [3; 3] [2; 3] 0 false
              (sub_params theta 2);
     cgb_project_out :=
       if GCE_Conv =? 3
       then Conv2d_init (dw_channel * 5 / 2) c 1 1 0 1 true (sub_params theta 3)
       else Conv2d_init (dw_channel * 2) c 1 1 0 1 true (sub_params theta 3);
     cgb_sca :=
       if GCE_Conv =? 3
       then Conv2d_init (dw_channel * 5 / 2) (dw_channel * 5 / 2) 1 1 0 1 true
              (sub_params theta 4)
       else Conv2d_init (dw_channel * 2) (dw_channel * 2) 1 1 0 1 true
              (sub_params theta 4);
     cgb_conv4 := Conv2d_init c ffn_channel 1 1 0 1 true (sub_params theta 5);
     cgb_conv5 := Conv2d_init (ffn_channel / 2) c 1 1 0 1 true (sub_params theta 6);
     cgb_norm1 := LayerNorm2d_init c eps_1e_6 (sub_params theta 7);
     cgb_norm2 := LayerNorm2d_init c eps_1e_6 (sub_params theta 8);
     cgb_c := c;
     cgb_beta := fun k => theta [9] 0 k 0 0;
     cgb_gamma := fun k => theta [10] 0 k 0 0 |}.

Definition chan_param (c : nat) (f : nat -> F) : tensor :=
  build [1; c; 1; 1] (fun idx => f (nth 1 idx 0)).

Definition sca_forward (conv : Conv2d) (x : tensor) : option tensor :=
  p <- adaptive_avg_pool_1 x ;;
  Conv2d_forward conv p.

(** Lines 161-182 of [forward]: the branch scaled by [beta]. *)
Definition CascadedGazeBlock_spatial (m : CascadedGazeBlock) (inp : tensor)
  : option tensor :=
  let x := inp in
  match shape x with
  | [b; c; h; w] =>
      let upsample := upsample_nearest h w in
      x <- LayerNorm2d_forward (cgb_norm1 m) x ;;
      x <- Conv2d_forward (cgb_conv1 m) x ;;
      x <- Conv2d_forward (cgb_conv2 m) x ;;
      let x := tmap gelu_tanh x in
      cs <- chunk_dim1 2 x ;;
      match cs with
      | [x_1; x_2] =>
          s <- tadd x_1 x_2 ;;
          outs <- GlobalContextExtractor_forward (cgb_GCE m) s ;;
          x <- (if cgb_GCE_Conv m =? 3
                then match outs with
                     | [x1; x2; x3] =>
                         u1 <- upsample x1 ;;
                         u2 <- upsample x2 ;;
                         u3 <- upsample x3 ;;
                         cat_dim1 [x; u1; u2; u3]
                     | _ => None
                     end
                else match outs with
                     | [x1; x2] =>
                         u1 <- upsample x1 ;;
                         u2 <- upsample x2 ;;
                         cat_dim1 [x; u1; u2]
                     | _ => None
                     end) ;;
          a <- sca_forward (cgb_sca m) x ;;
          x <- tmul a x ;;
          x <- Conv2d_forward (cgb_project_out m) x ;;
          Identity x
      | _ => None
      end
  | _ => None
  end.

(** Lines 185-188 of [forward]: the channel-mixing branch scaled by [gamma]. *)
Definition CascadedGazeBlock_ffn (m : CascadedGazeBlock) (y : tensor)
  : option tensor :=
  n2 <- LayerNorm2d_forward (cgb_norm2 m) y ;;
  x <- Conv2d_forward (cgb_conv4 m) n2 ;;
  x <- SimpleGate_forward x ;;
  x <- Conv2d_forward (cgb_conv5 m) x ;;
  Identity x.

Definition CascadedGazeBlock_forward (m : CascadedGazeBlock) (inp : tensor)
  : option tensor :=
  x <- CascadedGazeBlock_spatial m inp ;;
  xb <- tmul x (chan_param (cgb_c m) (cgb_beta m)) ;;
  y <- tadd inp xb ;;
  x <- CascadedGazeBlock_ffn m y ;;
  xg <- tmul x (chan_param (cgb_c m) (cgb_gamma m)) ;;
  tadd y xg.

(** ** NAFBlock0 *)

Record NAFBlock0 := {
  naf_conv1 : Conv2d;
  naf_conv2 : Conv2d;
  naf_conv3 : Conv2d;
  naf_sca : Conv2d;
  naf_conv4 : Conv2d;
  naf_conv5 : Conv2d;
  naf_norm1 : LayerNorm2d;
  naf_norm2 : LayerNorm2d;
  naf_c : nat;
  naf_beta : nat -> F;
  naf_gamma : nat -> F
}.

Definition NAFBlock0_init (c DW_Expand FFN_Expand : nat)
  (theta : Params) : NAFBlock0 :=
  let dw_channel := c * DW_Expand in
  let ffn_channel := FFN_Expand * c in
  {| naf_conv1 := Conv2d_init c dw_channel 1 1 0 1 true (sub_params theta 0);
     naf_conv2 := Conv2d_init dw_channel dw_channel 3 1 1 dw_channel true
                    (sub_params theta 1);
     naf_conv3 := Conv2d_init (dw_channel / 2) c 1 1 0 1 true (sub_params theta 2);
     naf_sca := Conv2d_init (dw_channel / 2) (dw_channel / 2) 1 1 0 1 true
                  (sub_params theta 3);
     naf_conv4 := Conv2d_init c ffn_channel 1 1 0 1 true (sub_params theta 4);
     naf_conv5 := Conv2d_init (ffn_channel / 2) c 1 1 0 1 true (sub_params theta 5);
     naf_norm1 := LayerNorm2d_init c eps_1e_6 (sub_params theta 6);
     naf_norm2 := LayerNorm2d_init c eps_1e_6 (sub_params theta 7);
     naf_c := c;
     naf_beta := fun k => theta [8] 0 k 0 0;
     naf_gamma := fun k => theta [9] 0 k 0 0 |}.

(** Lines 231-241 of [forward]: the branch scaled by [beta]. *)
Definition NAFBlock0_spatial (m : NAFBlock0) (inp : tensor) : option tensor :=
  let x := inp in
  x <- LayerNorm2d_forward (naf_norm1 m) x ;;
  x <- Conv2d_forward (naf_conv1 m) x ;;
  x <- Conv2d_forward (naf_conv2 m) x ;;
  x <- SimpleGate_forward x ;;
  a <- sca_forward (naf_sca m) x ;;
  x <- tmul x a ;;
  x <- Conv2d_forward (naf_conv3 m) x ;;
  Identity x.

(** Lines 246-250 of [forward]: the channel-mixing branch scaled by [gamma]. *)
Definition NAFBlock0_ffn (m : NAFBlock0) (y : tensor) : option tensor :=
  n2 <- LayerNorm2d_forward (naf_norm2 m) y ;;
  x <- Conv2d_forward (naf_conv4 m) n2 ;;
  x <- SimpleGate_forward x ;;
  x <- Conv2d_forward (naf_conv5 m) x ;;
  Identity x.

Definition NAFBlock0_forward (m : NAFBlock0) (inp : tensor) : option tensor :=
  x <- NAFBlock0_spatial m inp ;;
  xb <- tmul x (chan_param (naf_c m) (naf_beta m)) ;;
  y <- tadd inp xb ;;
  x <- NAFBlock0_ffn m y ;;
  xg <- tmul x (chan_param (naf_c m) (naf_gamma m)) ;;
  tadd y xg.

(** ** CascadedGaze *)

Record Up := {
  up_conv : Conv2d;
  up_shuffle : nat
}.

Record CascadedGaze := {
  intro : Conv2d;
  ending : Conv2d;
  encoders : list (list CascadedGazeBlock);
  decoders : list (list NAFBlock0);
  middle_blks : list NAFBlock0;
  ups : list Up;
  downs : list Conv2d;
  padder_size : nat
}.

(** [nn.Sequential] over [num] blocks built by the same constructor. *)
Definition blocks_init {B : Type} (mk : Params -> B) (num : nat) (theta : Params)
  : list B :=
  map (fun j => mk (sub_params theta j)) (seq 0 num).

Definition width : nat := 60.
Definition enc_blk_nums : list nat := [2; 2; 4; 6].
Definition middle_blk_num : nat := 10.
Definition dec_blk_nums : list nat := [2; 2; 2; 2].
Definition GCE_CONVS_nums : list nat := [3; 3; 2; 2].

(** The first loop of [__init__]: state is (encoders, downs, chan). *)
Definition enc_init_step (theta : Params)
  (st : list (list CascadedGazeBlock) * list Conv2d * nat) (i : nat) :=
  let '(encs, dwn, chan) := st in
  let num := nth i enc_blk_nums 0 in
  let GCE_Convs := nth i GCE_CONVS_nums 0 in
  (encs ++ [blocks_init (CascadedGazeBlock_init chan GCE_Convs 2 2) num
              (sub_params (sub_params theta 2) i)],
   dwn ++ [Conv2d_init chan (2 * chan) 2 2 0 1 true
             (sub_params (sub_params theta 3) i)],
   chan * 2).

(** The second loop of [__init__]: state is (ups, decoders, chan). *)
Definition dec_init_step (theta : Params)
  (st : list Up * list (list NAFBlock0) * nat) (i : nat) :=
  let '(us, decs, chan) := st in
  let num := nth i dec_blk_nums 0 in
  let us := us ++ [{| up_conv := Conv2d_init chan (chan * 2) 1 1 0 1 false
                                   (sub_params (sub_params theta 5) i);
                      up_shuffle := 2 |}] in
  let chan := chan / 2 in
  (us,
   decs ++ [blocks_init (NAFBlock0_init chan 2 2) num
              (sub_params (sub_params theta 6) i)],
   chan).

Definition CascadedGaze_init (img_channel : nat) (theta : Params) : CascadedGaze :=
  let '(encs, dwn, chan) :=
    fold_left (enc_init_step theta) (seq 0 (length enc_blk_nums)) ([], [], width) in
  let middle := blocks_init (NAFBlock0_init chan 2 2) middle_blk_num
                  (sub_params theta 4) in
  let '(us, decs, _) :=
    fold_left (dec_init_step theta) (seq 0 (length dec_blk_nums)) ([], [], chan) in
  {| intro := Conv2d_init img_channel width 3 1 1 1 true (sub_params theta 0);
     ending := Conv2d_init width img_channel 3 1 1 1 true (sub_params theta 1);
     encoders := encs;
     decoders := decs;
     middle_blks := middle;
     ups := us;
     downs := dwn;
     padder_size := 2 ^ length encs |}.

Fixpoint Sequential {B : Type} (fwd : B -> tensor -> option tensor)
  (blocks : list B) (x : tensor) : option tensor :=
  match blocks with
  | [] => Some x
  | b :: rest => x <- fwd b x ;; Sequential fwd rest x
  end.

Definition Up_forward (u : Up) (x : tensor) : option tensor :=
  x <- Conv2d_forward (up_conv u) x ;;
  CustomPixelShuffle_forward (up_shuffle u) x.

Definition check_image_size (m : CascadedGaze) (x : tensor) : option tensor :=
  match shape x with
  | [_; _; h; w] =>
      _ <- guard (negb (padder_size m =? 0)) ;;
      let mod_pad_h := (padder_size m - h mod padder_size m) mod padder_size m in
      let mod_pad_w := (padder_size m - w mod padder_size m) mod padder_size m in
      pad_constant x 0 mod_pad_w 0 mod_pad_h
  | _ => None
  end.

(** [for encoder, down in zip(self.encoders, self.downs)] *)
Fixpoint encoder_loop (eds : list (list CascadedGazeBlock * Conv2d))
  (x : tensor) (encs : list tensor) : option (tensor * list tensor) :=
  match eds with
  | [] => Some (x, encs)
  | (encoder, down) :: rest =>
      x <- Sequential CascadedGazeBlock_forward encoder x ;;
      let encs := encs ++ [x] in
      x <- Conv2d_forward down x ;;
      encoder_loop rest x encs
  end.

(** [for decoder, up, enc_skip in zip(self.decoders, self.ups, encs[::-1])] *)
Fixpoint decoder_loop (dus : list (list NAFBlock0 * Up * tensor)) (x : tensor)
  : option tensor :=
  match dus with
  | [] => Some x
  | (decoder, up, enc_skip) :: rest =>
      x <- Up_forward up x ;;
      x <- tadd x enc_skip ;;
      x <- Sequential NAFBlock0_forward decoder x ;;
      decoder_loop rest x
  end.

(** Lines 327-344 of [forward]: everything between padding and cropping. *)
Definition CascadedGaze_body (m : CascadedGaze) (inp : tensor) : option tensor :=
  x <- Conv2d_forward (intro m) inp ;;
  r <- encoder_loop (combine (encoders m) (downs m)) x [] ;;
  let x := fst r in
  let encs := snd r in
  x <- Sequential NAFBlock0_forward (middle_blks m) x ;;
  x <- decoder_loop (combine (combine (decoders m) (ups m)) (rev encs)) x ;;
  x <- Conv2d_forward (ending m) x ;;
  tadd x inp.

Definition CascadedGaze_forward (m : CascadedGaze) (inp : tensor) : option tensor :=
  match shape inp with
  | [B; C; Hh; W] =>
      inp <- check_image_size m inp ;;
      x <- CascadedGaze_body m inp ;;
      crop x Hh W
  | _ => None
  end.

(** ** Shape-level semantics

    Whether an operation raises, and the shape of its result, depend on the
    shapes of its arguments only.  The functions below are the model's
    definitions read on shapes. *)

Definition reshape_shape (s s' : list nat) : option (list nat) :=
  if numel s =? numel s' then Some s' else None.

Definition permute_shape (s p : list nat) : option (list nat) :=
  _ <- guard (is_perm p (length s)) ;;
  Some (map (fun a => nth a s 0) p).

Definition mean_keepdim_shape (d : nat) (s : list nat) : option (list nat) :=
  _ <- guard (d <? length s) ;;
  Some (firstn d s ++ 1 :: skipn (S d) s).

Definition narrow1_shape (s : list nat) (len : nat) : list nat :=
  match s with
  | n :: _ :: rest => n :: len :: rest
  | _ => s
  end.

Definition chunk_dim1_shape (chunks : nat) (s : list nat) : option (list (list nat)) :=
  match s with
  | _ :: c :: _ =>
      _ <- guard (0 <? chunks) ;;
      let split_size := (c + chunks - 1) / chunks in
      if split_size =? 0 then Some (repeat (narrow1_shape s 0) chunks)
      else
        let num := (c + split_size - 1) / split_size in
        Some (map (fun i => narrow1_shape s
                              (Nat.min split_size (c - i * split_size)))
                (seq 0 num))
  | _ => None
  end.

Definition cat_dim1_shape (ss : list (list nat)) : option (list nat) :=
  match ss with
  | [] => None
  | s0 :: _ =>
      match s0 with
      | n :: _ :: rest =>
          _ <- guard (forallb (fun s => match s with
                                        | n' :: _ :: rest' =>
                                            (n' =? n) && shape_eqb rest' rest
                                        | _ => false
                                        end) ss) ;;
          Some (n :: list_sum (map (fun s => nth 1 s 0) ss) :: rest)
      | _ => None
      end
  end.

Definition pad_constant_shape (s : list nat) (left right top bottom : nat)
  : option (list nat) :=
  match s with
  | [B; C; Hh; W] => Some [B; C; top + Hh + bottom; left + W + right]
  | _ => None
  end.

Definition crop_shape (s : list nat) (Hc Wc : nat) : option (list nat) :=
  match s with
  | [B; C; Hh; W] => Some [B; C; Nat.min Hc Hh; Nat.min Wc W]
  | _ => None
  end.

Definition adaptive_avg_pool_1_shape (s : list nat) : option (list nat) :=
  match s with
  | [B; C; Hh; W] =>
      _ <- guard ((0 <? C) && (0 <? Hh) && (0 <? W)) ;;
      Some [B; C; 1; 1]
  | _ => None
  end.

Definition upsample_nearest_shape (h w : nat) (s : list nat) : option (list nat) :=
  match s with
  | [B; C; Hin; Win] =>
      _ <- guard ((0 <? Hin) && (0 <? Win) && (0 <? h) && (0 <? w)) ;;
      Some [B; C; h; w]
  | _ => None
  end.

Definition Conv2d_shape (cv : Conv2d) (s : list nat) : option (list nat) :=
  match s with
  | [B; C; Hh; W] =>
      let k := kernel_size cv in
      let p := padding cv in
      _ <- guard (conv2d_valid cv) ;;
      _ <- guard (C =? in_channels cv) ;;
      _ <- guard ((k <=? Hh + 2 * p) && (k <=? W + 2 * p)) ;;
      Some [B; out_channels cv; conv_out Hh k (stride cv) p;
            conv_out W k (stride cv) p]
  | _ => None
  end.

Definition LayerNormFunction_shape (sx sw sb : list nat) : option (list nat) :=
  match sx with
  | [N; C; Hh; W] =>
      mu <- mean_keepdim_shape 1 sx ;;
      d <- broadcast_shape sx mu ;;
      var <- mean_keepdim_shape 1 d ;;
      d' <- broadcast_shape sx mu ;;
      y <- broadcast_shape d' var ;;
      w <- reshape_shape sw [1; C; 1; 1] ;;
      wy <- broadcast_shape w y ;;
      b <- reshape_shape sb [1; C; 1; 1] ;;
      broadcast_shape wy b
  | _ => None
  end.

Definition LayerNorm2d_shape (m : LayerNorm2d) (s : list nat) : option (list nat) :=
  LayerNormFunction_shape s [ln_channels m] [ln_channels m].

Definition CustomPixelShuffle_shape (upscale_factor : nat) (s : list nat)
  : option (list nat) :=
  match s with
  | [b; c; h; w] =>
      let blocksize := upscale_factor in
      _ <- guard (negb (blocksize ^ 2 =? 0)) ;;
      tmp <- reshape_shape s [b; c / (blocksize ^ 2); blocksize; blocksize; h; w] ;;
      tmp <- permute_shape tmp [0; 1; 4; 2; 5; 3] ;;
      reshape_shape tmp [b; c / (blocksize ^ 2); h * blocksize; w * blocksize]
  | _ => None
  end.

Definition SimpleGate_shape (s : list nat) : option (list nat) :=
  cs <- chunk_dim1_shape 2 s ;;
  match cs with
  | [s1; s2] => broadcast_shape s1 s2
  | _ => None
  end.

Definition depthwise_separable_conv_shape (m : depthwise_separable_conv)
  (s : list nat) : option (list nat) :=
  s <- Conv2d_shape (depthwise m) s ;;
  Conv2d_shape (pointwise m) s.

Fixpoint GCE_loop_shape (convs : list depthwise_separable_conv) (s : list nat)
  (outputs : list (list nat)) : option (list (list nat)) :=
  match convs with
  | [] => Some outputs
  | conv :: rest =>
      s <- depthwise_separable_conv_shape conv s ;;
      GCE_loop_shape rest s (outputs ++ [s])
  end.

Definition sca_shape (conv : Conv2d) (s : list nat) : option (list nat) :=
  p <- adaptive_avg_pool_1_shape s ;;
  Conv2d_shape conv p.

Definition CascadedGazeBlock_spatial_shape (m : CascadedGazeBlock)
  (inp : list nat) : option (list nat) :=
  match inp with
  | [b; c; h; w] =>
      let upsample := upsample_nearest_shape h w in
      x <- LayerNorm2d_shape (cgb_norm1 m) inp ;;
      x <- Conv2d_shape (cgb_conv1 m) x ;;
      x <- Conv2d_shape (cgb_conv2 m) x ;;
      cs <- chunk_dim1_shape 2 x ;;
      match cs with
      | [x_1; x_2] =>
          s <- broadcast_shape x_1 x_2 ;;
          outs <- GCE_loop_shape (cgb_GCE m) s [] ;;
          x <- (if cgb_GCE_Conv m =? 3
                then match outs with
                     | [x1; x2; x3] =>
                         u1 <- upsample x1 ;;
                         u2 <- upsample x2 ;;
                         u3 <- upsample x3 ;;
                         cat_dim1_shape [x; u1; u2; u3]
                     | _ => None
                     end
                else match outs with
                     | [x1; x2] =>
                         u1 <- upsample x1 ;;
                         u2 <- upsample x2 ;;
                         cat_dim1_shape [x; u1; u2]
                     | _ => None
                     end) ;;
          a <- sca_shape (cgb_sca m) x ;;
          x <- broadcast_shape a x ;;
          Conv2d_shape (cgb_project_out m) x
      | _ => None
      end
  | _ => None
  end.

Definition CascadedGazeBlock_ffn_shape (m : CascadedGazeBlock) (y : list nat)
  : option (list nat) :=
  n2 <- LayerNorm2d_shape (cgb_norm2 m) y ;;
  x <- Conv2d_shape (cgb_conv4 m) n2 ;;
  x <- SimpleGate_shape x ;;
  Conv2d_shape (cgb_conv5 m) x.

Definition CascadedGazeBlock_shape (m : CascadedGazeBlock) (inp : list nat)
  : option (list nat) :=
  x <- CascadedGazeBlock_spatial_shape m inp ;;
  xb <- broadcast_shape x [1; cgb_c m; 1; 1] ;;
  y <- broadcast_shape inp xb ;;
  x <- CascadedGazeBlock_ffn_shape m y ;;
  xg <- broadcast_shape x [1; cgb_c m; 1; 1] ;;
  broadcast_shape y xg.

Definition NAFBlock0_spatial_shape (m : NAFBlock0) (inp : list nat)
  : option (list nat) :=
  x <- LayerNorm2d_shape (naf_norm1 m) inp ;;
  x <- Conv2d_shape (naf_conv1 m) x ;;
  x <- Conv2d_shape (naf_conv2 m) x ;;
  x <- SimpleGate_shape x ;;
  a <- sca_shape (naf_sca m) x ;;
  x <- broadcast_shape x a ;;
  Conv2d_shape (naf_conv3 m) x.

Definition NAFBlock0_ffn_shape (m : NAFBlock0) (y : list nat) : option (list nat) :=
  n2 <- LayerNorm2d_shape (naf_norm2 m) y ;;
  x <- Conv2d_shape (naf_conv4 m) n2 ;;
  x <- SimpleGate_shape x ;;
  Conv2d_shape (naf_conv5 m) x.

Definition NAFBlock0_shape (m : NAFBlock0) (inp : list nat) : option (list nat) :=
  x <- NAFBlock0_spatial_shape m inp ;;
  xb <- broadcast_shape x [1; naf_c m; 1; 1] ;;
  y <- broadcast_shape inp xb ;;
  x <- NAFBlock0_ffn_shape m y ;;
  xg <- broadcast_shape x [1; naf_c m; 1; 1] ;;
  broadcast_shape y xg.

Fixpoint Sequential_shape {B : Type} (fwd : B -> list nat -> option (list nat))
  (blocks : list B) (s : list nat) : option (list nat) :=
  match blocks with
  | [] => Some s
  | b :: rest => s <- fwd b s ;; Sequential_shape fwd rest s
  end.

Definition Up_shape (u : Up) (s : list nat) : option (list nat) :=
  s <- Conv2d_shape (up_conv u) s ;;
  CustomPixelShuffle_shape (up_shuffle u) s.

Definition check_image_size_shape (m : CascadedGaze) (s : list nat)
  : option (list nat) :=
  match s with
  | [_; _; h; w] =>
      _ <- guard (negb (padder_size m =? 0)) ;;
      let mod_pad_h := (padder_size m - h mod padder_size m) mod padder_size m in
      let mod_pad_w := (padder_size m - w mod padder_size m) mod padder_size m in
      pad_constant_shape s 0 mod_pad_w 0 mod_pad_h
  | _ => None
  end.

Fixpoint encoder_loop_shape (eds : list (list CascadedGazeBlock * Conv2d))
  (s : list nat) (encs : list (list nat)) : option (list nat * list (list nat)) :=
  match eds with
  | [] => Some (s, encs)
  | (encoder, down) :: rest =>
      s <- Sequential_shape CascadedGazeBlock_shape encoder s ;;
      let encs := encs ++ [s] in
      s <- Conv2d_shape down s ;;
      encoder_loop_shape rest s encs
  end.

Fixpoint decoder_loop_shape (dus : list (list NAFBlock0 * Up * list nat))
  (s : list nat) : option (list nat) :=
  match dus with
  | [] => Some s
  | (decoder, up, enc_skip) :: rest =>
      s <- Up_shape up s ;;
      s <- broadcast_shape s enc_skip ;;
      s <- Sequential_shape NAFBlock0_shape decoder s ;;
      decoder_loop_shape rest s
  end.

Definition CascadedGaze_body_shape (m : CascadedGaze) (inp : list nat)
  : option (list nat) :=
  x <- Conv2d_shape (intro m) inp ;;
  r <- encoder_loop_shape (combine (encoders m) (downs m)) x [] ;;
  let x := fst r in
  let encs := snd r in
  x <- Sequential_shape NAFBlock0_shape (middle_blks m) x ;;
  x <- decoder_loop_shape (combine (combine (decoders m) (ups m)) (rev encs)) x ;;
  x <- Conv2d_shape (ending m) x ;;
  broadcast_shape x inp.

Definition CascadedGaze_shape (m : CascadedGaze) (inp : list nat)
  : option (list nat) :=
  match inp with
  | [B; C; Hh; W] =>
      s <- check_image_size_shape m inp ;;
      x <- CascadedGaze_body_shape m s ;;
      crop_shape x Hh W
  | _ => None
  end.

(** Abstractions of the loop states to shapes. *)
Definition enc_abs (r : tensor * list tensor) : list nat * list (list nat) :=
  (shape (fst r), map shape (snd r)).

Definition skip_abs (d : list NAFBlock0 * Up * tensor)
  : list NAFBlock0 * Up * list nat :=
  (fst d, shape (snd d)).

End Model.

Arguments tensor F : clear implicits.
Arguments Conv2d F : clear implicits.
Arguments Params F : clear implicits.
Arguments LayerNorm_ctx F : clear implicits.
Arguments LayerNorm2d F : clear implicits.
Arguments depthwise_separable_conv F : clear implicits.
Arguments GlobalContextExtractor F : clear implicits.
Arguments CascadedGazeBlock F : clear implicits.
Arguments NAFBlock0 F : clear implicits.
Arguments Up F : clear implicits.
Arguments CascadedGaze F : clear implicits.

(** ** Integer scalars, for running the model on small inputs *)

#[export] Instance Scalar_Z : Scalar Z := {|
  zero := 0%Z;
  add := Z.add;
  sub := Z.sub;
  mul := Z.mul;
  div := Z.div;
  sqrt := Z.sqrt;
  of_nat := Z.of_nat;
  gelu_tanh := fun x => x;
  eps_1e_6 := 0%Z
|}.

(** ** Real scalars, for the statements about derivatives *)

#[export] Instance Scalar_R : Scalar R := {|
  zero := 0%R;
  add := Rplus;
  sub := Rminus;
  mul := Rmult;
  div := Rdiv;
  sqrt := R_sqrt.sqrt;
  of_nat := INR;
  gelu_tanh := fun x =>
    (/ 2 * x * (1 + tanh (R_sqrt.sqrt (2 / PI)
                          * (x + 44715 / 1000000 * (x * x * x)))))%R;
  eps_1e_6 := (/ 1000000)%R
|}.

(** ** Binary64 scalars, the arithmetic the library computes in

    IEEE 754 double precision with the kernel's primitive operations.  The
    primitives have no [tanh], so the activation is a parameter of the
    instance; [NAFBlock0] never applies it. *)



(** ** Reference definitions

    Definitions that follow the wording of the specification, to compare
    the model with. *)

Section Reference.

Context {F : Type} `{Scalar F}.

(** The standard pixel-shuffle rearrangement with upscale factor [r]:
    [out[b, q, r*i + di, r*j + dj] = in[b, r*r*q + r*di + dj, i, j]]. *)
Definition pixel_shuffle_spec (r : nat) (x : tensor F) : tensor F :=
  match shape x with
  | [b; c; h; w] =>
      build [b; c / (r * r); h * r; w * r]
        (fun idx => match idx with
                    | [n; q; i; j] =>
                        get x [n; r * r * q + r * (i mod r) + j mod r; i / r; j / r]
                    | _ => zero
                    end)
  | _ => x
  end.

(** Mean and biased (population) variance of the [C] values [f 0 .. f (C-1)]. *)
Definition channel_mean (C : nat) (f : nat -> F) : F :=
  div (sum_upto C f) (of_nat C).

Definition channel_var (C : nat) (f : nat -> F) : F :=
  channel_mean C (fun c => mul (sub (f c) (channel_mean C f))
                               (sub (f c) (channel_mean C f))).

(** The list the specification describes for [GlobalContextExtractor]:
    entry 0 is [gelu(conv_0(x))], entry [i] is [gelu(conv_i(entry (i-1)))]. *)
Fixpoint GCE_entry (convs : list (depthwise_separable_conv F)) (x : tensor F)
  (i : nat) : option (tensor F) :=
  prev <- match i with
          | 0 => Some x
          | S j => GCE_entry convs x j
          end ;;
  conv <- nth_error convs i ;;
  t <- depthwise_separable_conv_forward conv prev ;;
  Some (tmap gelu_tanh t).

Fixpoint mapM_option {A B : Type} (f : A -> option B) (l : list A)
  : option (list B) :=
  match l with
  | [] => Some []
  | a :: l' => b <- f a ;; bs <- mapM_option f l' ;; Some (b :: bs)
  end.

(** Input and output of encoder stage [k]: stage 0 reads [x0], stage
    [k+1] reads the downsampled output of stage [k]; the output is what the
    stage's blocks return. *)
Fixpoint encoder_stage_io (m : CascadedGaze F) (x0 : tensor F) (k : nat)
  : option (tensor F * tensor F) :=
  x <- match k with
       | 0 => Some x0
       | S j =>
           io <- encoder_stage_io m x0 j ;;
           down <- nth_error (downs m) j ;;
           Conv2d_forward down (snd io)
       end ;;
  encoder <- nth_error (encoders m) k ;;
  e <- Sequential CascadedGazeBlock_forward encoder x ;;
  Some (x, e).

Definition encoder_output (m : CascadedGaze F) (x0 : tensor F) (k : nat)
  : option (tensor F) :=
  option_map snd (encoder_stage_io m x0 k).

(** Decoder stage [i] as the specification words it: upsample, add the
    output of encoder stage [n-1-i], then run the decoder blocks. *)
Definition decoder_stage (m : CascadedGaze F) (x0 : tensor F) (i : nat)
  (x : tensor F) : option (tensor F) :=
  up <- nth_error (ups m) i ;;
  decoder <- nth_error (decoders m) i ;;
  enc_skip <- encoder_output m x0 (length (encoders m) - 1 - i) ;;
  u <- Up_forward up x ;;
  s <- tadd u enc_skip ;;
  Sequential NAFBlock0_forward decoder s.

(** Decoder stages [0 .. n-1] in execution order. *)
Fixpoint decoder_stages (m : CascadedGaze F) (x0 : tensor F) (n : nat)
  (x : tensor F) : option (tensor F) :=
  match n with
  | 0 => Some x
  | S k => x <- decoder_stages m x0 k x ;; decoder_stage m x0 k x
  end.

(** The skip sum of decoder stage [i] in the run that starts the encoders at
    [x0] and the decoders at [xm]: the upsampled tensor and the output of
    encoder stage [n-1-i] have the same shape and are added entry by entry. *)
Definition skip_sum_at (m : CascadedGaze F) (x0 xm : tensor F) (i : nat) : Prop :=
  exists xi up u skip s,
    decoder_stages m x0 i xm = Some xi
    /\ nth_error (ups m) i = Some up
    /\ Up_forward up xi = Some u
    /\ encoder_output m x0 (length (encoders m) - 1 - i) = Some skip
    /\ shape u = shape skip
    /\ tadd u skip = Some s
    /\ forall idx, in_range idx (shape skip) ->
         get s idx = add (get u idx) (get skip idx).

(** Reflection padding as the specification words it: a row or column
    added past the border holds the mirror image of the input about the
    border (the library's ['reflect'] mode), so the entry at [h >= H] is
    the input's entry at [2 * (H - 1) - h]. *)
Definition reflect_index (n i : nat) : nat :=
  if i <? n then i else 2 * (n - 1) - i.

Definition reflection_padded (x y : tensor F) : Prop :=
  match shape x, shape y with
  | [B; C; Hh; W], [B'; C'; Hh'; W'] =>
      forall b c h w, b < B' -> c < C' -> h < Hh' -> w < W' ->
        get y [b; c; h; w] = get x [b; c; reflect_index Hh h; reflect_index W w]
  | _, _ => False
  end.

(** The normalised value of channel [c] among the [C] values [xs]. *)
Definition normalized (C : nat) (eps : F) (xs : nat -> F) (c : nat) : F :=
  div (sub (xs c) (channel_mean C xs)) (sqrt (add (channel_var C xs) eps)).

(** [xs] with the value at [j] replaced by [t]. *)
Definition upd (xs : nat -> F) (j : nat) (t : F) : nat -> F :=
  fun c => if c =? j then t else xs c.

(** [t] with the entry at [idx] replaced by [v]. *)
Definition tset (t : tensor F) (idx : list nat) (v : F) : tensor F :=
  build (shape t)
    (fun i => if list_eq_dec Nat.eq_dec i idx then v else get t i).

(** What automatic differentiation differentiates: the output of
    [LayerNormFunction.forward] contracted with the upstream gradient [go],
    [sum over n, c, h, w of go[n,c,h,w] * y[n,c,h,w]]. *)
Definition weighted_output (go : tensor F) (N C Hh W : nat)
  (o : option (LayerNorm_ctx F * tensor F)) : F :=
  match o with
  | Some (_, y) =>
      sum_upto N (fun n => sum_upto C (fun c => sum_upto Hh (fun h =>
        sum_upto W (fun w => mul (get go [n; c; h; w]) (get y [n; c; h; w])))))
  | None => zero
  end.

End Reference.

(** ** Concrete inputs *)

Definition iota (s : list nat) : tensor Z :=
  mkT s (map Z.of_nat (seq 0 (numel s))).

(** Parameter values: every weight and bias 1. *)
Definition theta_ones : Params Z := fun _ _ _ _ _ => 1%Z.


Definition xr_2 : tensor R := mkT [1; 2; 1; 1] [0%R; 1%R].
Definition wr_2 : tensor R := mkT [2] [1%R; 2%R].
Definition br_2 : tensor R := mkT [2] [0%R; 1%R].
Definition gor_2 : tensor R := mkT [1; 2; 1; 1] [1%R; 0%R].

Definition x_16 : tensor Z := full [1; 3; 16; 16] 1%Z.
Definition x_15 : tensor Z := full [1; 1; 15; 15] 1%Z.
Definition x_49 : tensor Z := full [1; 3; 49; 49] 1%Z.

(** Parameter values for a stack of blocks: the residual scales of every
    block at 0, everything else at 1. *)
Definition theta_stack_zero_scales : Params Z :=
  fun path _ _ _ _ =>
    match path with
    | [_; 8] | [_; 9] | [_; 10] => 0%Z
    | _ => 1%Z
    end.

Definition xr_2_shifted : tensor R := mkT [1; 2; 1; 1] [1%R; 2%R].


Definition xr_1 : tensor R := mkT [1; 1; 1; 1] [5%R].
Definition wr_1 : tensor R := mkT [1] [2%R].
Definition br_1 : tensor R := mkT [1] [3%R].

(** * Part II: properties *)

Unset Implicit Arguments.

(** ** Row-major indexing *)

Lemma numel_cons d s : numel (d :: s) = d * numel s.
Proof. reflexivity. Qed.

Lemma ravel_lt s : forall idx, in_range idx s -> ravel s idx < numel s.
Proof.
  induction s as [|d s IH]; intros idx Hr;
    inversion Hr as [|i d' idx' s' Hi Hr']; subst; simpl.
  - lia.
  - specialize (IH _ Hr'). nia.
Qed.

Lemma unravel_ravel s : forall idx, in_range idx s -> unravel s (ravel s idx) = idx.
Proof.
  induction s as [|d s IH]; intros idx Hr;
    inversion Hr as [|i d' idx' s' Hi Hr']; subst; simpl.
  - reflexivity.
  - pose proof (ravel_lt _ _ Hr') as Hlt.
    assert (numel s <> 0) by lia.
    rewrite Nat.div_add_l by assumption.
    rewrite (Nat.div_small (ravel s idx')) by assumption.
    rewrite (Nat.add_comm (i * numel s)), Nat.Div0.mod_add.
    rewrite Nat.mod_small by assumption.
    rewrite IH by assumption. f_equal. lia.
Qed.

Lemma unravel_in_range s : forall k, k < numel s -> in_range (unravel s k) s.
Proof.
  induction s as [|d s IH]; intros k Hk; simpl.
  - constructor.
  - rewrite numel_cons in Hk.
    assert (numel s <> 0) by (intro E; rewrite E in Hk; lia).
    constructor.
    + apply Nat.Div0.div_lt_upper_bound. lia.
    + apply IH. apply Nat.mod_upper_bound. assumption.
Qed.

Lemma ravel_unravel s : forall k, k < numel s -> ravel s (unravel s k) = k.
Proof.
  induction s as [|d s IH]; intros k Hk; simpl.
  - simpl in Hk. lia.
  - rewrite numel_cons in Hk.
    assert (numel s <> 0) by (intro E; rewrite E in Hk; lia).
    rewrite IH by (apply Nat.mod_upper_bound; assumption).
    pose proof (Nat.div_mod_eq k (numel s)). lia.
Qed.

Lemma in_range_length idx s : in_range idx s -> length idx = length s.
Proof. induction 1; simpl; congruence. Qed.

Lemma in_range_nil : in_range [] [].
Proof. constructor. Qed.

Lemma in_range_cons i d idx s :
  i < d -> in_range idx s -> in_range (i :: idx) (d :: s).
Proof. intros; constructor; assumption. Qed.

Ltac in_range_tac :=
  repeat apply in_range_cons; try apply in_range_nil.

Lemma in_range4 n c h w N C Hh W :
  n < N -> c < C -> h < Hh -> w < W -> in_range [n; c; h; w] [N; C; Hh; W].
Proof. intros; in_range_tac; assumption. Qed.

Lemma in_range4_inv idx N C Hh W :
  in_range idx [N; C; Hh; W] ->
  exists n c h w, idx = [n; c; h; w] /\ n < N /\ c < C /\ h < Hh /\ w < W.
Proof.
  intros Hr.
  inversion Hr as [|n ? i1 ? Hn H1]; subst.
  inversion H1 as [|c ? i2 ? Hc H2]; subst.
  inversion H2 as [|h ? i3 ? Hh' H3]; subst.
  inversion H3 as [|w ? i4 ? Hw H4]; subst.
  inversion H4; subst.
  exists n, c, h, w. repeat split; assumption.
Qed.

Lemma shape_eqb_refl s : shape_eqb s s = true.
Proof. unfold shape_eqb. destruct (list_eq_dec Nat.eq_dec s s); congruence. Qed.

Lemma shape_eqb_eq s1 s2 : shape_eqb s1 s2 = true -> s1 = s2.
Proof. unfold shape_eqb. destruct (list_eq_dec Nat.eq_dec s1 s2); congruence. Qed.

(** ** The option monad *)

Lemma bind_Some {A B} (o : option A) (k : A -> option B) b :
  bind o k = Some b -> exists a, o = Some a /\ k a = Some b.
Proof. destruct o as [a|]; simpl; intros E; [eauto | discriminate]. Qed.

Lemma Some_eq_inv {A} (a b : A) : Some a = Some b -> a = b.
Proof. congruence. Qed.

Lemma guard_Some b u : guard b = Some u -> b = true.
Proof. destruct b; simpl; congruence. Qed.

Lemma option_map_Some {A B} (f : A -> B) o b :
  option_map f o = Some b -> exists a, o = Some a /\ f a = b.
Proof. destruct o as [a|]; simpl; intros E; [injection E; eauto | discriminate]. Qed.

Lemma option_map_None {A B} (f : A -> B) o : option_map f o = None -> o = None.
Proof. destruct o; simpl; congruence. Qed.

(** An abstraction [alpha] commutes with [bind] when it commutes with both
    halves. *)
Lemma sim_bind {A B A' B'} (alpha : A -> A') (beta : B -> B')
  (o : option A) (o' : option A') (k : A -> option B) (k' : A' -> option B') :
  option_map alpha o = o' ->
  (forall a, o = Some a -> option_map beta (k a) = k' (alpha a)) ->
  option_map beta (bind o k) = bind o' k'.
Proof.
  intros Ho Hk. destruct o as [a|]; simpl in *; subst o'; simpl.
  - apply Hk. reflexivity.
  - reflexivity.
Qed.

Lemma forallb_map_comp {A B} (f : B -> bool) (g : A -> B) l :
  forallb f (map g l) = forallb (fun a => f (g a)) l.
Proof. induction l as [|a l IH]; simpl; [reflexivity | rewrite IH; reflexivity]. Qed.

Lemma sim_guard b : option_map (fun u : unit => u) (guard b) = guard b.
Proof. destruct b; reflexivity. Qed.

Section Properties.

Context {F : Type} `{Scalar F}.

(** ** Tabulated tensors *)

Lemma tabulate_length n (f : nat -> F) : length (tabulate n f) = n.
Proof. unfold tabulate. rewrite length_map, length_seq. reflexivity. Qed.

Lemma nth_tabulate n (f : nat -> F) k d : k < n -> nth k (tabulate n f) d = f k.
Proof.
  intros Hk. unfold tabulate.
  rewrite (nth_indep _ d (f 0)) by (rewrite length_map, length_seq; assumption).
  rewrite (map_nth f (seq 0 n) 0 k), seq_nth by assumption. reflexivity.
Qed.

Lemma tabulate_nth (l : list F) d : tabulate (length l) (fun k => nth k l d) = l.
Proof.
  apply (nth_ext _ _ d d).
  - apply tabulate_length.
  - intros k Hk. rewrite tabulate_length in Hk. apply nth_tabulate. assumption.
Qed.

Lemma tabulate_ext n (f g : nat -> F) :
  (forall k, k < n -> f k = g k) -> tabulate n f = tabulate n g.
Proof.
  intros E. unfold tabulate. apply map_ext_in. intros k Hk.
  apply in_seq in Hk. apply E. lia.
Qed.

Lemma wf_build s (g : list nat -> F) : wf (build s g).
Proof. unfold wf, build; simpl. apply tabulate_length. Qed.

Lemma get_build s (g : list nat -> F) idx :
  in_range idx s -> get (build s g) idx = g idx.
Proof.
  intros Hr. unfold get, build; simpl.
  rewrite nth_tabulate by (apply ravel_lt; assumption).
  rewrite unravel_ravel by assumption. reflexivity.
Qed.

(** A well-formed tensor is the tabulation of its own elements. *)
Lemma build_get (t : tensor F) : wf t -> build (shape t) (get t) = t.
Proof.
  intros Hwf. destruct t as [s d]. unfold wf in Hwf; simpl in Hwf.
  unfold build, get; simpl. f_equal.
  rewrite <- Hwf at 1.
  rewrite <- (tabulate_nth d zero) at 2.
  apply tabulate_ext. intros k Hk.
  rewrite ravel_unravel by lia. reflexivity.
Qed.

Lemma build_ext s (g1 g2 : list nat -> F) :
  (forall idx, in_range idx s -> g1 idx = g2 idx) -> build s g1 = build s g2.
Proof.
  intros E. unfold build. f_equal. apply tabulate_ext.
  intros k Hk. apply E. apply unravel_in_range. assumption.
Qed.

Lemma get_tmap (f : F -> F) (t : tensor F) idx :
  wf t -> in_range idx (shape t) -> get (tmap f t) idx = f (get t idx).
Proof.
  intros Hwf Hr. unfold get, tmap; simpl.
  pose proof (ravel_lt _ _ Hr) as Hlt. rewrite <- Hwf in Hlt.
  rewrite (nth_indep _ zero (f zero)) by (rewrite length_map; assumption).
  apply map_nth.
Qed.

Lemma wf_tmap (f : F -> F) (t : tensor F) : wf t -> wf (tmap f t).
Proof. unfold wf, tmap; simpl. rewrite length_map. auto. Qed.

(** ** Shape simulation: primitives *)

Lemma sim_reshape (t : tensor F) s :
  option_map shape (reshape t s) = reshape_shape (shape t) s.
Proof. unfold reshape, reshape_shape. destruct (_ =? _); reflexivity. Qed.

Lemma sim_permute (t : tensor F) p :
  option_map shape (permute t p) = permute_shape (shape t) p.
Proof. unfold permute, permute_shape. destruct (guard _); reflexivity. Qed.

Lemma sim_binop (f : F -> F -> F) (a b : tensor F) :
  option_map shape (binop f a b) = broadcast_shape (shape a) (shape b).
Proof. unfold binop. destruct (broadcast_shape _ _); reflexivity. Qed.

Lemma sim_tadd (a b : tensor F) :
  option_map shape (tadd a b) = broadcast_shape (shape a) (shape b).
Proof. apply sim_binop. Qed.

Lemma sim_tsub (a b : tensor F) :
  option_map shape (tsub a b) = broadcast_shape (shape a) (shape b).
Proof. apply sim_binop. Qed.

Lemma sim_tmul (a b : tensor F) :
  option_map shape (tmul a b) = broadcast_shape (shape a) (shape b).
Proof. apply sim_binop. Qed.

Lemma sim_tdiv (a b : tensor F) :
  option_map shape (tdiv a b) = broadcast_shape (shape a) (shape b).
Proof. apply sim_binop. Qed.

Lemma sim_mean_keepdim d (t : tensor F) :
  option_map shape (mean_keepdim d t) = mean_keepdim_shape d (shape t).
Proof. unfold mean_keepdim, mean_keepdim_shape. destruct (guard _); reflexivity. Qed.

Lemma shape_narrow1 (t : tensor F) start len :
  shape (narrow1 t start len) = narrow1_shape (shape t) len.
Proof.
  unfold narrow1, narrow1_shape.
  destruct (shape t) as [|n [|c rest]] eqn:E; simpl; auto.
Qed.

Lemma sim_chunk_dim1 chunks (t : tensor F) :
  option_map (map shape) (chunk_dim1 chunks t) = chunk_dim1_shape chunks (shape t).
Proof.
  unfold chunk_dim1, chunk_dim1_shape.
  destruct (shape t) as [|n [|c rest]] eqn:E; try reflexivity.
  destruct (guard _); simpl; [|reflexivity].
  destruct (_ =? 0); simpl; f_equal.
  - rewrite map_repeat, shape_narrow1, E. reflexivity.
  - rewrite map_map. apply map_ext. intros i.
    rewrite shape_narrow1, E. reflexivity.
Qed.

Lemma sim_cat_dim1 (ts : list (tensor F)) :
  option_map shape (cat_dim1 ts) = cat_dim1_shape (map shape ts).
Proof.
  unfold cat_dim1, cat_dim1_shape.
  destruct ts as [|t0 ts']; [reflexivity|].
  cbn [map].
  destruct (shape t0) as [|n [|c rest]] eqn:E; try reflexivity.
  cbn [forallb map]. rewrite E, forallb_map_comp, map_map.
  destruct (guard _); reflexivity.
Qed.

Lemma sim_pad_constant (x : tensor F) l r t b :
  option_map shape (pad_constant x l r t b) = pad_constant_shape (shape x) l r t b.
Proof.
  unfold pad_constant, pad_constant_shape.
  destruct (shape x) as [|? [|? [|? [|? [|]]]]]; reflexivity.
Qed.

Lemma sim_crop (x : tensor F) Hc Wc :
  option_map shape (crop x Hc Wc) = crop_shape (shape x) Hc Wc.
Proof.
  unfold crop, crop_shape.
  destruct (shape x) as [|? [|? [|? [|? [|]]]]]; reflexivity.
Qed.

Lemma sim_adaptive_avg_pool_1 (x : tensor F) :
  option_map shape (adaptive_avg_pool_1 x) = adaptive_avg_pool_1_shape (shape x).
Proof.
  unfold adaptive_avg_pool_1, adaptive_avg_pool_1_shape.
  destruct (shape x) as [|? [|? [|? [|? [|]]]]]; try reflexivity.
  destruct (guard _); reflexivity.
Qed.

Lemma sim_upsample_nearest h w (x : tensor F) :
  option_map shape (upsample_nearest h w x) = upsample_nearest_shape h w (shape x).
Proof.
  unfold upsample_nearest, upsample_nearest_shape.
  destruct (shape x) as [|? [|? [|? [|? [|]]]]]; try reflexivity.
  destruct (guard _); reflexivity.
Qed.

Lemma sim_Conv2d (cv : Conv2d F) (x : tensor F) :
  option_map shape (Conv2d_forward cv x) = Conv2d_shape cv (shape x).
Proof.
  unfold Conv2d_forward, Conv2d_shape.
  destruct (shape x) as [|? [|? [|? [|? [|]]]]]; try reflexivity.
  repeat (destruct (guard _); simpl; [|reflexivity]). reflexivity.
Qed.

Ltac sim_by lem := etransitivity; [simple apply lem | reflexivity].

Ltac sim_prim :=
  first [ sim_by sim_guard | sim_by sim_reshape | sim_by sim_permute
        | sim_by sim_tadd | sim_by sim_tsub | sim_by sim_tmul | sim_by sim_tdiv
        | sim_by sim_mean_keepdim | sim_by sim_chunk_dim1
        | sim_by sim_pad_constant | sim_by sim_crop
        | sim_by sim_adaptive_avg_pool_1 | sim_by sim_upsample_nearest
        | sim_by sim_Conv2d ].

(** One step of a simulation proof: peel the leading [bind]. *)
Ltac sim_step_with tac :=
  lazymatch goal with
  | |- option_map _ (bind _ _) = bind _ _ =>
      eapply sim_bind; [solve [tac] | intros ? _; cbv beta]
  end.

Ltac sim_step := sim_step_with sim_prim.

Ltac sim := repeat sim_step; try solve [sim_prim].

(** ** Shape simulation: modules *)

Ltac destruct_shape4 x E :=
  destruct (shape x) as [|? [|? [|? [|? [|]]]]] eqn:E; try reflexivity.

Lemma sim_LayerNormFunction (x weight bias : tensor F) eps :
  option_map (fun r => shape (snd r)) (LayerNormFunction_forward x weight bias eps)
  = LayerNormFunction_shape (shape x) (shape weight) (shape bias).
Proof.
  unfold LayerNormFunction_forward, LayerNormFunction_shape.
  destruct_shape4 x E. rewrite <- E.
  do 8 sim_step.
  rewrite <- sim_tadd. destruct (tadd _ _); reflexivity.
Qed.

Lemma sim_LayerNorm2d (m : LayerNorm2d F) (x : tensor F) :
  option_map shape (LayerNorm2d_forward m x) = LayerNorm2d_shape m (shape x).
Proof.
  unfold LayerNorm2d_forward, LayerNorm2d_shape.
  pose proof (sim_LayerNormFunction x (vec (ln_channels m) (ln_weight m))
                (vec (ln_channels m) (ln_bias m)) (ln_eps m)) as E.
  cbn [vec build shape] in E. rewrite <- E.
  destruct (LayerNormFunction_forward _ _ _ _); reflexivity.
Qed.

Lemma sim_CustomPixelShuffle r (x : tensor F) :
  option_map shape (CustomPixelShuffle_forward r x)
  = CustomPixelShuffle_shape r (shape x).
Proof.
  unfold CustomPixelShuffle_forward, CustomPixelShuffle_shape.
  destruct_shape4 x E. rewrite <- E. sim.
Qed.

Lemma sim_SimpleGate (x : tensor F) :
  option_map shape (SimpleGate_forward x) = SimpleGate_shape (shape x).
Proof.
  unfold SimpleGate_forward, SimpleGate_shape.
  eapply sim_bind; [sim_by sim_chunk_dim1|]. intros cs _.
  destruct cs as [|x1 [|x2 [|]]]; try reflexivity. apply sim_tmul.
Qed.

Lemma sim_depthwise_separable_conv (m : depthwise_separable_conv F) (x : tensor F) :
  option_map shape (depthwise_separable_conv_forward m x)
  = depthwise_separable_conv_shape m (shape x).
Proof. unfold depthwise_separable_conv_forward, depthwise_separable_conv_shape. sim. Qed.

Lemma sim_GCE_loop (convs : list (depthwise_separable_conv F)) :
  forall (x : tensor F) outputs,
    option_map (map shape) (GCE_loop convs x outputs)
    = GCE_loop_shape convs (shape x) (map shape outputs).
Proof.
  induction convs as [|conv rest IH]; intros x outputs; simpl.
  - reflexivity.
  - eapply sim_bind; [sim_by sim_depthwise_separable_conv|]. intros t _.
    rewrite IH, map_app. reflexivity.
Qed.

Lemma sim_GlobalContextExtractor (m : GlobalContextExtractor F) (x : tensor F) :
  option_map (map shape) (GlobalContextExtractor_forward m x)
  = GCE_loop_shape m (shape x) [].
Proof. apply sim_GCE_loop. Qed.

Lemma sim_sca (conv : Conv2d F) (x : tensor F) :
  option_map shape (sca_forward conv x) = sca_shape conv (shape x).
Proof. unfold sca_forward, sca_shape. sim. Qed.

Ltac sim_mod :=
  first [ sim_prim | sim_by sim_LayerNorm2d | sim_by sim_CustomPixelShuffle
        | sim_by sim_SimpleGate | sim_by sim_depthwise_separable_conv
        | sim_by sim_sca ].

Ltac sim_step ::= sim_step_with sim_mod.

Ltac sim ::= repeat sim_step; try solve [sim_mod].

Lemma sim_Identity (x : tensor F) : option_map shape (Identity x) = Some (shape x).
Proof. reflexivity. Qed.

Lemma bind_Identity {B} (x : tensor F) (k : tensor F -> option B) :
  bind (Identity x) k = k x.
Proof. reflexivity. Qed.

Lemma sim_CascadedGazeBlock_spatial (m : CascadedGazeBlock F) (inp : tensor F) :
  option_map shape (CascadedGazeBlock_spatial m inp)
  = CascadedGazeBlock_spatial_shape m (shape inp).
Proof.
  unfold CascadedGazeBlock_spatial, CascadedGazeBlock_spatial_shape, Identity.
  destruct_shape4 inp E. rewrite <- E.
  do 3 sim_step.
  eapply sim_bind; [sim_by sim_chunk_dim1|]. intros cs _.
  destruct cs as [|x_1 [|x_2 [|]]]; try reflexivity.
  cbn [map].
  sim_step.
  eapply sim_bind; [sim_by sim_GlobalContextExtractor|]. intros outs _.
  eapply sim_bind.
  { destruct (cgb_GCE_Conv m =? 3).
    - destruct outs as [|x1 [|x2 [|x3 [|]]]]; try reflexivity. cbn [map]. sim.
      sim_by sim_cat_dim1.
    - destruct outs as [|x1 [|x2 [|]]]; try reflexivity. cbn [map]. sim.
      sim_by sim_cat_dim1. }
  intros x _. cbv beta.
  do 2 sim_step.
  rewrite <- sim_Conv2d. destruct (Conv2d_forward _ _); reflexivity.
Qed.

Lemma sim_CascadedGazeBlock_ffn (m : CascadedGazeBlock F) (y : tensor F) :
  option_map shape (CascadedGazeBlock_ffn m y)
  = CascadedGazeBlock_ffn_shape m (shape y).
Proof.
  unfold CascadedGazeBlock_ffn, CascadedGazeBlock_ffn_shape, Identity.
  do 3 sim_step.
  rewrite <- sim_Conv2d. destruct (Conv2d_forward _ _); reflexivity.
Qed.

Lemma sim_NAFBlock0_spatial (m : NAFBlock0 F) (inp : tensor F) :
  option_map shape (NAFBlock0_spatial m inp) = NAFBlock0_spatial_shape m (shape inp).
Proof.
  unfold NAFBlock0_spatial, NAFBlock0_spatial_shape, Identity.
  do 6 sim_step.
  rewrite <- sim_Conv2d. destruct (Conv2d_forward _ _); reflexivity.
Qed.

Lemma sim_NAFBlock0_ffn (m : NAFBlock0 F) (y : tensor F) :
  option_map shape (NAFBlock0_ffn m y) = NAFBlock0_ffn_shape m (shape y).
Proof.
  unfold NAFBlock0_ffn, NAFBlock0_ffn_shape, Identity.
  do 3 sim_step.
  rewrite <- sim_Conv2d. destruct (Conv2d_forward _ _); reflexivity.
Qed.

Ltac sim_blk :=
  first [ sim_mod | sim_by sim_CascadedGazeBlock_spatial
        | sim_by sim_CascadedGazeBlock_ffn | sim_by sim_NAFBlock0_spatial
        | sim_by sim_NAFBlock0_ffn ].

Ltac sim_step ::= sim_step_with sim_blk.

Ltac sim ::= repeat sim_step; try solve [sim_blk].

Lemma sim_CascadedGazeBlock (m : CascadedGazeBlock F) (inp : tensor F) :
  option_map shape (CascadedGazeBlock_forward m inp)
  = CascadedGazeBlock_shape m (shape inp).
Proof. unfold CascadedGazeBlock_forward, CascadedGazeBlock_shape. sim. Qed.

Lemma sim_NAFBlock0 (m : NAFBlock0 F) (inp : tensor F) :
  option_map shape (NAFBlock0_forward m inp) = NAFBlock0_shape m (shape inp).
Proof. unfold NAFBlock0_forward, NAFBlock0_shape. sim. Qed.

Lemma sim_Sequential {B} (fwd : B -> tensor F -> option (tensor F)) fwd_shape
  (Hf : forall b x, option_map shape (fwd b x) = fwd_shape b (shape x))
  (blocks : list B) :
  forall x, option_map shape (Sequential fwd blocks x)
            = Sequential_shape fwd_shape blocks (shape x).
Proof.
  induction blocks as [|b rest IH]; intros x; simpl.
  - reflexivity.
  - eapply sim_bind; [apply Hf|]. intros t _. apply IH.
Qed.

Lemma sim_Up (u : Up F) (x : tensor F) :
  option_map shape (Up_forward u x) = Up_shape u (shape x).
Proof. unfold Up_forward, Up_shape. sim. Qed.

Lemma sim_check_image_size (m : CascadedGaze F) (x : tensor F) :
  option_map shape (check_image_size m x) = check_image_size_shape m (shape x).
Proof.
  unfold check_image_size, check_image_size_shape.
  destruct_shape4 x E. rewrite <- E. sim.
Qed.

Lemma sim_encoder_loop (eds : list (list (CascadedGazeBlock F) * Conv2d F)) :
  forall x encs,
    option_map enc_abs (encoder_loop eds x encs)
    = encoder_loop_shape eds (shape x) (map shape encs).
Proof.
  induction eds as [|[encoder down] rest IH]; intros x encs; simpl.
  - reflexivity.
  - eapply sim_bind; [apply sim_Sequential, sim_CascadedGazeBlock|]. intros t _.
    cbv beta. sim_step. rewrite IH, map_app. reflexivity.
Qed.

Lemma sim_decoder_loop (dus : list (list (NAFBlock0 F) * Up F * tensor F)) :
  forall x,
    option_map shape (decoder_loop dus x)
    = decoder_loop_shape (map skip_abs dus) (shape x).
Proof.
  induction dus as [|[[decoder up] enc_skip] rest IH]; intros x; simpl.
  - reflexivity.
  - eapply sim_bind; [sim_by sim_Up|]. intros t _. cbv beta.
    sim_step.
    eapply sim_bind; [apply sim_Sequential, sim_NAFBlock0|]. intros t' _.
    apply IH.
Qed.

Lemma map_skip_abs_combine {A} (l : list A) (ts : list (tensor F))
  (f : A -> list (NAFBlock0 F) * Up F) :
  map skip_abs (combine (map f l) ts) = combine (map f l) (map shape ts).
Proof.
  revert ts. induction l as [|a l IH]; intros [|t ts]; simpl; try reflexivity.
  rewrite IH. reflexivity.
Qed.

Lemma sim_CascadedGaze_body (m : CascadedGaze F) (inp : tensor F) :
  option_map shape (CascadedGaze_body m inp) = CascadedGaze_body_shape m (shape inp).
Proof.
  unfold CascadedGaze_body, CascadedGaze_body_shape.
  sim_step.
  eapply sim_bind; [apply (sim_encoder_loop _ _ [])|]. intros [x encs] _.
  cbn [fst snd enc_abs].
  eapply sim_bind; [apply sim_Sequential, sim_NAFBlock0|]. intros xm _.
  eapply sim_bind.
  { rewrite sim_decoder_loop. f_equal.
    rewrite <- (map_id (combine (decoders m) (ups m))) at 1.
    rewrite map_skip_abs_combine, map_id, map_rev. reflexivity. }
  intros xd _. cbv beta. sim.
Qed.

Lemma sim_CascadedGaze (m : CascadedGaze F) (inp : tensor F) :
  option_map shape (CascadedGaze_forward m inp) = CascadedGaze_shape m (shape inp).
Proof.
  unfold CascadedGaze_forward, CascadedGaze_shape.
  destruct_shape4 inp E. rewrite <- E.
  eapply sim_bind; [sim_by sim_check_image_size|]. intros p _.
  eapply sim_bind; [sim_by sim_CascadedGaze_body|]. intros y _.
  apply sim_crop.
Qed.

(** ** CustomPixelShuffle *)

Lemma reshape_ok (t : tensor F) s :
  numel (shape t) = numel s -> reshape t s = Some (mkT s (data t)).
Proof. intros E. unfold reshape. rewrite E, Nat.eqb_refl. reflexivity. Qed.

Lemma get_reshaped (t : tensor F) s idx idx' :
  ravel s idx = ravel (shape t) idx' -> get (mkT s (data t)) idx = get t idx'.
Proof. unfold get; simpl. intros ->. reflexivity. Qed.

Lemma CustomPixelShuffle_2_eq (x : tensor F) b q h w :
  shape x = [b; 4 * q; h; w] ->
  CustomPixelShuffle_forward 2 x
  = Some (mkT [b; q; h * 2; w * 2]
            (data (build [b; q; h; 2; w; 2]
                     (fun i => get (mkT [b; q; 2; 2; h; w] (data x))
                                 (map (fun a => nth (index_of a [0; 1; 4; 2; 5; 3]) i 0)
                                    (seq 0 6)))))).
Proof.
  intros E. unfold CustomPixelShuffle_forward. rewrite E.
  change (2 ^ 2) with 4.
  replace (4 * q / 4) with q by (rewrite Nat.mul_comm, Nat.div_mul; lia).
  cbn [negb Nat.eqb guard bind].
  rewrite reshape_ok by (rewrite E; cbn [numel fold_right]; ring).
  cbn [bind]. unfold permute. cbn [shape length].
  change (is_perm [0; 1; 4; 2; 5; 3] 6) with true. cbn [guard bind map nth].
  rewrite reshape_ok by (cbn [shape build numel fold_right]; ring).
  reflexivity.
Qed.

Lemma CustomPixelShuffle_2_get (x y : tensor F) b q h w n q' i j :
  shape x = [b; 4 * q; h; w] ->
  CustomPixelShuffle_forward 2 x = Some y ->
  n < b -> q' < q -> i < 2 * h -> j < 2 * w ->
  get y [n; q'; i; j]
  = get x [n; 4 * q' + 2 * (i mod 2) + j mod 2; i / 2; j / 2].
Proof.
  intros E Hy Hn Hq Hi Hj.
  rewrite (CustomPixelShuffle_2_eq x _ _ _ _ E) in Hy.
  apply Some_eq_inv in Hy. subst y.
  pose proof (Nat.div_mod_eq i 2) as Di. pose proof (Nat.div_mod_eq j 2) as Dj.
  pose proof (Nat.mod_upper_bound i 2) as Mi.
  pose proof (Nat.mod_upper_bound j 2) as Mj.
  assert (Hr : in_range [n; q'; i / 2; i mod 2; j / 2; j mod 2] [b; q; h; 2; w; 2]).
  { in_range_tac; try lia; apply Nat.Div0.div_lt_upper_bound; lia. }
  assert (Ek : ravel [b; q; h * 2; w * 2] [n; q'; i; j]
               = ravel [b; q; h; 2; w; 2] [n; q'; i / 2; i mod 2; j / 2; j mod 2]).
  { cbn [ravel numel fold_right]. nia. }
  etransitivity; [apply (get_reshaped (build [b; q; h; 2; w; 2] _) _ _ _ Ek)|].
  rewrite get_build by assumption.
  apply get_reshaped. rewrite E.
  cbn -[Nat.div Nat.modulo Nat.mul]. cbn [numel fold_right]. nia.
Qed.

(** C5: with upscale factor 2 and a channel count divisible by 4,
    [CustomPixelShuffle] returns exactly the standard pixel-shuffle
    rearrangement: the result has shape (b, c/4, 2h, 2w) and
    [out[n, q, 2i+di, 2j+dj] = x[n, 4q+2di+dj, i, j]] for [di, dj] in {0, 1}. *)
Theorem CustomPixelShuffle_is_pixel_shuffle (x : tensor F) b c h w :
  shape x = [b; c; h; w] ->
  c mod 4 = 0 ->
  exists y,
    CustomPixelShuffle_forward 2 x = Some y
    /\ y = pixel_shuffle_spec 2 x
    /\ shape y = [b; c / 4; 2 * h; 2 * w]
    /\ forall n q i j di dj,
         n < b -> q < c / 4 -> i < h -> j < w -> di < 2 -> dj < 2 ->
         get y [n; q; 2 * i + di; 2 * j + dj]
         = get x [n; 4 * q + 2 * di + dj; i; j].
Proof.
  intros E Hc.
  assert (Ec : c = 4 * (c / 4)).
  { pose proof (Nat.div_mod_eq c 4). lia. }
  set (q0 := c / 4) in *. clearbody q0. subst c.
  pose proof (CustomPixelShuffle_2_eq x _ _ _ _ E) as Hy.
  match type of Hy with _ = Some ?t => set (y := t) in * end.
  assert (Hs : shape y = [b; q0; h * 2; w * 2]) by reflexivity.
  assert (Hwf : wf y).
  { unfold wf. rewrite Hs. subst y. cbn [data build].
    rewrite tabulate_length. cbn [numel fold_right]. ring. }
  assert (Hget : forall n q i j, n < b -> q < q0 -> i < 2 * h -> j < 2 * w ->
             get y [n; q; i; j]
             = get x [n; 4 * q + 2 * (i mod 2) + j mod 2; i / 2; j / 2]).
  { intros. apply (CustomPixelShuffle_2_get x y b q0 h w); assumption. }
  clearbody y.
  exists y. split; [assumption|]. split; [|split].
  - rewrite <- (build_get y Hwf), Hs.
    unfold pixel_shuffle_spec. rewrite E.
    replace (4 * q0 / (2 * 2)) with q0
      by (change (2 * 2) with 4; rewrite Nat.mul_comm, Nat.div_mul; lia).
    apply build_ext. intros idx Hr.
    apply in_range4_inv in Hr. destruct Hr as (n & q & i & j & -> & Hn & Hq & Hi & Hj).
    change (2 * 2) with 4. apply Hget; lia.
  - rewrite Hs, (Nat.mul_comm h), (Nat.mul_comm w). reflexivity.
  - intros n q i j di dj Hn Hq Hi Hj Hdi Hdj.
    rewrite Hget by lia.
    replace ((2 * i + di) mod 2) with di
      by (rewrite Nat.add_comm, Nat.mul_comm, Nat.Div0.mod_add, Nat.mod_small; lia).
    replace ((2 * j + dj) mod 2) with dj
      by (rewrite Nat.add_comm, Nat.mul_comm, Nat.Div0.mod_add, Nat.mod_small; lia).
    replace ((2 * i + di) / 2) with i
      by (rewrite Nat.add_comm, Nat.mul_comm, Nat.div_add, Nat.div_small; lia).
    replace ((2 * j + dj) / 2) with j
      by (rewrite Nat.add_comm, Nat.mul_comm, Nat.div_add, Nat.div_small; lia).
    reflexivity.
Qed.

(** ** Broadcasting on equal shapes *)

Lemma broadcast_rev_same l : broadcast_rev l l = Some l.
Proof.
  induction l as [|a l IH]; simpl; [reflexivity|].
  rewrite IH; simpl. rewrite Nat.eqb_refl. reflexivity.
Qed.

Lemma broadcast_shape_same s : broadcast_shape s s = Some s.
Proof.
  unfold broadcast_shape. rewrite broadcast_rev_same; simpl.
  rewrite rev_involutive. reflexivity.
Qed.

Lemma bidx_same idx s : in_range idx s -> bidx s idx = idx.
Proof.
  intros Hr. unfold bidx.
  rewrite (in_range_length _ _ Hr), Nat.sub_diag. cbn [skipn].
  induction Hr as [|i d idx s Hi Hr IH]; simpl; [reflexivity|].
  rewrite IH. destruct (d =? 1) eqn:E; [|reflexivity].
  apply Nat.eqb_eq in E. f_equal. lia.
Qed.

Lemma binop_same_shape (f : F -> F -> F) (a b : tensor F) s :
  shape a = s -> shape b = s ->
  exists y, binop f a b = Some y /\ shape y = s /\ wf y
            /\ forall idx, in_range idx s -> get y idx = f (get a idx) (get b idx).
Proof.
  intros Ea Eb. unfold binop. rewrite Ea, Eb, broadcast_shape_same. cbn [bind].
  eexists. split; [reflexivity|]. split; [reflexivity|]. split; [apply wf_build|].
  intros idx Hr. rewrite get_build by assumption.
  rewrite bidx_same by assumption. reflexivity.
Qed.

(** ** SimpleGate *)

Lemma get_narrow1 (t : tensor F) B C Hh W start len b c h w :
  shape t = [B; C; Hh; W] ->
  b < B -> c < len -> h < Hh -> w < W ->
  get (narrow1 t start len) [b; c; h; w] = get t [b; start + c; h; w].
Proof.
  intros E Hb Hc Hh' Hw. unfold narrow1. rewrite E.
  rewrite get_build by (apply in_range4; assumption). reflexivity.
Qed.

Lemma chunk_dim1_even (x : tensor F) B k Hh W :
  shape x = [B; 2 * k; Hh; W] ->
  chunk_dim1 2 x = Some [narrow1 x 0 k; narrow1 x k k].
Proof.
  intros E. unfold chunk_dim1. rewrite E. cbn [Nat.ltb Nat.leb guard bind].
  assert (E1 : (2 * k + 2 - 1) / 2 = k).
  { symmetry. apply Nat.div_unique with 1; lia. }
  rewrite E1. destruct k as [|k']; [reflexivity|].
  cbn [Nat.eqb].
  assert (E2 : (2 * S k' + S k' - 1) / S k' = 2).
  { symmetry. apply Nat.div_unique with k'; lia. }
  rewrite E2. cbn [seq map].
  repeat f_equal; lia.
Qed.

(** C6: on an input with [2k] channels, [SimpleGate] returns the
    [k]-channel tensor whose entry at [b, c, h, w] is
    [x[b, c, h, w] * x[b, k + c, h, w]]. *)
Theorem SimpleGate_split_and_multiply (x : tensor F) B k Hh W :
  shape x = [B; 2 * k; Hh; W] ->
  exists y,
    SimpleGate_forward x = Some y
    /\ shape y = [B; k; Hh; W]
    /\ forall b c h w, b < B -> c < k -> h < Hh -> w < W ->
         get y [b; c; h; w] = mul (get x [b; c; h; w]) (get x [b; k + c; h; w]).
Proof.
  intros E. unfold SimpleGate_forward.
  rewrite (chunk_dim1_even x B k Hh W E). cbn [bind].
  assert (S1 : shape (narrow1 x 0 k) = [B; k; Hh; W])
    by (rewrite shape_narrow1, E; reflexivity).
  assert (S2 : shape (narrow1 x k k) = [B; k; Hh; W])
    by (rewrite shape_narrow1, E; reflexivity).
  destruct (binop_same_shape mul _ _ _ S1 S2) as (y & Hy & Hs & _ & Hg).
  exists y. split; [exact Hy|]. split; [exact Hs|].
  intros b c h w Hb Hc Hh' Hw.
  rewrite Hg by (apply in_range4; assumption).
  rewrite (get_narrow1 x B (2 * k) Hh W 0 k), (get_narrow1 x B (2 * k) Hh W k k)
    by assumption.
  reflexivity.
Qed.

(** ** check_image_size *)

Lemma padder_size_init img_channel (theta : Params F) :
  padder_size (CascadedGaze_init img_channel theta) = 16.
Proof. reflexivity. Qed.

Lemma pad_constant_bottom_right (x : tensor F) B C Hh W r bt :
  shape x = [B; C; Hh; W] ->
  exists y,
    pad_constant x 0 r 0 bt = Some y
    /\ shape y = [B; C; Hh + bt; W + r]
    /\ wf y
    /\ (forall b c h w, b < B -> c < C -> h < Hh -> w < W ->
          get y [b; c; h; w] = get x [b; c; h; w])
    /\ (forall b c h w, b < B -> c < C -> h < Hh + bt -> w < W + r ->
          Hh <= h \/ W <= w -> get y [b; c; h; w] = zero).
Proof.
  intros E. unfold pad_constant. rewrite E. cbn [Nat.add].
  eexists. split; [reflexivity|]. split; [reflexivity|]. split; [apply wf_build|].
  split; intros b c h w Hb Hc Hh' Hw.
  - rewrite get_build by (apply in_range4; lia).
    cbn [Nat.leb andb].
    destruct (Nat.ltb_spec h Hh); [|lia].
    destruct (Nat.ltb_spec w W); [|lia].
    cbn [andb]. rewrite !Nat.sub_0_r. reflexivity.
  - intros Hout. rewrite get_build by (apply in_range4; lia).
    cbn [Nat.leb andb].
    destruct (Nat.ltb_spec h Hh); destruct (Nat.ltb_spec w W);
      try reflexivity; lia.
Qed.

Lemma check_image_size_16 (m : CascadedGaze F) (x : tensor F) B C Hh W :
  padder_size m = 16 ->
  shape x = [B; C; Hh; W] ->
  check_image_size m x
  = pad_constant x 0 ((16 - W mod 16) mod 16) 0 ((16 - Hh mod 16) mod 16).
Proof.
  intros Hp E. unfold check_image_size. rewrite E, Hp. reflexivity.
Qed.

Lemma pad_amount_minimal n :
  (n + (16 - n mod 16) mod 16) mod 16 = 0 /\ (16 - n mod 16) mod 16 < 16.
Proof.
  pose proof (Nat.mod_upper_bound n 16 ltac:(lia)) as Hlt.
  pose proof (Nat.div_mod_eq n 16) as Hn.
  split; [|apply Nat.mod_upper_bound; lia].
  destruct (Nat.eq_dec (n mod 16) 0) as [Ez|Enz].
  - rewrite Ez. change ((16 - 0) mod 16) with 0. rewrite Nat.add_0_r. exact Ez.
  - rewrite (Nat.mod_small (16 - n mod 16)) by lia.
    replace (n + (16 - n mod 16)) with ((n / 16 + 1) * 16) by lia.
    apply Nat.Div0.mod_mul.
Qed.

(** C10: [check_image_size] pads by the least amount that reaches a
    multiple of 16, on the bottom and right only; every entry of the input
    keeps its index and value, and an input whose height and width are
    multiples of 16 is returned unchanged. *)
Theorem check_image_size_minimal_bottom_right
  img_channel (theta : Params F) (x : tensor F) B C Hh W :
  shape x = [B; C; Hh; W] ->
  exists y,
    check_image_size (CascadedGaze_init img_channel theta) x = Some y
    /\ shape y = [B; C; Hh + (16 - Hh mod 16) mod 16; W + (16 - W mod 16) mod 16]
    /\ ((Hh + (16 - Hh mod 16) mod 16) mod 16 = 0 /\ (16 - Hh mod 16) mod 16 < 16)
    /\ ((W + (16 - W mod 16) mod 16) mod 16 = 0 /\ (16 - W mod 16) mod 16 < 16)
    /\ (forall b c h w, b < B -> c < C -> h < Hh -> w < W ->
          get y [b; c; h; w] = get x [b; c; h; w])
    /\ (wf x -> Hh mod 16 = 0 -> W mod 16 = 0 -> y = x).
Proof.
  intros E.
  rewrite (check_image_size_16 _ x B C Hh W (padder_size_init _ _) E).
  destruct (pad_constant_bottom_right x B C Hh W
              ((16 - W mod 16) mod 16) ((16 - Hh mod 16) mod 16) E)
    as (y & Hy & Hs & Hwf & Hin & _).
  exists y. split; [exact Hy|]. split; [exact Hs|].
  split; [apply pad_amount_minimal|]. split; [apply pad_amount_minimal|].
  split; [exact Hin|].
  intros Hwx Hh0 Hw0.
  rewrite Hh0, Hw0 in Hs. change ((16 - 0) mod 16) with 0 in Hs.
  rewrite !Nat.add_0_r in Hs.
  rewrite <- (build_get y Hwf), <- (build_get x Hwx), Hs, E.
  apply build_ext. intros idx Hr.
  apply in_range4_inv in Hr. destruct Hr as (b & c & h & w & -> & Hb & Hc & Hh' & Hw).
  apply Hin; assumption.
Qed.

(** C2 (amended): the rows and columns [check_image_size] adds are filled
    with the constant 0, the default mode of [F.pad]; no value of the
    input is mirrored into them. *)
Theorem check_image_size_pads_with_zero
  img_channel (theta : Params F) (x : tensor F) B C Hh W :
  shape x = [B; C; Hh; W] ->
  exists y,
    check_image_size (CascadedGaze_init img_channel theta) x = Some y
    /\ forall b c h w,
         b < B -> c < C ->
         h < Hh + (16 - Hh mod 16) mod 16 -> w < W + (16 - W mod 16) mod 16 ->
         Hh <= h \/ W <= w ->
         get y [b; c; h; w] = zero.
Proof.
  intros E.
  rewrite (check_image_size_16 _ x B C Hh W (padder_size_init _ _) E).
  destruct (pad_constant_bottom_right x B C Hh W
              ((16 - W mod 16) mod 16) ((16 - Hh mod 16) mod 16) E)
    as (y & Hy & _ & _ & _ & Hout).
  exists y. split; [exact Hy | exact Hout].
Qed.

(** ** Broadcasting of 4-D operands *)

Lemma broadcast_step a b r :
  bcompat a b ->
  (if a =? b then Some (a :: r)
   else if a =? 1 then Some (b :: r)
   else if b =? 1 then Some (a :: r) else None)
  = Some (bdim a b :: r).
Proof.
  unfold bcompat, bdim. intros Hc.
  destruct (Nat.eqb_spec a b) as [->|Hab].
  - destruct (b =? 1); reflexivity.
  - destruct (Nat.eqb_spec a 1) as [->|Ha]; [reflexivity|].
    destruct (Nat.eqb_spec b 1) as [->|Hb]; [reflexivity|]. lia.
Qed.

Lemma broadcast_shape4 a1 a2 a3 a4 b1 b2 b3 b4 :
  bcompat a1 b1 -> bcompat a2 b2 -> bcompat a3 b3 -> bcompat a4 b4 ->
  broadcast_shape [a1; a2; a3; a4] [b1; b2; b3; b4]
  = Some [bdim a1 b1; bdim a2 b2; bdim a3 b3; bdim a4 b4].
Proof.
  intros H1 H2 H3 H4. unfold broadcast_shape.
  cbn [rev app broadcast_rev bind].
  rewrite (broadcast_step a1 b1 [] H1). cbn [bind].
  rewrite (broadcast_step a2 b2 _ H2). cbn [bind].
  rewrite (broadcast_step a3 b3 _ H3). cbn [bind].
  rewrite (broadcast_step a4 b4 _ H4). reflexivity.
Qed.

Lemma bdim_same a : bdim a a = a.
Proof. unfold bdim. destruct (a =? 1); reflexivity. Qed.

Lemma bdim_1_r a : bdim a 1 = a.
Proof. unfold bdim. destruct (Nat.eqb_spec a 1); congruence. Qed.

Lemma bdim_1_l a : bdim 1 a = a.
Proof. reflexivity. Qed.

Lemma bsel_lt d i : i < d -> bsel d i = i.
Proof. unfold bsel. destruct (Nat.eqb_spec d 1); [lia | reflexivity]. Qed.

Lemma bsel_1 i : bsel 1 i = 0.
Proof. reflexivity. Qed.

Lemma bcompat_refl a : bcompat a a.
Proof. left; reflexivity. Qed.

Lemma bcompat_1_l a : bcompat 1 a.
Proof. right; left; reflexivity. Qed.

Lemma bcompat_1_r a : bcompat a 1.
Proof. right; right; reflexivity. Qed.

#[local] Hint Resolve bcompat_refl bcompat_1_l bcompat_1_r : core.

Lemma binop4 (f : F -> F -> F) (a b : tensor F) a1 a2 a3 a4 b1 b2 b3 b4 :
  shape a = [a1; a2; a3; a4] -> shape b = [b1; b2; b3; b4] ->
  bcompat a1 b1 -> bcompat a2 b2 -> bcompat a3 b3 -> bcompat a4 b4 ->
  exists y,
    binop f a b = Some y
    /\ shape y = [bdim a1 b1; bdim a2 b2; bdim a3 b3; bdim a4 b4]
    /\ wf y
    /\ forall n c h w,
         n < bdim a1 b1 -> c < bdim a2 b2 -> h < bdim a3 b3 -> w < bdim a4 b4 ->
         get y [n; c; h; w]
         = f (get a [bsel a1 n; bsel a2 c; bsel a3 h; bsel a4 w])
             (get b [bsel b1 n; bsel b2 c; bsel b3 h; bsel b4 w]).
Proof.
  intros Ea Eb H1 H2 H3 H4. unfold binop.
  rewrite Ea, Eb, (broadcast_shape4 _ _ _ _ _ _ _ _ H1 H2 H3 H4). cbn [bind].
  eexists. split; [reflexivity|]. split; [reflexivity|]. split; [apply wf_build|].
  intros n c h w Hn Hc Hh Hw.
  rewrite get_build by (apply in_range4; assumption). reflexivity.
Qed.

Ltac bsel_tac :=
  repeat match goal with
         | |- context [bsel ?d ?i] =>
             first [ rewrite (bsel_lt d i) by assumption
                   | change (bsel 1 i) with 0 ]
         end.

Section Binop4.

Variable f : F -> F -> F.
Variables (a b : tensor F) (N C Hh W : nat).

Lemma binop_keep_r :
  shape a = [N; C; Hh; W] -> shape b = [N; 1; Hh; W] ->
  exists y,
    binop f a b = Some y /\ shape y = [N; C; Hh; W] /\ wf y
    /\ forall n c h w, n < N -> c < C -> h < Hh -> w < W ->
         get y [n; c; h; w] = f (get a [n; c; h; w]) (get b [n; 0; h; w]).
Proof.
  intros Ea Eb.
  destruct (binop4 f a b _ _ _ _ _ _ _ _ Ea Eb) as (y & Hy & Hs & Hwf & Hg); auto.
  rewrite !bdim_same, bdim_1_r in *.
  exists y. repeat split; try assumption.
  intros n c h w Hn Hc Hh' Hw. rewrite Hg by assumption.
  bsel_tac. reflexivity.
Qed.

Lemma binop_keep_l :
  shape a = [N; 1; Hh; W] -> shape b = [N; C; Hh; W] ->
  exists y,
    binop f a b = Some y /\ shape y = [N; C; Hh; W] /\ wf y
    /\ forall n c h w, n < N -> c < C -> h < Hh -> w < W ->
         get y [n; c; h; w] = f (get a [n; 0; h; w]) (get b [n; c; h; w]).
Proof.
  intros Ea Eb.
  destruct (binop4 f a b _ _ _ _ _ _ _ _ Ea Eb) as (y & Hy & Hs & Hwf & Hg); auto.
  rewrite !bdim_same, bdim_1_l in *.
  exists y. repeat split; try assumption.
  intros n c h w Hn Hc Hh' Hw. rewrite Hg by assumption.
  bsel_tac. reflexivity.
Qed.

Lemma binop_chan_r :
  shape a = [N; C; Hh; W] -> shape b = [1; C; 1; 1] ->
  exists y,
    binop f a b = Some y /\ shape y = [N; C; Hh; W] /\ wf y
    /\ forall n c h w, n < N -> c < C -> h < Hh -> w < W ->
         get y [n; c; h; w] = f (get a [n; c; h; w]) (get b [0; c; 0; 0]).
Proof.
  intros Ea Eb.
  destruct (binop4 f a b _ _ _ _ _ _ _ _ Ea Eb) as (y & Hy & Hs & Hwf & Hg); auto.
  rewrite bdim_same, !bdim_1_r in *.
  exists y. repeat split; try assumption.
  intros n c h w Hn Hc Hh' Hw. rewrite Hg by assumption.
  bsel_tac. reflexivity.
Qed.

Lemma binop_chan_l :
  shape a = [1; C; 1; 1] -> shape b = [N; C; Hh; W] ->
  exists y,
    binop f a b = Some y /\ shape y = [N; C; Hh; W] /\ wf y
    /\ forall n c h w, n < N -> c < C -> h < Hh -> w < W ->
         get y [n; c; h; w] = f (get a [0; c; 0; 0]) (get b [n; c; h; w]).
Proof.
  intros Ea Eb.
  destruct (binop4 f a b _ _ _ _ _ _ _ _ Ea Eb) as (y & Hy & Hs & Hwf & Hg); auto.
  rewrite bdim_same, !bdim_1_l in *.
  exists y. repeat split; try assumption.
  intros n c h w Hn Hc Hh' Hw. rewrite Hg by assumption.
  bsel_tac. reflexivity.
Qed.

Lemma binop_pool_r :
  shape a = [N; C; Hh; W] -> shape b = [N; C; 1; 1] ->
  exists y,
    binop f a b = Some y /\ shape y = [N; C; Hh; W] /\ wf y
    /\ forall n c h w, n < N -> c < C -> h < Hh -> w < W ->
         get y [n; c; h; w] = f (get a [n; c; h; w]) (get b [n; c; 0; 0]).
Proof.
  intros Ea Eb.
  destruct (binop4 f a b _ _ _ _ _ _ _ _ Ea Eb) as (y & Hy & Hs & Hwf & Hg); auto.
  rewrite !bdim_same, !bdim_1_r in *.
  exists y. repeat split; try assumption.
  intros n c h w Hn Hc Hh' Hw. rewrite Hg by assumption.
  bsel_tac. reflexivity.
Qed.

Lemma binop_pool_l :
  shape a = [N; C; 1; 1] -> shape b = [N; C; Hh; W] ->
  exists y,
    binop f a b = Some y /\ shape y = [N; C; Hh; W] /\ wf y
    /\ forall n c h w, n < N -> c < C -> h < Hh -> w < W ->
         get y [n; c; h; w] = f (get a [n; c; 0; 0]) (get b [n; c; h; w]).
Proof.
  intros Ea Eb.
  destruct (binop4 f a b _ _ _ _ _ _ _ _ Ea Eb) as (y & Hy & Hs & Hwf & Hg); auto.
  rewrite !bdim_same, !bdim_1_l in *.
  exists y. repeat split; try assumption.
  intros n c h w Hn Hc Hh' Hw. rewrite Hg by assumption.
  bsel_tac. reflexivity.
Qed.

End Binop4.

(** ** LayerNormFunction.forward *)

Lemma sum_upto_ext n (f g : nat -> F) :
  (forall j, j < n -> f j = g j) -> sum_upto n f = sum_upto n g.
Proof.
  intros E. unfold sum_upto. f_equal. apply map_ext_in.
  intros j Hj. apply in_seq in Hj. apply E. lia.
Qed.

Lemma channel_mean_ext C (f g : nat -> F) :
  (forall c, c < C -> f c = g c) -> channel_mean C f = channel_mean C g.
Proof. intros E. unfold channel_mean. rewrite (sum_upto_ext C f g E). reflexivity. Qed.

Lemma mean_keepdim1_4 (t : tensor F) N C Hh W :
  shape t = [N; C; Hh; W] ->
  exists y,
    mean_keepdim 1 t = Some y /\ shape y = [N; 1; Hh; W] /\ wf y
    /\ forall n h w, n < N -> h < Hh -> w < W ->
         get y [n; 0; h; w] = channel_mean C (fun c => get t [n; c; h; w]).
Proof.
  intros E. unfold mean_keepdim. rewrite E. cbn [length Nat.ltb Nat.leb guard bind].
  eexists. split; [reflexivity|]. split; [reflexivity|]. split; [apply wf_build|].
  intros n h w Hn Hh' Hw.
  cbn [firstn skipn app nth].
  rewrite get_build by (apply in_range4; lia). reflexivity.
Qed.

Lemma get_vec_view (v : tensor F) C c :
  shape v = [C] ->
  get (mkT [1; C; 1; 1] (data v)) [0; c; 0; 0] = get v [c].
Proof.
  intros E. apply get_reshaped. rewrite E. cbn [ravel numel fold_right]. lia.
Qed.

Lemma reshape_vec (v : tensor F) C :
  shape v = [C] -> reshape v [1; C; 1; 1] = Some (mkT [1; C; 1; 1] (data v)).
Proof. intros E. apply reshape_ok. rewrite E. cbn [numel fold_right]. lia. Qed.

(** What [forward] returns and what it saves for [backward]. *)
Lemma LayerNormFunction_forward_char (x weight bias : tensor F) eps N C Hh W :
  shape x = [N; C; Hh; W] -> shape weight = [C] -> shape bias = [C] ->
  exists ctx out,
    LayerNormFunction_forward x weight bias eps = Some (ctx, out)
    /\ ctx_eps ctx = eps /\ saved_weight ctx = weight
    /\ shape (saved_y ctx) = [N; C; Hh; W] /\ wf (saved_y ctx)
    /\ shape (saved_var ctx) = [N; 1; Hh; W] /\ wf (saved_var ctx)
    /\ shape out = [N; C; Hh; W] /\ wf out
    /\ forall n c h w, n < N -> c < C -> h < Hh -> w < W ->
         let xs := fun c' => get x [n; c'; h; w] in
         let yhat := div (sub (xs c) (channel_mean C xs))
                         (sqrt (add (channel_var C xs) eps)) in
         get (saved_var ctx) [n; 0; h; w] = channel_var C xs
         /\ get (saved_y ctx) [n; c; h; w] = yhat
         /\ get out [n; c; h; w] = add (mul (get weight [c]) yhat) (get bias [c]).
Proof.
  intros Ex Ew Eb. unfold LayerNormFunction_forward. rewrite Ex.
  destruct (mean_keepdim1_4 x N C Hh W Ex) as (mu & Hmu & Smu & Wmu & Gmu).
  rewrite Hmu. cbn [bind].
  destruct (binop_keep_r sub x mu N C Hh W Ex Smu) as (d & Hd & Sd & Wd & Gd).
  unfold tsub. rewrite Hd. cbn [bind].
  destruct (mean_keepdim1_4 (tmap (fun v => mul v v) d) N C Hh W Sd)
    as (var & Hvar & Svar & Wvar & Gvar).
  rewrite Hvar. cbn [bind].
  set (den := tmap sqrt (tmap (fun v => add v eps) var)).
  assert (Sden : shape den = [N; 1; Hh; W]) by exact Svar.
  destruct (binop_keep_r div d den N C Hh W Sd Sden) as (y & Hy & Sy & Wy & Gy).
  unfold tdiv. rewrite Hy. cbn [bind].
  rewrite (reshape_vec weight C Ew). cbn [bind].
  destruct (binop_chan_l mul (mkT [1; C; 1; 1] (data weight)) y N C Hh W
              eq_refl Sy) as (wy & Hwy & Swy & Wwy & Gwy).
  unfold tmul. rewrite Hwy. cbn [bind].
  rewrite (reshape_vec bias C Eb). cbn [bind].
  destruct (binop_chan_r add wy (mkT [1; C; 1; 1] (data bias)) N C Hh W
              Swy eq_refl) as (out & Hout & Sout & Wout & Gout).
  unfold tadd. rewrite Hout. cbn [bind].
  eexists. exists out. split; [reflexivity|]. cbn [ctx_eps saved_weight saved_y saved_var].
  do 8 (split; [first [reflexivity | assumption]|]).
  intros n c h w Hn Hc Hh' Hw. cbv zeta.
  pose (xs := fun c' => get x [n; c'; h; w]).
  pose (yhat := div (sub (xs c) (channel_mean C xs))
                    (sqrt (add (channel_var C xs) eps))).
  assert (Evar : get var [n; 0; h; w] = channel_var C xs).
  { rewrite Gvar by assumption. unfold channel_var.
    apply channel_mean_ext. intros c' Hc'.
    rewrite get_tmap by (try assumption; rewrite Sd; apply in_range4; assumption).
    rewrite Gd, Gmu by assumption. reflexivity. }
  assert (Ey : get y [n; c; h; w] = yhat).
  { rewrite Gy, Gd, Gmu by assumption. subst den.
    assert (Hr : in_range [n; 0; h; w] (shape var))
      by (rewrite Svar; apply in_range4; lia).
    rewrite get_tmap by (try apply wf_tmap; assumption).
    rewrite get_tmap by assumption.
    rewrite Evar. reflexivity. }
  split; [exact Evar|]. split; [exact Ey|].
  rewrite Gout, Gwy by assumption.
  rewrite (get_vec_view weight C c Ew), (get_vec_view bias C c Eb), Ey.
  reflexivity.
Qed.

(** C3: [LayerNormFunction.forward] returns
    [weight[c] * (x[n,c,h,w] - mu[n,h,w]) / sqrt(var[n,h,w] + eps) + bias[c]],
    with [mu] the mean and [var] the biased variance of [x[n,.,h,w]] over the
    channel axis. *)
Theorem LayerNormFunction_forward_formula
  (x weight bias : tensor F) eps N C Hh W :
  shape x = [N; C; Hh; W] -> shape weight = [C] -> shape bias = [C] ->
  exists ctx y,
    LayerNormFunction_forward x weight bias eps = Some (ctx, y)
    /\ shape y = [N; C; Hh; W]
    /\ forall n c h w, n < N -> c < C -> h < Hh -> w < W ->
         let xs := fun c' => get x [n; c'; h; w] in
         let mu := channel_mean C xs in
         let var := channel_var C xs in
         get y [n; c; h; w]
         = add (mul (get weight [c]) (div (sub (get x [n; c; h; w]) mu)
                                          (sqrt (add var eps))))
               (get bias [c]).
Proof.
  intros Ex Ew Eb.
  destruct (LayerNormFunction_forward_char x weight bias eps N C Hh W Ex Ew Eb)
    as (ctx & y & Hf & _ & _ & _ & _ & _ & _ & Sy & _ & Hg).
  exists ctx, y. split; [exact Hf|]. split; [exact Sy|].
  intros n c h w Hn Hc Hh' Hw xs mu var.
  apply (Hg n c h w Hn Hc Hh' Hw).
Qed.

(** ** GlobalContextExtractor *)

Lemma mapM_option_Some {A B} (f : A -> option B) (l : list A) bs :
  mapM_option f l = Some bs ->
  length bs = length l
  /\ forall i, bind (nth_error l i) f = nth_error bs i \/ length l <= i.
Proof.
  revert bs. induction l as [|a l IH]; intros bs Hm; simpl in Hm.
  - injection Hm as <-. split; [reflexivity|]. intros i. right. simpl. lia.
  - apply bind_Some in Hm. destruct Hm as (b & Hb & Hm).
    apply bind_Some in Hm. destruct Hm as (bs' & Hbs & Hm).
    injection Hm as <-. destruct (IH _ Hbs) as [Hl Hn].
    split; [simpl; congruence|].
    intros [|i]; simpl; [left; exact Hb|].
    destruct (Hn i); [left; assumption | right; lia].
Qed.

Lemma GCE_convs_from_length i c ks padding bias (theta : Params F) :
  length (GCE_convs_from i c ks padding bias theta) = length ks.
Proof.
  revert i. induction ks as [|[k s] ks IH]; intros i; simpl; [reflexivity|].
  rewrite IH. reflexivity.
Qed.

Lemma bind_assoc {A B C} (o : option A) (k : A -> option B) (k' : B -> option C) :
  bind (bind o k) k' = bind o (fun a => bind (k a) k').
Proof. destruct o; reflexivity. Qed.

Lemma bind_ext {A B} (o : option A) (k k' : A -> option B) :
  (forall a, k a = k' a) -> bind o k = bind o k'.
Proof. intros E. destruct o; simpl; auto. Qed.

Lemma bind_ret {A} (o : option A) : bind o (fun a => Some a) = o.
Proof. destruct o; reflexivity. Qed.

(** The loop appends the remaining chain to what it has collected. *)
Lemma GCE_loop_app (convs : list (depthwise_separable_conv F)) :
  forall x outputs,
    GCE_loop convs x outputs
    = bind (GCE_loop convs x []) (fun l => Some (outputs ++ l)).
Proof.
  induction convs as [|conv rest IH]; intros x outputs; simpl.
  - rewrite app_nil_r. reflexivity.
  - rewrite bind_assoc. apply bind_ext. intros t.
    rewrite (IH _ (outputs ++ _)), (IH _ [_]), bind_assoc.
    apply bind_ext. intros l. simpl. rewrite <- app_assoc. reflexivity.
Qed.

Lemma GCE_entry_unfold (convs : list (depthwise_separable_conv F)) x i :
  GCE_entry convs x i
  = bind (match i with 0 => Some x | S j => GCE_entry convs x j end)
      (fun prev => bind (nth_error convs i) (fun conv =>
         bind (depthwise_separable_conv_forward conv prev)
           (fun t => Some (tmap gelu_tanh t)))).
Proof. destruct i; reflexivity. Qed.

Lemma GCE_chain (convs : list (depthwise_separable_conv F)) :
  forall pre x xcur,
    match length pre with
    | 0 => Some x
    | S j => GCE_entry (pre ++ convs) x j
    end = Some xcur ->
    mapM_option (GCE_entry (pre ++ convs) x) (seq (length pre) (length convs))
    = GCE_loop convs xcur [].
Proof.
  induction convs as [|conv rest IH]; intros pre x xcur Hcur.
  - reflexivity.
  - cbn [length seq mapM_option GCE_loop].
    assert (He : GCE_entry (pre ++ conv :: rest) x (length pre)
                 = bind (depthwise_separable_conv_forward conv xcur)
                     (fun t => Some (tmap gelu_tanh t))).
    { rewrite GCE_entry_unfold, Hcur. cbn [bind].
      rewrite nth_error_app2, Nat.sub_diag by lia. reflexivity. }
    rewrite He.
    destruct (depthwise_separable_conv_forward conv xcur) as [t|] eqn:Ef;
      cbn [bind]; [|reflexivity].
    rewrite GCE_loop_app. cbn [app].
    specialize (IH (pre ++ [conv]) x (tmap gelu_tanh t)).
    rewrite <- app_assoc, length_app, Nat.add_comm in IH.
    cbn [app length Nat.add] in IH.
    rewrite IH; [reflexivity | exact He].
Qed.

(** The loop of [forward] is the chain [entry 0 = gelu(conv_0(x))],
    [entry i = gelu(conv_i(entry (i-1)))], also when a convolution raises. *)
Lemma GlobalContextExtractor_forward_chain
  c kernel_sizes strides padding bias (theta : Params F) (x : tensor F) :
  let m := GlobalContextExtractor_init c kernel_sizes strides padding bias theta in
  length m = length (combine kernel_sizes strides)
  /\ GlobalContextExtractor_forward m x
     = mapM_option (GCE_entry m x) (seq 0 (length m))
  /\ forall outs,
       GlobalContextExtractor_forward m x = Some outs ->
       length outs = length (combine kernel_sizes strides)
       /\ forall i, i < length outs ->
            GCE_entry m x i = nth_error outs i.
Proof.
  intros m.
  assert (Hlen : length m = length (combine kernel_sizes strides))
    by apply GCE_convs_from_length.
  assert (Hchain : GlobalContextExtractor_forward m x
                   = mapM_option (GCE_entry m x) (seq 0 (length m))).
  { symmetry. apply (GCE_chain m [] x x). reflexivity. }
  split; [exact Hlen|]. split; [exact Hchain|].
  intros outs Hf. rewrite Hchain in Hf.
  destruct (mapM_option_Some _ _ _ Hf) as [Hl Hn].
  rewrite length_seq in Hl. split; [congruence|].
  intros i Hi. specialize (Hn i). rewrite <- Hl in Hn.
  rewrite nth_error_seq, length_seq in Hn.
  destruct (Nat.ltb_spec i (length outs)); [|lia].
  destruct Hn as [Hn|Hn]; [exact Hn | lia].
Qed.


(** ** Shapes through the layers *)

Lemma guard_true b : b = true -> guard b = Some tt.
Proof. intros ->. reflexivity. Qed.

Lemma conv_out_ge_1 size k s p : 1 <= conv_out size k s p.
Proof. unfold conv_out. lia. Qed.

Lemma Conv2d_init_shape nin nout k s p g bias (theta : Params F) B C Hh W :
  0 < s -> 0 < g -> nin mod g = 0 -> nout mod g = 0 ->
  C = nin -> k <= Hh + 2 * p -> k <= W + 2 * p ->
  Conv2d_shape (Conv2d_init nin nout k s p g bias theta) [B; C; Hh; W]
  = Some [B; nout; conv_out Hh k s p; conv_out W k s p].
Proof.
  intros Hs Hg Hin Hout HC HH HW.
  unfold Conv2d_shape, conv2d_valid, Conv2d_init.
  cbn [in_channels out_channels kernel_size stride padding groups].
  rewrite guard_true; cbn [bind].
  - rewrite guard_true by (apply Nat.eqb_eq; assumption). cbn [bind].
    rewrite guard_true; [reflexivity|].
    apply andb_true_iff; split; apply Nat.leb_le; assumption.
  - repeat (apply andb_true_iff; split);
      first [apply Nat.ltb_lt; assumption | apply Nat.eqb_eq; assumption].
Qed.

Lemma conv1x1_shape nin nout bias (theta : Params F) B C Hh W :
  C = nin -> 1 <= Hh -> 1 <= W ->
  Conv2d_shape (Conv2d_init nin nout 1 1 0 1 bias theta) [B; C; Hh; W]
  = Some [B; nout; Hh; W].
Proof.
  intros HC HH HW.
  rewrite Conv2d_init_shape by (try apply Nat.mod_1_r; lia).
  unfold conv_out. rewrite !Nat.div_1_r. repeat f_equal; lia.
Qed.

Lemma conv3x3_shape nin nout g bias (theta : Params F) B C Hh W :
  0 < g -> nin mod g = 0 -> nout mod g = 0 ->
  C = nin -> 1 <= Hh -> 1 <= W ->
  Conv2d_shape (Conv2d_init nin nout 3 1 1 g bias theta) [B; C; Hh; W]
  = Some [B; nout; Hh; W].
Proof.
  intros Hg Hin Hout HC HH HW.
  rewrite Conv2d_init_shape by (assumption || lia).
  unfold conv_out. rewrite !Nat.div_1_r. repeat f_equal; lia.
Qed.

Lemma conv_down_shape chan (theta : Params F) B C h w :
  C = chan -> 1 <= h -> 1 <= w ->
  Conv2d_shape (Conv2d_init chan (2 * chan) 2 2 0 1 true theta) [B; C; 2 * h; 2 * w]
  = Some [B; 2 * chan; h; w].
Proof.
  intros HC Hh Hw.
  rewrite Conv2d_init_shape by (try apply Nat.mod_1_r; lia).
  unfold conv_out.
  assert (E : forall n, 1 <= n -> (2 * n + 2 * 0 - 2) / 2 + 1 = n).
  { intros n Hn. replace (2 * n + 2 * 0 - 2) with ((n - 1) * 2) by lia.
    rewrite Nat.div_mul by lia. lia. }
  rewrite !E by assumption. reflexivity.
Qed.

Lemma reshape_shape_ok s s' : numel s = numel s' -> reshape_shape s s' = Some s'.
Proof. intros E. unfold reshape_shape. rewrite E, Nat.eqb_refl. reflexivity. Qed.

Lemma broadcast_keep_r N C Hh W :
  broadcast_shape [N; C; Hh; W] [N; 1; Hh; W] = Some [N; C; Hh; W].
Proof.
  rewrite broadcast_shape4 by auto. rewrite !bdim_same, bdim_1_r. reflexivity.
Qed.

Lemma broadcast_chan_r N C Hh W :
  broadcast_shape [N; C; Hh; W] [1; C; 1; 1] = Some [N; C; Hh; W].
Proof.
  rewrite broadcast_shape4 by auto. rewrite bdim_same, !bdim_1_r. reflexivity.
Qed.

Lemma broadcast_chan_l N C Hh W :
  broadcast_shape [1; C; 1; 1] [N; C; Hh; W] = Some [N; C; Hh; W].
Proof.
  rewrite broadcast_shape4 by auto. rewrite bdim_same, !bdim_1_l. reflexivity.
Qed.

Lemma broadcast_pool_r N C Hh W :
  broadcast_shape [N; C; Hh; W] [N; C; 1; 1] = Some [N; C; Hh; W].
Proof.
  rewrite broadcast_shape4 by auto. rewrite !bdim_same, !bdim_1_r. reflexivity.
Qed.

Lemma broadcast_pool_l N C Hh W :
  broadcast_shape [N; C; 1; 1] [N; C; Hh; W] = Some [N; C; Hh; W].
Proof.
  rewrite broadcast_shape4 by auto. rewrite !bdim_same, !bdim_1_l. reflexivity.
Qed.

Lemma LayerNorm2d_init_shape c eps (theta : Params F) N C Hh W :
  C = c ->
  LayerNorm2d_shape (LayerNorm2d_init c eps theta) [N; C; Hh; W]
  = Some [N; C; Hh; W].
Proof.
  intros ->. unfold LayerNorm2d_shape, LayerNormFunction_shape, LayerNorm2d_init.
  cbn [ln_channels]. unfold mean_keepdim_shape.
  cbn [length Nat.ltb Nat.leb guard bind firstn skipn app].
  repeat (rewrite broadcast_keep_r;
          cbn [bind Nat.ltb Nat.leb length guard firstn skipn app]).
  assert (En : numel [c] = numel [1; c; 1; 1]) by (unfold numel; simpl; lia).
  rewrite !(reshape_shape_ok _ _ En). cbn [bind].
  rewrite broadcast_chan_l. cbn [bind].
  apply broadcast_chan_r.
Qed.

Lemma chunk_dim1_shape_even B C k Hh W :
  C = 2 * k ->
  chunk_dim1_shape 2 [B; C; Hh; W] = Some [[B; k; Hh; W]; [B; k; Hh; W]].
Proof.
  intros ->. unfold chunk_dim1_shape. cbn [Nat.ltb Nat.leb guard bind].
  assert (E1 : (2 * k + 2 - 1) / 2 = k).
  { symmetry. apply Nat.div_unique with 1; lia. }
  rewrite E1. destruct k as [|k']; [reflexivity|].
  cbn [Nat.eqb].
  assert (E2 : (2 * S k' + S k' - 1) / S k' = 2).
  { symmetry. apply Nat.div_unique with k'; lia. }
  rewrite E2. cbn [seq map narrow1_shape].
  repeat f_equal; lia.
Qed.

Lemma SimpleGate_shape_even B C k Hh W :
  C = 2 * k -> SimpleGate_shape [B; C; Hh; W] = Some [B; k; Hh; W].
Proof.
  intros E. unfold SimpleGate_shape.
  rewrite (chunk_dim1_shape_even B C k Hh W E). cbn [bind].
  apply broadcast_shape_same.
Qed.

Lemma sca_init_shape C (theta : Params F) B C' Hh W :
  C' = C -> 1 <= C -> 1 <= Hh -> 1 <= W ->
  sca_shape (Conv2d_init C C 1 1 0 1 true theta) [B; C'; Hh; W] = Some [B; C; 1; 1].
Proof.
  intros -> HC HH HW. unfold sca_shape, adaptive_avg_pool_1_shape.
  rewrite guard_true
    by (repeat (apply andb_true_iff; split); apply Nat.ltb_lt; lia).
  cbn [bind]. apply conv1x1_shape; lia.
Qed.

(** ** Shapes through the blocks *)

Lemma NAFBlock0_spatial_init_shape c (theta : Params F) B Hh W :
  1 <= c -> 1 <= Hh -> 1 <= W ->
  NAFBlock0_spatial_shape (NAFBlock0_init c 2 2 theta) [B; c; Hh; W]
  = Some [B; c; Hh; W].
Proof.
  intros Hc HH HW. unfold NAFBlock0_spatial_shape, NAFBlock0_init.
  cbn [naf_norm1 naf_conv1 naf_conv2 naf_sca naf_conv3].
  assert (Ed : c * 2 / 2 = c) by (apply Nat.div_mul; lia).
  rewrite LayerNorm2d_init_shape by reflexivity. cbn [bind].
  rewrite conv1x1_shape by lia. cbn [bind].
  rewrite conv3x3_shape by (try apply Nat.Div0.mod_same; lia). cbn [bind].
  rewrite (SimpleGate_shape_even B (c * 2) c Hh W) by lia. cbn [bind].
  rewrite Ed.
  rewrite sca_init_shape by lia. cbn [bind].
  rewrite broadcast_pool_r. cbn [bind].
  apply conv1x1_shape; lia.
Qed.

Lemma NAFBlock0_ffn_init_shape c (theta : Params F) B Hh W :
  1 <= c -> 1 <= Hh -> 1 <= W ->
  NAFBlock0_ffn_shape (NAFBlock0_init c 2 2 theta) [B; c; Hh; W]
  = Some [B; c; Hh; W].
Proof.
  intros Hc HH HW. unfold NAFBlock0_ffn_shape, NAFBlock0_init.
  cbn [naf_norm2 naf_conv4 naf_conv5].
  assert (Ed : 2 * c / 2 = c) by (rewrite Nat.mul_comm; apply Nat.div_mul; lia).
  rewrite LayerNorm2d_init_shape by reflexivity. cbn [bind].
  rewrite conv1x1_shape by lia. cbn [bind].
  rewrite (SimpleGate_shape_even B (2 * c) c Hh W) by lia. cbn [bind].
  rewrite Ed. apply conv1x1_shape; lia.
Qed.

Lemma NAFBlock0_init_shape c (theta : Params F) B Hh W :
  1 <= c -> 1 <= Hh -> 1 <= W ->
  NAFBlock0_shape (NAFBlock0_init c 2 2 theta) [B; c; Hh; W] = Some [B; c; Hh; W].
Proof.
  intros Hc HH HW. unfold NAFBlock0_shape.
  rewrite NAFBlock0_spatial_init_shape by assumption. cbn [bind].
  change (naf_c (NAFBlock0_init c 2 2 theta)) with c.
  rewrite broadcast_chan_r. cbn [bind].
  rewrite broadcast_shape_same. cbn [bind].
  rewrite NAFBlock0_ffn_init_shape by assumption. cbn [bind].
  rewrite broadcast_chan_r. cbn [bind].
  apply broadcast_shape_same.
Qed.

Lemma depthwise_separable_conv_init_shape c k s (theta : Params F) B Hh W :
  1 <= c -> 0 < s -> k <= Hh -> k <= W ->
  depthwise_separable_conv_shape
    (depthwise_separable_conv_init c c k 0 s false theta) [B; c; Hh; W]
  = Some [B; c; conv_out Hh k s 0; conv_out W k s 0].
Proof.
  intros Hc Hs HH HW.
  unfold depthwise_separable_conv_shape, depthwise_separable_conv_init.
  cbn [depthwise pointwise].
  rewrite Conv2d_init_shape by (try apply Nat.Div0.mod_same; lia). cbn [bind].
  apply conv1x1_shape; [reflexivity | apply conv_out_ge_1 | apply conv_out_ge_1].
Qed.

Lemma upsample_nearest_shape_ok h w B C Hin Win :
  1 <= Hin -> 1 <= Win -> 1 <= h -> 1 <= w ->
  upsample_nearest_shape h w [B; C; Hin; Win] = Some [B; C; h; w].
Proof.
  intros. unfold upsample_nearest_shape.
  rewrite guard_true
    by (repeat (apply andb_true_iff; split); apply Nat.ltb_lt; lia).
  reflexivity.
Qed.

Lemma cat_dim1_shape4 B Hh W (cs : list nat) c0 :
  cat_dim1_shape (map (fun c => [B; c; Hh; W]) (c0 :: cs))
  = Some [B; list_sum (c0 :: cs); Hh; W].
Proof.
  unfold cat_dim1_shape. cbn [map].
  rewrite guard_true.
  - cbn [bind]. change ([B; c0; Hh; W] :: map (fun c => [B; c; Hh; W]) cs)
      with (map (fun c => [B; c; Hh; W]) (c0 :: cs)).
    rewrite map_map. cbn [nth]. rewrite map_id. reflexivity.
  - change ([B; c0; Hh; W] :: map (fun c => [B; c; Hh; W]) cs)
      with (map (fun c => [B; c; Hh; W]) (c0 :: cs)).
    rewrite forallb_map_comp. apply forallb_forall. intros c _.
    rewrite Nat.eqb_refl, shape_eqb_refl. reflexivity.
Qed.

(** Extents left by the context extractor's strided convolutions. *)
Lemma conv_out_fits size k s k' :
  0 < s -> k + s * (k' - 1) <= size -> k' <= conv_out size k s 0.
Proof.
  intros Hs Hsz. unfold conv_out.
  assert (k' - 1 <= (size + 2 * 0 - k) / s); [|lia].
  apply Nat.div_le_lower_bound; lia.
Qed.

Lemma CascadedGazeBlock_spatial_init_shape c g (theta : Params F) B Hh W :
  1 <= c -> GCE_min_size g <= Hh -> GCE_min_size g <= W ->
  CascadedGazeBlock_spatial_shape (CascadedGazeBlock_init c g 2 2 theta)
    [B; c; Hh; W]
  = Some [B; c; Hh; W].
Proof.
  unfold GCE_min_size. intros Hc HH HW.
  unfold CascadedGazeBlock_spatial_shape, CascadedGazeBlock_init.
  cbn [cgb_norm1 cgb_conv1 cgb_conv2 cgb_GCE cgb_GCE_Conv cgb_sca cgb_project_out].
  destruct (g =? 3).
  all: rewrite LayerNorm2d_init_shape by reflexivity; cbn [bind].
  all: rewrite conv1x1_shape by lia; cbn [bind].
  all: rewrite conv3x3_shape by (try apply Nat.Div0.mod_same; lia); cbn [bind].
  all: rewrite (chunk_dim1_shape_even B (c * 2) c Hh W) by lia; cbn [bind].
  all: rewrite broadcast_shape_same; cbn [bind].
  - unfold GlobalContextExtractor_init.
    cbn [combine GCE_convs_from GCE_loop_shape].
    pose proof (conv_out_fits Hh 2 2 16 ltac:(lia) ltac:(lia)) as H1.
    pose proof (conv_out_fits W 2 2 16 ltac:(lia) ltac:(lia)) as W1.
    rewrite depthwise_separable_conv_init_shape by lia. cbn [bind app].
    pose proof (conv_out_fits (conv_out Hh 2 2 0) 4 4 4 ltac:(lia) ltac:(lia)) as H2.
    pose proof (conv_out_fits (conv_out W 2 2 0) 4 4 4 ltac:(lia) ltac:(lia)) as W2.
    rewrite depthwise_separable_conv_init_shape by lia. cbn [bind app].
    rewrite depthwise_separable_conv_init_shape by lia. cbn [bind app].
    rewrite !upsample_nearest_shape_ok by (try apply conv_out_ge_1; lia).
    cbn [bind].
    pose proof (cat_dim1_shape4 B Hh W [c; c; c] (c * 2)) as Ecat.
    cbn [map] in Ecat. rewrite Ecat. cbn [bind list_sum fold_right].
    replace (c * 2 * 5 / 2) with (c * 2 + (c + (c + (c + 0))))
      by (replace (c * 2 * 5) with (c * 5 * 2) by lia;
          rewrite Nat.div_mul; lia).
    rewrite sca_init_shape by lia. cbn [bind].
    rewrite broadcast_pool_l. cbn [bind].
    apply conv1x1_shape; lia.
  - unfold GlobalContextExtractor_init.
    cbn [combine GCE_convs_from GCE_loop_shape].
    pose proof (conv_out_fits Hh 3 2 3 ltac:(lia) ltac:(lia)) as H1.
    pose proof (conv_out_fits W 3 2 3 ltac:(lia) ltac:(lia)) as W1.
    rewrite depthwise_separable_conv_init_shape by lia. cbn [bind app].
    rewrite depthwise_separable_conv_init_shape by lia. cbn [bind app].
    rewrite !upsample_nearest_shape_ok by (try apply conv_out_ge_1; lia).
    cbn [bind].
    pose proof (cat_dim1_shape4 B Hh W [c; c] (c * 2)) as Ecat.
    cbn [map] in Ecat. rewrite Ecat. cbn [bind list_sum fold_right].
    replace (c * 2 * 2) with (c * 2 + (c + (c + 0))) by lia.
    rewrite sca_init_shape by lia. cbn [bind].
    rewrite broadcast_pool_l. cbn [bind].
    apply conv1x1_shape; lia.
Qed.

Lemma CascadedGazeBlock_ffn_init_shape c g (theta : Params F) B Hh W :
  1 <= c -> 1 <= Hh -> 1 <= W ->
  CascadedGazeBlock_ffn_shape (CascadedGazeBlock_init c g 2 2 theta) [B; c; Hh; W]
  = Some [B; c; Hh; W].
Proof.
  intros Hc HH HW. unfold CascadedGazeBlock_ffn_shape, CascadedGazeBlock_init.
  cbn [cgb_norm2 cgb_conv4 cgb_conv5].
  assert (Ed : 2 * c / 2 = c) by (rewrite Nat.mul_comm; apply Nat.div_mul; lia).
  rewrite LayerNorm2d_init_shape by reflexivity. cbn [bind].
  rewrite conv1x1_shape by lia. cbn [bind].
  rewrite (SimpleGate_shape_even B (2 * c) c Hh W) by lia. cbn [bind].
  rewrite Ed. apply conv1x1_shape; lia.
Qed.

Lemma GCE_min_size_ge g : 7 <= GCE_min_size g.
Proof. unfold GCE_min_size. destruct (g =? 3); lia. Qed.

Lemma CascadedGazeBlock_init_shape c g (theta : Params F) B Hh W :
  1 <= c -> GCE_min_size g <= Hh -> GCE_min_size g <= W ->
  CascadedGazeBlock_shape (CascadedGazeBlock_init c g 2 2 theta) [B; c; Hh; W]
  = Some [B; c; Hh; W].
Proof.
  intros Hc HH HW. pose proof (GCE_min_size_ge g).
  unfold CascadedGazeBlock_shape.
  rewrite CascadedGazeBlock_spatial_init_shape by assumption. cbn [bind].
  change (cgb_c (CascadedGazeBlock_init c g 2 2 theta)) with c.
  rewrite broadcast_chan_r. cbn [bind].
  rewrite broadcast_shape_same. cbn [bind].
  rewrite CascadedGazeBlock_ffn_init_shape by lia. cbn [bind].
  rewrite broadcast_chan_r. cbn [bind].
  apply broadcast_shape_same.
Qed.

Lemma Sequential_blocks_shape {B} (mk : Params F -> B) fwd_shape s :
  (forall theta, fwd_shape (mk theta) s = Some s) ->
  forall num theta,
    Sequential_shape fwd_shape (blocks_init mk num theta) s = Some s.
Proof.
  intros Hb num theta. unfold blocks_init.
  generalize (seq 0 num) as l.
  induction l as [|j l IH]; simpl; [reflexivity|].
  rewrite Hb. exact IH.
Qed.

(** ** Residual branches scaled by zero *)

Lemma tensor_ext (a b : tensor F) :
  wf a -> wf b -> shape a = shape b ->
  (forall idx, in_range idx (shape a) -> get a idx = get b idx) -> a = b.
Proof.
  intros Ha Hb Hs Hg.
  rewrite <- (build_get a Ha), <- (build_get b Hb), <- Hs.
  apply build_ext. exact Hg.
Qed.

Lemma sim_exists {A} (alpha : A -> list nat) (o : option A) s :
  option_map alpha o = Some s -> exists a, o = Some a /\ alpha a = s.
Proof. apply option_map_Some. Qed.

Lemma get_chan_param c (f : nat -> F) k :
  k < c -> get (chan_param c f) [0; k; 0; 0] = f k.
Proof.
  intros Hk. unfold chan_param.
  rewrite get_build by (apply in_range4; lia). reflexivity.
Qed.

Section ZeroLaws.

Hypothesis mul_zero_r : forall a : F, mul a zero = zero.
Hypothesis add_zero_r : forall a : F, add a zero = a.

Lemma scale_zero (inp x : tensor F) (beta : nat -> F) B c Hh W :
  wf inp -> shape inp = [B; c; Hh; W] -> shape x = [B; c; Hh; W] ->
  (forall k, beta k = zero) ->
  exists xb, tmul x (chan_param c beta) = Some xb /\ tadd inp xb = Some inp.
Proof.
  intros Hwf Ei Ex Hb.
  destruct (binop_chan_r mul x (chan_param c beta) B c Hh W Ex eq_refl)
    as (xb & Hxb & Sxb & Wxb & Gxb).
  exists xb. split; [exact Hxb|].
  destruct (binop_same_shape add inp xb _ Ei Sxb) as (y & Hy & Sy & Wy & Gy).
  unfold tadd. rewrite Hy. f_equal.
  apply tensor_ext; try assumption; [congruence|].
  intros idx Hr. rewrite Sy in Hr. rewrite Gy by assumption.
  apply in_range4_inv in Hr. destruct Hr as (n & k & h & w & -> & Hn & Hk & Hh' & Hw).
  rewrite Gxb by assumption.
  rewrite get_chan_param, Hb by assumption.
  rewrite mul_zero_r. apply add_zero_r.
Qed.

Lemma CascadedGazeBlock_identity c g (theta : Params F) (inp : tensor F) B Hh W :
  let m := CascadedGazeBlock_init c g 2 2 theta in
  (forall k, cgb_beta m k = zero) -> (forall k, cgb_gamma m k = zero) ->
  wf inp -> shape inp = [B; c; Hh; W] ->
  1 <= c -> GCE_min_size g <= Hh -> GCE_min_size g <= W ->
  CascadedGazeBlock_forward m inp = Some inp.
Proof.
  intros m Hbeta Hgamma Hwf Ei Hc HH HW. pose proof (GCE_min_size_ge g).
  unfold CascadedGazeBlock_forward.
  destruct (sim_exists shape (CascadedGazeBlock_spatial m inp) [B; c; Hh; W])
    as (x & Hx & Sx).
  { rewrite sim_CascadedGazeBlock_spatial, Ei.
    apply CascadedGazeBlock_spatial_init_shape; assumption. }
  rewrite Hx. cbn [bind]. change (cgb_c m) with c.
  destruct (scale_zero inp x (cgb_beta m) B c Hh W Hwf Ei Sx Hbeta)
    as (xb & Hxb & Hy).
  rewrite Hxb. cbn [bind]. rewrite Hy. cbn [bind].
  destruct (sim_exists shape (CascadedGazeBlock_ffn m inp) [B; c; Hh; W])
    as (x' & Hx' & Sx').
  { rewrite sim_CascadedGazeBlock_ffn, Ei.
    apply CascadedGazeBlock_ffn_init_shape; lia. }
  rewrite Hx'. cbn [bind].
  destruct (scale_zero inp x' (cgb_gamma m) B c Hh W Hwf Ei Sx' Hgamma)
    as (xg & Hxg & Hout).
  rewrite Hxg. cbn [bind]. exact Hout.
Qed.

Lemma NAFBlock0_identity c (theta : Params F) (inp : tensor F) B Hh W :
  let m := NAFBlock0_init c 2 2 theta in
  (forall k, naf_beta m k = zero) -> (forall k, naf_gamma m k = zero) ->
  wf inp -> shape inp = [B; c; Hh; W] ->
  1 <= c -> 1 <= Hh -> 1 <= W ->
  NAFBlock0_forward m inp = Some inp.
Proof.
  intros m Hbeta Hgamma Hwf Ei Hc HH HW.
  unfold NAFBlock0_forward.
  destruct (sim_exists shape (NAFBlock0_spatial m inp) [B; c; Hh; W])
    as (x & Hx & Sx).
  { rewrite sim_NAFBlock0_spatial, Ei.
    apply NAFBlock0_spatial_init_shape; assumption. }
  rewrite Hx. cbn [bind]. change (naf_c m) with c.
  destruct (scale_zero inp x (naf_beta m) B c Hh W Hwf Ei Sx Hbeta)
    as (xb & Hxb & Hy).
  rewrite Hxb. cbn [bind]. rewrite Hy. cbn [bind].
  destruct (sim_exists shape (NAFBlock0_ffn m inp) [B; c; Hh; W])
    as (x' & Hx' & Sx').
  { rewrite sim_NAFBlock0_ffn, Ei.
    apply NAFBlock0_ffn_init_shape; lia. }
  rewrite Hx'. cbn [bind].
  destruct (scale_zero inp x' (naf_gamma m) B c Hh W Hwf Ei Sx' Hgamma)
    as (xg & Hxg & Hout).
  rewrite Hxg. cbn [bind]. exact Hout.
Qed.


End ZeroLaws.

(** ** The assembled network *)

Lemma CascadedGaze_init_eq img_channel (theta : Params F) :
  CascadedGaze_init img_channel theta
  = {| intro := Conv2d_init img_channel 60 3 1 1 1 true (sub_params theta 0);
       ending := Conv2d_init 60 img_channel 3 1 1 1 true (sub_params theta 1);
       encoders :=
         [blocks_init (CascadedGazeBlock_init 60 3 2 2) 2
            (sub_params (sub_params theta 2) 0);
          blocks_init (CascadedGazeBlock_init 120 3 2 2) 2
            (sub_params (sub_params theta 2) 1);
          blocks_init (CascadedGazeBlock_init 240 2 2 2) 4
            (sub_params (sub_params theta 2) 2);
          blocks_init (CascadedGazeBlock_init 480 2 2 2) 6
            (sub_params (sub_params theta 2) 3)];
       decoders :=
         [blocks_init (NAFBlock0_init 480 2 2) 2 (sub_params (sub_params theta 6) 0);
          blocks_init (NAFBlock0_init 240 2 2) 2 (sub_params (sub_params theta 6) 1);
          blocks_init (NAFBlock0_init 120 2 2) 2 (sub_params (sub_params theta 6) 2);
          blocks_init (NAFBlock0_init 60 2 2) 2 (sub_params (sub_params theta 6) 3)];
       middle_blks := blocks_init (NAFBlock0_init 960 2 2) 10 (sub_params theta 4);
       ups :=
         [{| up_conv := Conv2d_init 960 1920 1 1 0 1 false
                          (sub_params (sub_params theta 5) 0);
             up_shuffle := 2 |};
          {| up_conv := Conv2d_init 480 960 1 1 0 1 false
                          (sub_params (sub_params theta 5) 1);
             up_shuffle := 2 |};
          {| up_conv := Conv2d_init 240 480 1 1 0 1 false
                          (sub_params (sub_params theta 5) 2);
             up_shuffle := 2 |};
          {| up_conv := Conv2d_init 120 240 1 1 0 1 false
                          (sub_params (sub_params theta 5) 3);
             up_shuffle := 2 |}];
       downs :=
         [Conv2d_init 60 120 2 2 0 1 true (sub_params (sub_params theta 3) 0);
          Conv2d_init 120 240 2 2 0 1 true (sub_params (sub_params theta 3) 1);
          Conv2d_init 240 480 2 2 0 1 true (sub_params (sub_params theta 3) 2);
          Conv2d_init 480 960 2 2 0 1 true (sub_params (sub_params theta 3) 3)];
       padder_size := 16 |}.
Proof. reflexivity. Qed.

Lemma Sequential_CGB_ok chan g num (theta : Params F) (x : tensor F) B Hh W :
  shape x = [B; chan; Hh; W] ->
  1 <= chan -> GCE_min_size g <= Hh -> GCE_min_size g <= W ->
  exists e,
    Sequential CascadedGazeBlock_forward
      (blocks_init (CascadedGazeBlock_init chan g 2 2) num theta) x = Some e
    /\ shape e = [B; chan; Hh; W].
Proof.
  intros Ex Hc HH HW. apply sim_exists.
  rewrite (sim_Sequential _ _ sim_CascadedGazeBlock), Ex.
  apply Sequential_blocks_shape. intros th.
  apply CascadedGazeBlock_init_shape; assumption.
Qed.

Lemma Sequential_NAF_ok chan num (theta : Params F) (x : tensor F) B Hh W :
  shape x = [B; chan; Hh; W] ->
  1 <= chan -> 1 <= Hh -> 1 <= W ->
  exists e,
    Sequential NAFBlock0_forward
      (blocks_init (NAFBlock0_init chan 2 2) num theta) x = Some e
    /\ shape e = [B; chan; Hh; W].
Proof.
  intros Ex Hc HH HW. apply sim_exists.
  rewrite (sim_Sequential _ _ sim_NAFBlock0), Ex.
  apply Sequential_blocks_shape. intros th.
  apply NAFBlock0_init_shape; assumption.
Qed.

Lemma conv_down_ok chan (theta : Params F) (x : tensor F) B h w :
  shape x = [B; chan; 2 * h; 2 * w] -> 1 <= h -> 1 <= w ->
  exists y,
    Conv2d_forward (Conv2d_init chan (2 * chan) 2 2 0 1 true theta) x = Some y
    /\ shape y = [B; 2 * chan; h; w].
Proof.
  intros Ex Hh Hw. apply sim_exists. rewrite sim_Conv2d, Ex.
  apply conv_down_shape; [reflexivity | assumption | assumption].
Qed.

Lemma conv3x3_ok nin nout (theta : Params F) (x : tensor F) B Hh W :
  shape x = [B; nin; Hh; W] -> 1 <= Hh -> 1 <= W ->
  exists y,
    Conv2d_forward (Conv2d_init nin nout 3 1 1 1 true theta) x = Some y
    /\ shape y = [B; nout; Hh; W].
Proof.
  intros Ex HH HW. apply sim_exists. rewrite sim_Conv2d, Ex.
  apply conv3x3_shape; try apply Nat.mod_1_r; try lia.
Qed.

(** One encoder stage: the blocks keep the shape, the strided convolution
    halves height and width and doubles the channels. *)
Lemma encoder_stage_ok chan g num (th1 th2 : Params F) (x : tensor F) B h w :
  shape x = [B; chan; 2 * h; 2 * w] ->
  1 <= chan -> GCE_min_size g <= 2 * h -> GCE_min_size g <= 2 * w ->
  exists e x',
    Sequential CascadedGazeBlock_forward
      (blocks_init (CascadedGazeBlock_init chan g 2 2) num th1) x = Some e
    /\ shape e = [B; chan; 2 * h; 2 * w]
    /\ Conv2d_forward (Conv2d_init chan (2 * chan) 2 2 0 1 true th2) e = Some x'
    /\ shape x' = [B; 2 * chan; h; w].
Proof.
  intros Ex Hc HH HW. pose proof (GCE_min_size_ge g).
  destruct (Sequential_CGB_ok chan g num th1 x B _ _ Ex Hc HH HW) as (e & He & Se).
  destruct (conv_down_ok chan th2 e B h w Se) as (x' & Hx' & Sx'); try lia.
  exists e, x'. repeat split; assumption.
Qed.

(** One decoder stage: 1x1 convolution and pixel shuffle, the skip sum on
    equal shapes, then the decoder blocks. *)
Lemma decoder_stage_ok c' num (th1 th2 : Params F) (x skip : tensor F) B h w :
  shape x = [B; 2 * c'; h; w] -> shape skip = [B; c'; 2 * h; 2 * w] ->
  1 <= c' -> 1 <= h -> 1 <= w ->
  exists u s y,
    Up_forward {| up_conv := Conv2d_init (2 * c') (2 * (2 * c')) 1 1 0 1 false th1;
                  up_shuffle := 2 |} x = Some u
    /\ shape u = shape skip
    /\ tadd u skip = Some s
    /\ shape s = [B; c'; 2 * h; 2 * w]
    /\ (forall idx, in_range idx [B; c'; 2 * h; 2 * w] ->
          get s idx = add (get u idx) (get skip idx))
    /\ Sequential NAFBlock0_forward
         (blocks_init (NAFBlock0_init c' 2 2) num th2) s = Some y
    /\ shape y = [B; c'; 2 * h; 2 * w].
Proof.
  intros Ex Es Hc Hh Hw. unfold Up_forward. cbn [up_conv up_shuffle].
  destruct (sim_exists shape
              (Conv2d_forward (Conv2d_init (2 * c') (2 * (2 * c')) 1 1 0 1 false th1) x)
              [B; 4 * c'; h; w]) as (v & Hv & Sv).
  { rewrite sim_Conv2d, Ex, conv1x1_shape by lia. do 3 f_equal. lia. }
  rewrite Hv. cbn [bind].
  pose proof (CustomPixelShuffle_2_eq v B c' h w Sv) as Hu.
  match type of Hu with _ = Some ?t => set (u := t) in * end.
  assert (Su : shape u = [B; c'; 2 * h; 2 * w]).
  { subst u. cbn [shape]. rewrite (Nat.mul_comm h), (Nat.mul_comm w). reflexivity. }
  clearbody u.
  destruct (binop_same_shape add u skip _ Su Es) as (s & Hs & Ss & Ws & Gs).
  destruct (Sequential_NAF_ok c' num th2 s B _ _ Ss) as (y & Hy & Sy); try lia.
  exists u, s, y. repeat split; try assumption. congruence.
Qed.

(** The encoder half on a padded input whose height and width are
    [16 * a] and [16 * b]. *)
Lemma encoder_stage_io_S (m : CascadedGaze F) (x0 : tensor F) j :
  encoder_stage_io m x0 (S j)
  = bind (bind (encoder_stage_io m x0 j) (fun io =>
            bind (nth_error (downs m) j) (fun down =>
              Conv2d_forward down (snd io))))
      (fun x => bind (nth_error (encoders m) (S j)) (fun encoder =>
         bind (Sequential CascadedGazeBlock_forward encoder x)
           (fun e => Some (x, e)))).
Proof. reflexivity. Qed.

Lemma CascadedGaze_encoder_run img_channel (theta : Params F) (p : tensor F) B a b :
  let m := CascadedGaze_init img_channel theta in
  shape p = [B; img_channel; 2 * (2 * (2 * (2 * a))); 2 * (2 * (2 * (2 * b)))] ->
  4 <= a -> 4 <= b ->
  exists x0 e0 e1 e2 e3 x4,
    Conv2d_forward (intro m) p = Some x0
    /\ encoder_loop (combine (encoders m) (downs m)) x0 [] = Some (x4, [e0; e1; e2; e3])
    /\ encoder_output m x0 0 = Some e0
    /\ encoder_output m x0 1 = Some e1
    /\ encoder_output m x0 2 = Some e2
    /\ encoder_output m x0 3 = Some e3
    /\ shape e0 = [B; 60; 2 * (2 * (2 * (2 * a))); 2 * (2 * (2 * (2 * b)))]
    /\ shape e1 = [B; 120; 2 * (2 * (2 * a)); 2 * (2 * (2 * b))]
    /\ shape e2 = [B; 240; 2 * (2 * a); 2 * (2 * b)]
    /\ shape e3 = [B; 480; 2 * a; 2 * b]
    /\ shape x4 = [B; 960; a; b].
Proof.
  intros m Ep Ha Hb.
  assert (Ei : intro m = Conv2d_init img_channel 60 3 1 1 1 true (sub_params theta 0))
    by reflexivity.
  assert (Ee : encoders m = encoders (CascadedGaze_init img_channel theta))
    by reflexivity.
  assert (Ed : downs m = downs (CascadedGaze_init img_channel theta))
    by reflexivity.
  rewrite CascadedGaze_init_eq in Ee, Ed. cbn [encoders downs] in Ee, Ed.
  clearbody m. rewrite Ei.
  destruct (conv3x3_ok img_channel 60 (sub_params theta 0) p B _ _ Ep)
    as (x0 & Hx0 & Sx0); try lia.
  destruct (encoder_stage_ok 60 3 2 (sub_params (sub_params theta 2) 0)
              (sub_params (sub_params theta 3) 0) x0 B _ _ Sx0)
    as (e0 & x1 & He0 & Se0 & Hx1 & Sx1);
    try (change (GCE_min_size 3) with 32); try lia.
  change (2 * 60) with 120 in Hx1, Sx1.
  destruct (encoder_stage_ok 120 3 2 (sub_params (sub_params theta 2) 1)
              (sub_params (sub_params theta 3) 1) x1 B _ _ Sx1)
    as (e1 & x2 & He1 & Se1 & Hx2 & Sx2);
    try (change (GCE_min_size 3) with 32); try lia.
  change (2 * 120) with 240 in Hx2, Sx2.
  destruct (encoder_stage_ok 240 2 4 (sub_params (sub_params theta 2) 2)
              (sub_params (sub_params theta 3) 2) x2 B _ _ Sx2)
    as (e2 & x3 & He2 & Se2 & Hx3 & Sx3);
    try (change (GCE_min_size 2) with 7); try lia.
  change (2 * 240) with 480 in Hx3, Sx3.
  destruct (encoder_stage_ok 480 2 6 (sub_params (sub_params theta 2) 3)
              (sub_params (sub_params theta 3) 3) x3 B _ _ Sx3)
    as (e3 & x4 & He3 & Se3 & Hx4 & Sx4);
    try (change (GCE_min_size 2) with 7); try lia.
  change (2 * 480) with 960 in Hx4, Sx4.
  exists x0, e0, e1, e2, e3, x4.
  split; [exact Hx0|].
  split.
  { rewrite Ee, Ed. cbn [combine encoder_loop].
    rewrite He0. cbn [bind app]. rewrite Hx1. cbn [bind].
    rewrite He1. cbn [bind app]. rewrite Hx2. cbn [bind].
    rewrite He2. cbn [bind app]. rewrite Hx3. cbn [bind].
    rewrite He3. cbn [bind app]. rewrite Hx4. reflexivity. }
  assert (IO0 : encoder_stage_io m x0 0 = Some (x0, e0)).
  { cbn [encoder_stage_io bind]. rewrite Ee. cbn [nth_error bind].
    rewrite He0. reflexivity. }
  assert (IO1 : encoder_stage_io m x0 1 = Some (x1, e1)).
  { rewrite encoder_stage_io_S, IO0, Ee, Ed. cbn [bind nth_error snd].
    rewrite Hx1. cbn [bind]. rewrite He1. reflexivity. }
  assert (IO2 : encoder_stage_io m x0 2 = Some (x2, e2)).
  { rewrite encoder_stage_io_S, IO1, Ee, Ed. cbn [bind nth_error snd].
    rewrite Hx2. cbn [bind]. rewrite He2. reflexivity. }
  assert (IO3 : encoder_stage_io m x0 3 = Some (x3, e3)).
  { rewrite encoder_stage_io_S, IO2, Ee, Ed. cbn [bind nth_error snd].
    rewrite Hx3. cbn [bind]. rewrite He3. reflexivity. }
  unfold encoder_output. rewrite IO0, IO1, IO2, IO3.
  repeat split; assumption.
Qed.

Lemma decoder_stages_S (m : CascadedGaze F) (x0 : tensor F) k x :
  decoder_stages m x0 (S k) x
  = bind (decoder_stages m x0 k x) (decoder_stage m x0 k).
Proof. reflexivity. Qed.

(** The decoder half, given the encoder outputs. *)
Lemma CascadedGaze_decoder_run img_channel (theta : Params F)
  (x0 e0 e1 e2 e3 xm : tensor F) B a b :
  let m := CascadedGaze_init img_channel theta in
  encoder_output m x0 0 = Some e0 ->
  encoder_output m x0 1 = Some e1 ->
  encoder_output m x0 2 = Some e2 ->
  encoder_output m x0 3 = Some e3 ->
  shape e0 = [B; 60; 2 * (2 * (2 * (2 * a))); 2 * (2 * (2 * (2 * b)))] ->
  shape e1 = [B; 120; 2 * (2 * (2 * a)); 2 * (2 * (2 * b))] ->
  shape e2 = [B; 240; 2 * (2 * a); 2 * (2 * b)] ->
  shape e3 = [B; 480; 2 * a; 2 * b] ->
  shape xm = [B; 960; a; b] ->
  1 <= a -> 1 <= b ->
  exists y,
    decoder_loop (combine (combine (decoders m) (ups m)) (rev [e0; e1; e2; e3])) xm
    = Some y
    /\ decoder_stages m x0 4 xm = Some y
    /\ shape y = [B; 60; 2 * (2 * (2 * (2 * a))); 2 * (2 * (2 * (2 * b)))]
    /\ skip_sum_at m x0 xm 0 /\ skip_sum_at m x0 xm 1
    /\ skip_sum_at m x0 xm 2 /\ skip_sum_at m x0 xm 3.
Proof.
  intros m O0 O1 O2 O3 S0 S1 S2 S3 Sm Ha Hb.
  assert (Ee : length (encoders m) = 4) by reflexivity.
  assert (Eu : ups m = ups (CascadedGaze_init img_channel theta)) by reflexivity.
  assert (Ed : decoders m = decoders (CascadedGaze_init img_channel theta))
    by reflexivity.
  rewrite CascadedGaze_init_eq in Eu, Ed. cbn [ups decoders] in Eu, Ed.
  clearbody m.
  destruct (decoder_stage_ok 480 2 (sub_params (sub_params theta 5) 0)
              (sub_params (sub_params theta 6) 0) xm e3 B a b Sm S3)
    as (u0 & s0 & y0 & Hu0 & Su0 & Hs0 & Ss0 & Gs0 & Hy0 & Sy0); try lia.
  change (2 * 480) with 960 in Hu0. change (2 * 960) with 1920 in Hu0.
  change [B; 480; 2 * a; 2 * b] with [B; 2 * 240; 2 * a; 2 * b] in Sy0.
  destruct (decoder_stage_ok 240 2 (sub_params (sub_params theta 5) 1)
              (sub_params (sub_params theta 6) 1) y0 e2 B _ _ Sy0 S2)
    as (u1 & s1 & y1 & Hu1 & Su1 & Hs1 & Ss1 & Gs1 & Hy1 & Sy1); try lia.
  change (2 * 240) with 480 in Hu1. change (2 * 480) with 960 in Hu1.
  change [B; 240; 2 * (2 * a); 2 * (2 * b)]
    with [B; 2 * 120; 2 * (2 * a); 2 * (2 * b)] in Sy1.
  destruct (decoder_stage_ok 120 2 (sub_params (sub_params theta 5) 2)
              (sub_params (sub_params theta 6) 2) y1 e1 B _ _ Sy1 S1)
    as (u2 & s2 & y2 & Hu2 & Su2 & Hs2 & Ss2 & Gs2 & Hy2 & Sy2); try lia.
  change (2 * 120) with 240 in Hu2. change (2 * 240) with 480 in Hu2.
  change [B; 120; 2 * (2 * (2 * a)); 2 * (2 * (2 * b))]
    with [B; 2 * 60; 2 * (2 * (2 * a)); 2 * (2 * (2 * b))] in Sy2.
  destruct (decoder_stage_ok 60 2 (sub_params (sub_params theta 5) 3)
              (sub_params (sub_params theta 6) 3) y2 e0 B _ _ Sy2 S0)
    as (u3 & s3 & y3 & Hu3 & Su3 & Hs3 & Ss3 & Gs3 & Hy3 & Sy3); try lia.
  change (2 * 60) with 120 in Hu3. change (2 * 120) with 240 in Hu3.
  assert (D1 : decoder_stages m x0 1 xm = Some y0).
  { rewrite decoder_stages_S. cbn [decoder_stages bind]. unfold decoder_stage.
    rewrite Eu, Ed, Ee. cbn [nth_error bind Nat.sub]. rewrite O3. cbn [bind].
    rewrite Hu0. cbn [bind]. rewrite Hs0. cbn [bind]. exact Hy0. }
  assert (D2 : decoder_stages m x0 2 xm = Some y1).
  { rewrite decoder_stages_S, D1. cbn [bind]. unfold decoder_stage.
    rewrite Eu, Ed, Ee. cbn [nth_error bind Nat.sub]. rewrite O2. cbn [bind].
    rewrite Hu1. cbn [bind]. rewrite Hs1. cbn [bind]. exact Hy1. }
  assert (D3 : decoder_stages m x0 3 xm = Some y2).
  { rewrite decoder_stages_S, D2. cbn [bind]. unfold decoder_stage.
    rewrite Eu, Ed, Ee. cbn [nth_error bind Nat.sub]. rewrite O1. cbn [bind].
    rewrite Hu2. cbn [bind]. rewrite Hs2. cbn [bind]. exact Hy2. }
  assert (D4 : decoder_stages m x0 4 xm = Some y3).
  { rewrite decoder_stages_S, D3. cbn [bind]. unfold decoder_stage.
    rewrite Eu, Ed, Ee. cbn [nth_error bind Nat.sub]. rewrite O0. cbn [bind].
    rewrite Hu3. cbn [bind]. rewrite Hs3. cbn [bind]. exact Hy3. }
  exists y3. split.
  { rewrite Eu, Ed. cbn [rev app combine decoder_loop].
    rewrite Hu0. cbn [bind]. rewrite Hs0. cbn [bind]. rewrite Hy0. cbn [bind].
    rewrite Hu1. cbn [bind]. rewrite Hs1. cbn [bind]. rewrite Hy1. cbn [bind].
    rewrite Hu2. cbn [bind]. rewrite Hs2. cbn [bind]. rewrite Hy2. cbn [bind].
    rewrite Hu3. cbn [bind]. rewrite Hs3. cbn [bind]. rewrite Hy3. reflexivity. }
  split; [exact D4|]. split; [exact Sy3|].
  unfold skip_sum_at. rewrite Ee, Eu. cbn [Nat.sub nth_error].
  split; [|split; [|split]].
  - exists xm. eexists. exists u0, e3, s0. rewrite S3.
    repeat split; try reflexivity; try assumption. congruence.
  - exists y0. eexists. exists u1, e2, s1. rewrite S2.
    repeat split; try reflexivity; try assumption. congruence.
  - exists y1. eexists. exists u2, e1, s2. rewrite S1.
    repeat split; try reflexivity; try assumption. congruence.
  - exists y2. eexists. exists u3, e0, s3. rewrite S0.
    repeat split; try reflexivity; try assumption. congruence.
Qed.

Lemma pad_to_16 n :
  49 <= n ->
  exists a, 4 <= a /\ n + (16 - n mod 16) mod 16 = 2 * (2 * (2 * (2 * a))).
Proof.
  intros Hn. destruct (pad_amount_minimal n) as [Hm _].
  pose proof (Nat.div_mod_eq (n + (16 - n mod 16) mod 16) 16) as Hd.
  rewrite Hm in Hd.
  exists ((n + (16 - n mod 16) mod 16) / 16). split; lia.
Qed.

(** Everything between padding and cropping, on a padded input. *)
Lemma CascadedGaze_run img_channel (theta : Params F) (p : tensor F) B a b :
  let m := CascadedGaze_init img_channel theta in
  shape p = [B; img_channel; 2 * (2 * (2 * (2 * a))); 2 * (2 * (2 * (2 * b)))] ->
  4 <= a -> 4 <= b ->
  exists x0 e0 e1 e2 e3 x4 xm yd out,
    Conv2d_forward (intro m) p = Some x0
    /\ encoder_loop (combine (encoders m) (downs m)) x0 [] = Some (x4, [e0; e1; e2; e3])
    /\ (encoder_output m x0 0 = Some e0 /\ encoder_output m x0 1 = Some e1
        /\ encoder_output m x0 2 = Some e2 /\ encoder_output m x0 3 = Some e3)
    /\ Sequential NAFBlock0_forward (middle_blks m) x4 = Some xm
    /\ decoder_loop (combine (combine (decoders m) (ups m)) (rev [e0; e1; e2; e3])) xm
       = Some yd
    /\ decoder_stages m x0 4 xm = Some yd
    /\ (skip_sum_at m x0 xm 0 /\ skip_sum_at m x0 xm 1
        /\ skip_sum_at m x0 xm 2 /\ skip_sum_at m x0 xm 3)
    /\ CascadedGaze_body m p = Some out
    /\ shape out = shape p.
Proof.
  intros m Ep Ha Hb.
  destruct (CascadedGaze_encoder_run img_channel theta p B a b Ep Ha Hb)
    as (x0 & e0 & e1 & e2 & e3 & x4 & Hx0 & Henc & O0 & O1 & O2 & O3
        & S0 & S1 & S2 & S3 & S4).
  fold m in Hx0, Henc, O0, O1, O2, O3.
  destruct (Sequential_NAF_ok 960 10 (sub_params theta 4) x4 B a b S4)
    as (xm & Hxm & Sxm); try lia.
  change (blocks_init (NAFBlock0_init 960 2 2) 10 (sub_params theta 4))
    with (middle_blks m) in Hxm.
  destruct (CascadedGaze_decoder_run img_channel theta x0 e0 e1 e2 e3 xm B a b
              O0 O1 O2 O3 S0 S1 S2 S3 Sxm)
    as (yd & Hyd & Dyd & Syd & K0 & K1 & K2 & K3); try lia.
  fold m in Hyd, Dyd, K0, K1, K2, K3.
  destruct (conv3x3_ok 60 img_channel (sub_params theta 1) yd B _ _ Syd)
    as (z & Hz & Sz); try lia.
  change (Conv2d_init 60 img_channel 3 1 1 1 true (sub_params theta 1))
    with (ending m) in Hz.
  destruct (binop_same_shape add z p _ Sz Ep) as (out & Hout & Sout & _ & _).
  exists x0, e0, e1, e2, e3, x4, xm, yd, out.
  repeat split; try assumption; [|congruence].
  unfold CascadedGaze_body. rewrite Hx0. cbn [bind]. rewrite Henc. cbn [bind fst snd].
  rewrite Hxm. cbn [bind]. rewrite Hyd. cbn [bind]. rewrite Hz. cbn [bind].
  exact Hout.
Qed.

Lemma check_image_size_run img_channel (theta : Params F) (inp : tensor F) B Hh W :
  shape inp = [B; img_channel; Hh; W] ->
  exists p,
    check_image_size (CascadedGaze_init img_channel theta) inp = Some p
    /\ shape p = [B; img_channel; Hh + (16 - Hh mod 16) mod 16;
                  W + (16 - W mod 16) mod 16].
Proof.
  intros E.
  rewrite (check_image_size_16 _ inp B img_channel Hh W (padder_size_init _ _) E).
  destruct (pad_constant_bottom_right inp B img_channel Hh W
              ((16 - W mod 16) mod 16) ((16 - Hh mod 16) mod 16) E)
    as (p & Hp & Sp & _).
  exists p. split; assumption.
Qed.

(** C1 (amended): on an input of shape (B, C, H, W) with C the network's
    channel count and H, W at least 49, [forward] pads height and width to
    the next multiple of 16, runs the encoder-middle-decoder pipeline on the
    padded tensor and crops, returning a tensor of shape (B, C, H, W). *)
Theorem CascadedGaze_forward_restores_shape
  img_channel (theta : Params F) (inp : tensor F) B Hh W :
  shape inp = [B; img_channel; Hh; W] ->
  1 <= img_channel -> 49 <= Hh -> 49 <= W ->
  let m := CascadedGaze_init img_channel theta in
  padder_size m = 2 ^ length (encoders m) /\ padder_size m = 16
  /\ exists padded y out,
       check_image_size m inp = Some padded
       /\ shape padded = [B; img_channel; Hh + (16 - Hh mod 16) mod 16;
                          W + (16 - W mod 16) mod 16]
       /\ (Hh + (16 - Hh mod 16) mod 16) mod 16 = 0
       /\ (16 - Hh mod 16) mod 16 < 16
       /\ (W + (16 - W mod 16) mod 16) mod 16 = 0
       /\ (16 - W mod 16) mod 16 < 16
       /\ CascadedGaze_body m padded = Some y
       /\ crop y Hh W = Some out
       /\ CascadedGaze_forward m inp = Some out
       /\ shape out = [B; img_channel; Hh; W].
Proof.
  intros E Hc HH HW m.
  split; [reflexivity|]. split; [reflexivity|].
  destruct (check_image_size_run img_channel theta inp B Hh W E) as (p & Hp & Sp).
  fold m in Hp.
  destruct (pad_to_16 Hh HH) as (a & Ha & Ea).
  destruct (pad_to_16 W HW) as (b & Hb & Eb).
  assert (Sp' : shape p = [B; img_channel; 2 * (2 * (2 * (2 * a)));
                           2 * (2 * (2 * (2 * b)))]) by congruence.
  destruct (CascadedGaze_run img_channel theta p B a b Sp' Ha Hb)
    as (x0 & e0 & e1 & e2 & e3 & x4 & xm & yd & y & _ & _ & _ & _ & _ & _ & _
        & Hy & Sy).
  fold m in Hy.
  destruct (sim_exists shape (crop y Hh W) [B; img_channel; Hh; W])
    as (out & Hout & Sout).
  { rewrite sim_crop, Sy, Sp. cbn [crop_shape].
    rewrite !Nat.min_l by lia. reflexivity. }
  exists p, y, out.
  destruct (pad_amount_minimal Hh) as [? ?]. destruct (pad_amount_minimal W) as [? ?].
  repeat split; try assumption.
  unfold CascadedGaze_forward. rewrite E, Hp. cbn [bind]. rewrite Hy. exact Hout.
Qed.

(** C8: in [forward] the saved encoder outputs are consumed in reverse
    order.  With [n = 4] encoder stages, [encs[k]] is the output of encoder
    stage [k]; what [forward] returns is the crop of [ending(yd) + padded],
    where [yd] is the result of the decoder stages run in order, stage [i]
    upsampling, adding the output of encoder stage [n-1-i] and then running
    its decoder blocks; each of these sums adds two tensors of the same
    shape entry by entry. *)
Theorem skip_connections_pair_matching_stages
  img_channel (theta : Params F) (inp : tensor F) B Hh W :
  shape inp = [B; img_channel; Hh; W] ->
  1 <= img_channel -> 49 <= Hh -> 49 <= W ->
  let m := CascadedGaze_init img_channel theta in
  let n := length (encoders m) in
  n = 4 /\ length (decoders m) = n /\ length (ups m) = n
  /\ exists padded x0 x4 encs xm yd z y out,
       check_image_size m inp = Some padded
       /\ Conv2d_forward (intro m) padded = Some x0
       /\ encoder_loop (combine (encoders m) (downs m)) x0 [] = Some (x4, encs)
       /\ length encs = n
       /\ (forall k, k < n -> nth_error encs k = encoder_output m x0 k)
       /\ Sequential NAFBlock0_forward (middle_blks m) x4 = Some xm
       /\ decoder_stages m x0 n xm = Some yd
       /\ (forall i, i < n -> skip_sum_at m x0 xm i)
       /\ Conv2d_forward (ending m) yd = Some z
       /\ tadd z padded = Some y
       /\ CascadedGaze_body m padded = Some y
       /\ crop y Hh W = Some out
       /\ CascadedGaze_forward m inp = Some out.
Proof.
  intros E Hc HH HW m n.
  split; [reflexivity|]. split; [reflexivity|]. split; [reflexivity|].
  destruct (check_image_size_run img_channel theta inp B Hh W E) as (p & Hp & Sp).
  fold m in Hp.
  destruct (pad_to_16 Hh HH) as (a & Ha & Ea).
  destruct (pad_to_16 W HW) as (b & Hb & Eb).
  assert (Sp' : shape p = [B; img_channel; 2 * (2 * (2 * (2 * a)));
                           2 * (2 * (2 * (2 * b)))]) by congruence.
  destruct (CascadedGaze_encoder_run img_channel theta p B a b Sp' Ha Hb)
    as (x0 & e0 & e1 & e2 & e3 & x4 & Hx0 & Henc & O0 & O1 & O2 & O3
        & S0 & S1 & S2 & S3 & S4).
  fold m in Hx0, Henc, O0, O1, O2, O3.
  destruct (Sequential_NAF_ok 960 10 (sub_params theta 4) x4 B a b S4)
    as (xm & Hxm & Sxm); try lia.
  change (blocks_init (NAFBlock0_init 960 2 2) 10 (sub_params theta 4))
    with (middle_blks m) in Hxm.
  destruct (CascadedGaze_decoder_run img_channel theta x0 e0 e1 e2 e3 xm B a b
              O0 O1 O2 O3 S0 S1 S2 S3 Sxm)
    as (yd & Hyd & Dyd & Syd & K0 & K1 & K2 & K3); try lia.
  fold m in Hyd, Dyd, K0, K1, K2, K3.
  destruct (conv3x3_ok 60 img_channel (sub_params theta 1) yd B _ _ Syd)
    as (z & Hz & Sz); try lia.
  change (Conv2d_init 60 img_channel 3 1 1 1 true (sub_params theta 1))
    with (ending m) in Hz.
  destruct (binop_same_shape add z p _ Sz Sp') as (y & Hy & Sy & _ & _).
  assert (Hbody : CascadedGaze_body m p = Some y).
  { unfold CascadedGaze_body. rewrite Hx0. cbn [bind]. rewrite Henc.
    cbn [bind fst snd]. rewrite Hxm. cbn [bind]. rewrite Hyd. cbn [bind].
    rewrite Hz. cbn [bind]. exact Hy. }
  destruct (sim_exists shape (crop y Hh W) [B; img_channel; Hh; W])
    as (out & Hout & _).
  { rewrite sim_crop, Sy. cbn [crop_shape].
    rewrite !Nat.min_l by lia. reflexivity. }
  exists p, x0, x4, [e0; e1; e2; e3], xm, yd, z, y, out.
  split; [exact Hp|]. split; [exact Hx0|]. split; [exact Henc|].
  split; [reflexivity|].
  change n with 4.
  split.
  { intros k Hk.
    destruct k as [|[|[|[|k]]]]; cbn [nth_error]; try (symmetry; assumption). lia. }
  split; [exact Hxm|].
  split; [exact Dyd|].
  split.
  { intros i Hi.
    destruct i as [|[|[|[|i]]]]; try assumption. lia. }
  split; [exact Hz|]. split; [exact Hy|]. split; [exact Hbody|].
  split; [exact Hout|].
  unfold CascadedGaze_forward. rewrite E, Hp. cbn [bind]. rewrite Hbody.
  exact Hout.
Qed.

Lemma get_full s (v : F) idx : in_range idx s -> get (full s v) idx = v.
Proof.
  intros Hr. unfold get, full; simpl.
  apply nth_repeat_lt. apply ravel_lt. assumption.
Qed.

(** ** LayerNormFunction.backward *)

Lemma sum_upto_S n (f : nat -> F) :
  sum_upto (S n) f = add (sum_upto n f) (f n).
Proof.
  unfold sum_upto, sum_list.
  rewrite seq_S, map_app, fold_left_app. reflexivity.
Qed.

Lemma sum_upto_0 (f : nat -> F) : sum_upto 0 f = zero.
Proof. reflexivity. Qed.

Lemma get_tset (t : tensor F) idx v idx' :
  in_range idx' (shape t) ->
  get (tset t idx v) idx'
  = if list_eq_dec Nat.eq_dec idx' idx then v else get t idx'.
Proof. intros Hr. unfold tset. rewrite get_build by assumption. reflexivity. Qed.

Lemma sum_dim3_4 (t : tensor F) N C Hh W :
  shape t = [N; C; Hh; W] ->
  exists y,
    sum_dim 3 t = Some y /\ shape y = [N; C; Hh]
    /\ forall n c h, n < N -> c < C -> h < Hh ->
         get y [n; c; h] = sum_upto W (fun w => get t [n; c; h; w]).
Proof.
  intros E. unfold sum_dim. rewrite E. cbn [length Nat.ltb Nat.leb guard bind].
  eexists. split; [reflexivity|]. split; [reflexivity|].
  intros n c h Hn Hc Hh'. cbn [firstn skipn app nth].
  rewrite get_build by (in_range_tac; assumption). reflexivity.
Qed.

Lemma sum_dim2_3 (t : tensor F) N C Hh :
  shape t = [N; C; Hh] ->
  exists y,
    sum_dim 2 t = Some y /\ shape y = [N; C]
    /\ forall n c, n < N -> c < C ->
         get y [n; c] = sum_upto Hh (fun h => get t [n; c; h]).
Proof.
  intros E. unfold sum_dim. rewrite E. cbn [length Nat.ltb Nat.leb guard bind].
  eexists. split; [reflexivity|]. split; [reflexivity|].
  intros n c Hn Hc. cbn [firstn skipn app nth].
  rewrite get_build by (in_range_tac; assumption). reflexivity.
Qed.

Lemma sum_dim0_2 (t : tensor F) N C :
  shape t = [N; C] ->
  exists y,
    sum_dim 0 t = Some y /\ shape y = [C]
    /\ forall c, c < C -> get y [c] = sum_upto N (fun n => get t [n; c]).
Proof.
  intros E. unfold sum_dim. rewrite E. cbn [length Nat.ltb Nat.leb guard bind].
  eexists. split; [reflexivity|]. split; [reflexivity|].
  intros c Hc. cbn [firstn skipn app nth].
  rewrite get_build by (in_range_tac; assumption). reflexivity.
Qed.

(** [sum(dim=3).sum(dim=2).sum(dim=0)] of a 4-D tensor. *)
Lemma sum_dims_302 (t : tensor F) N C Hh W :
  shape t = [N; C; Hh; W] ->
  exists y3 y2 y,
    sum_dim 3 t = Some y3 /\ sum_dim 2 y3 = Some y2 /\ sum_dim 0 y2 = Some y
    /\ shape y = [C]
    /\ forall c, c < C ->
         get y [c] = sum_upto N (fun n => sum_upto Hh (fun h =>
                       sum_upto W (fun w => get t [n; c; h; w]))).
Proof.
  intros E.
  destruct (sum_dim3_4 t N C Hh W E) as (y3 & H3 & S3 & G3).
  destruct (sum_dim2_3 y3 N C Hh S3) as (y2 & H2 & S2 & G2).
  destruct (sum_dim0_2 y2 N C S2) as (y & H0 & S0 & G0).
  exists y3, y2, y. repeat split; try assumption.
  intros c Hc. rewrite G0 by assumption.
  apply sum_upto_ext. intros n Hn. rewrite G2 by assumption.
  apply sum_upto_ext. intros h Hh'. apply G3; assumption.
Qed.

(** What [backward] returns, entry by entry, in terms of the saved state. *)
Lemma LayerNormFunction_backward_char (ctx : LayerNorm_ctx F) (go : tensor F)
  N C Hh W :
  shape (saved_y ctx) = [N; C; Hh; W] ->
  shape (saved_var ctx) = [N; 1; Hh; W] -> wf (saved_var ctx) ->
  shape (saved_weight ctx) = [C] ->
  shape go = [N; C; Hh; W] ->
  exists gx gw gb,
    LayerNormFunction_backward ctx go = Some (gx, gw, gb)
    /\ shape gx = [N; C; Hh; W] /\ shape gw = [C] /\ shape gb = [C]
    /\ (forall n j h w, n < N -> j < C -> h < Hh -> w < W ->
          let y := fun c => get (saved_y ctx) [n; c; h; w] in
          let g := fun c => mul (get go [n; c; h; w]) (get (saved_weight ctx) [c]) in
          get gx [n; j; h; w]
          = mul (div (of_nat 1)
                   (sqrt (add (get (saved_var ctx) [n; 0; h; w]) (ctx_eps ctx))))
                (sub (sub (g j)
                        (mul (y j) (channel_mean C (fun c => mul (g c) (y c)))))
                     (channel_mean C g)))
    /\ (forall c, c < C ->
          get gw [c] = sum_upto N (fun n => sum_upto Hh (fun h => sum_upto W (fun w =>
                         mul (get go [n; c; h; w]) (get (saved_y ctx) [n; c; h; w])))))
    /\ (forall c, c < C ->
          get gb [c] = sum_upto N (fun n => sum_upto Hh (fun h => sum_upto W (fun w =>
                         get go [n; c; h; w])))).
Proof.
  intros Sy Sv Wv Sw Sg. unfold LayerNormFunction_backward. rewrite Sg.
  rewrite (reshape_vec (saved_weight ctx) C Sw). cbn [bind].
  destruct (binop_chan_r mul go (mkT [1; C; 1; 1] (data (saved_weight ctx)))
              N C Hh W Sg eq_refl) as (g & Hg & Sgg & Wg & Gg).
  unfold tmul at 1. rewrite Hg. cbn [bind].
  destruct (mean_keepdim1_4 g N C Hh W Sgg) as (mg & Hmg & Smg & Wmg & Gmg).
  rewrite Hmg. cbn [bind].
  destruct (binop_same_shape mul g (saved_y ctx) _ Sgg Sy)
    as (gy & Hgy & Sgy & Wgy & Ggy).
  unfold tmul at 1. rewrite Hgy. cbn [bind].
  destruct (mean_keepdim1_4 gy N C Hh W Sgy) as (mgy & Hmgy & Smgy & Wmgy & Gmgy).
  rewrite Hmgy. cbn [bind].
  destruct (binop_keep_r mul (saved_y ctx) mgy N C Hh W Sy Smgy)
    as (ymg & Hymg & Symg & Wymg & Gymg).
  unfold tmul at 1. rewrite Hymg. cbn [bind].
  destruct (binop_same_shape sub g ymg _ Sgg Symg) as (t1 & Ht1 & St1 & Wt1 & Gt1).
  unfold tsub at 1. rewrite Ht1. cbn [bind].
  destruct (binop_keep_r sub t1 mg N C Hh W St1 Smg) as (t2 & Ht2 & St2 & Wt2 & Gt2).
  unfold tsub at 1. rewrite Ht2. cbn [bind].
  set (r := tmap (fun v => div (of_nat 1) v)
              (tmap sqrt (tmap (fun v => add v (ctx_eps ctx)) (saved_var ctx)))).
  assert (Sr : shape r = [N; 1; Hh; W]) by exact Sv.
  destruct (binop_keep_l mul r t2 N C Hh W Sr St2) as (gx & Hgx & Sgx & Wgx & Ggx).
  unfold tmul at 1. rewrite Hgx. cbn [bind].
  destruct (binop_same_shape mul go (saved_y ctx) _ Sg Sy)
    as (goy & Hgoy & Sgoy & Wgoy & Ggoy).
  unfold tmul at 1. rewrite Hgoy. cbn [bind].
  destruct (sum_dims_302 goy N C Hh W Sgoy)
    as (w3 & w2 & gw & Hw3 & Hw2 & Hgw & Sgw & Ggw).
  rewrite Hw3. cbn [bind]. rewrite Hw2. cbn [bind]. rewrite Hgw. cbn [bind].
  destruct (sum_dims_302 go N C Hh W Sg)
    as (b3 & b2 & gb & Hb3 & Hb2 & Hgb & Sgb & Ggb).
  rewrite Hb3. cbn [bind]. rewrite Hb2. cbn [bind]. rewrite Hgb. cbn [bind].
  exists gx, gw, gb. split; [reflexivity|].
  split; [exact Sgx|]. split; [exact Sgw|]. split; [exact Sgb|].
  split; [|split].
  - intros n j h w Hn Hj Hh' Hw. cbv zeta.
    assert (Eg : forall c, c < C ->
              get g [n; c; h; w]
              = mul (get go [n; c; h; w]) (get (saved_weight ctx) [c])).
    { intros c Hc. rewrite Gg by assumption.
      rewrite (get_vec_view (saved_weight ctx) C c Sw). reflexivity. }
    rewrite Ggx, Gt2, Gt1, Gymg, Gmgy, Gmg
      by (try assumption; apply in_range4; assumption).
    subst r.
    assert (Hr : in_range [n; 0; h; w] (shape (saved_var ctx)))
      by (rewrite Sv; apply in_range4; lia).
    rewrite get_tmap by (try (apply wf_tmap, wf_tmap); assumption).
    rewrite get_tmap by (try apply wf_tmap; assumption).
    rewrite get_tmap by assumption.
    rewrite (Eg j Hj).
    rewrite (channel_mean_ext C (fun c => get gy [n; c; h; w])
               (fun c => mul (mul (get go [n; c; h; w]) (get (saved_weight ctx) [c]))
                             (get (saved_y ctx) [n; c; h; w]))).
    2:{ intros c Hc. rewrite Ggy by (apply in_range4; assumption).
        rewrite (Eg c Hc). reflexivity. }
    rewrite (channel_mean_ext C (fun c => get g [n; c; h; w])
               (fun c => mul (get go [n; c; h; w]) (get (saved_weight ctx) [c])) Eg).
    reflexivity.
  - intros c Hc. rewrite Ggw by assumption.
    apply sum_upto_ext. intros n Hn. apply sum_upto_ext. intros h Hh'.
    apply sum_upto_ext. intros w Hw. apply Ggoy. apply in_range4; assumption.
  - intros c Hc. apply Ggb. assumption.
Qed.

(** ** Further properties of the layers *)

(** *** CustomPixelShuffle: channel counts that do not divide *)

Lemma reshape_fails (t : tensor F) s :
  numel (shape t) <> numel s -> reshape t s = None.
Proof.
  intros E. unfold reshape. destruct (Nat.eqb_spec (numel (shape t)) (numel s));
    [contradiction | reflexivity].
Qed.

(** X1: on a non-empty input whose channel count is not a multiple of 4,
    [CustomPixelShuffle(2)] raises: the first [reshape] has no valid size. *)
Theorem CustomPixelShuffle_raises_on_indivisible_channels (x : tensor F) b c h w :
  shape x = [b; c; h; w] ->
  c mod 4 <> 0 -> 1 <= b -> 1 <= h -> 1 <= w ->
  CustomPixelShuffle_forward 2 x = None.
Proof.
  intros E Hc Hb Hh Hw. unfold CustomPixelShuffle_forward. rewrite E.
  change (2 ^ 2) with 4. cbn [negb Nat.eqb guard bind].
  rewrite reshape_fails; [reflexivity|].
  rewrite E. cbn [numel fold_right].
  pose proof (Nat.div_mod_eq c 4) as Hd.
  intros En.
  assert (E1 : b * (h * w) * c = b * (h * w) * (4 * (c / 4))) by lia.
  apply Nat.mul_cancel_l in E1; [lia|].
  apply Nat.neq_mul_0. split; [lia|]. apply Nat.neq_mul_0. lia.
Qed.

(** *** SimpleGate: odd channel counts *)

Lemma chunk_dim1_shape_odd B k Hh W :
  1 <= k ->
  chunk_dim1_shape 2 [B; 2 * k + 1; Hh; W]
  = Some [[B; k + 1; Hh; W]; [B; k; Hh; W]].
Proof.
  intros Hk. unfold chunk_dim1_shape. cbn [Nat.ltb Nat.leb guard bind].
  assert (E1 : (2 * k + 1 + 2 - 1) / 2 = k + 1).
  { symmetry. apply Nat.div_unique with 0; lia. }
  rewrite E1.
  destruct (Nat.eqb_spec (k + 1) 0) as [E0|_]; [lia|].
  assert (E2 : (2 * k + 1 + (k + 1) - 1) / (k + 1) = 2).
  { symmetry. apply Nat.div_unique with (k - 1); lia. }
  rewrite E2. cbn [seq map narrow1_shape].
  assert (M1 : Nat.min (k + 1) (2 * k + 1 - 0 * (k + 1)) = k + 1) by lia.
  assert (M2 : Nat.min (k + 1) (2 * k + 1 - 1 * (k + 1)) = k) by lia.
  rewrite M1, M2. reflexivity.
Qed.

Lemma chunk_dim1_shape_one B Hh W :
  chunk_dim1_shape 2 [B; 1; Hh; W] = Some [[B; 1; Hh; W]].
Proof. reflexivity. Qed.

Lemma broadcast_shape_mismatch B a b Hh W :
  a <> b -> a <> 1 -> b <> 1 ->
  broadcast_shape [B; a; Hh; W] [B; b; Hh; W] = None.
Proof.
  intros Hab Ha Hb. unfold broadcast_shape.
  cbn [rev app broadcast_rev bind].
  rewrite (broadcast_step B B [] (bcompat_refl B)). cbn [bind].
  destruct (Nat.eqb_spec a b); [contradiction|].
  destruct (Nat.eqb_spec a 1); [contradiction|].
  destruct (Nat.eqb_spec b 1); [contradiction|].
  reflexivity.
Qed.

(** X2: [SimpleGate] raises on one channel (there is no second chunk to
    unpack) and on an odd channel count of 5 or more (the two chunks have
    [k+1] and [k] channels and do not broadcast). *)
Theorem SimpleGate_raises_on_odd_channels (x : tensor F) B k Hh W :
  shape x = [B; 2 * k + 1; Hh; W] ->
  k <> 1 ->
  SimpleGate_forward x = None.
Proof.
  intros E Hk. apply (option_map_None shape).
  rewrite sim_SimpleGate, E. unfold SimpleGate_shape.
  destruct k as [|k'].
  - reflexivity.
  - rewrite chunk_dim1_shape_odd by lia. cbn [bind].
    apply broadcast_shape_mismatch; lia.
Qed.

Lemma chunk_dim1_three (x : tensor F) B Hh W :
  shape x = [B; 3; Hh; W] ->
  chunk_dim1 2 x = Some [narrow1 x 0 2; narrow1 x 2 1].
Proof. intros E. unfold chunk_dim1. rewrite E. reflexivity. Qed.

(** X3: on exactly three channels [SimpleGate] does not raise: the chunks
    have two channels and one, and the product broadcasts the third channel
    over the first two. *)
Theorem SimpleGate_broadcasts_on_three_channels (x : tensor F) B Hh W :
  shape x = [B; 3; Hh; W] ->
  exists y,
    SimpleGate_forward x = Some y
    /\ shape y = [B; 2; Hh; W]
    /\ forall b c h w, b < B -> c < 2 -> h < Hh -> w < W ->
         get y [b; c; h; w] = mul (get x [b; c; h; w]) (get x [b; 2; h; w]).
Proof.
  intros E. unfold SimpleGate_forward.
  rewrite (chunk_dim1_three x B Hh W E). cbn [bind].
  assert (S1 : shape (narrow1 x 0 2) = [B; 2; Hh; W])
    by (rewrite shape_narrow1, E; reflexivity).
  assert (S2 : shape (narrow1 x 2 1) = [B; 1; Hh; W])
    by (rewrite shape_narrow1, E; reflexivity).
  destruct (binop_keep_r mul _ _ B 2 Hh W S1 S2) as (y & Hy & Sy & _ & Gy).
  exists y. split; [exact Hy|]. split; [exact Sy|].
  intros b c h w Hb Hc Hh' Hw. rewrite Gy by assumption.
  rewrite (get_narrow1 x B 3 Hh W 0 2), (get_narrow1 x B 3 Hh W 2 1)
    by (assumption || lia).
  reflexivity.
Qed.

(** *** LayerNormFunction.forward: when it returns *)

Lemma LayerNormFunction_shape_iff sx sw sb s :
  LayerNormFunction_shape sx sw sb = Some s
  <-> exists N C Hh W,
        sx = [N; C; Hh; W] /\ numel sw = C /\ numel sb = C /\ s = sx.
Proof.
  unfold LayerNormFunction_shape. split.
  - destruct sx as [|N [|C [|Hh [|W [|]]]]]; try discriminate.
    unfold mean_keepdim_shape.
    cbn [length Nat.ltb Nat.leb guard bind firstn skipn app].
    repeat (rewrite broadcast_keep_r;
            cbn [bind Nat.ltb Nat.leb length guard firstn skipn app]).
    unfold reshape_shape.
    destruct (Nat.eqb_spec (numel sw) (numel [1; C; 1; 1])) as [Ew|];
      [|discriminate].
    cbn [bind]. rewrite broadcast_chan_l. cbn [bind].
    destruct (Nat.eqb_spec (numel sb) (numel [1; C; 1; 1])) as [Eb|];
      [|discriminate].
    cbn [bind]. rewrite broadcast_chan_r. intros Es.
    exists N, C, Hh, W. cbn [numel fold_right] in Ew, Eb.
    repeat split; try lia. congruence.
  - intros (N & C & Hh & W & -> & Ew & Eb & ->).
    unfold mean_keepdim_shape.
    cbn [length Nat.ltb Nat.leb guard bind firstn skipn app].
    repeat (rewrite broadcast_keep_r;
            cbn [bind Nat.ltb Nat.leb length guard firstn skipn app]).
    assert (En : numel [1; C; 1; 1] = C) by (cbn [numel fold_right]; lia).
    rewrite !reshape_shape_ok by lia. cbn [bind].
    rewrite broadcast_chan_l. cbn [bind]. apply broadcast_chan_r.
Qed.

(** X4: [LayerNormFunction.forward] raises whenever [x] does not have
    exactly four axes, and whenever [weight] or [bias] does not hold exactly
    as many elements as [x] has channels, so that [view(1, C, 1, 1)] is
    impossible; whenever it returns, the output has the shape of [x]. *)
Theorem LayerNormFunction_forward_raises_on_mismatch
  (x weight bias : tensor F) eps :
  (length (shape x) <> 4 -> LayerNormFunction_forward x weight bias eps = None)
  /\ (forall N C Hh W,
        shape x = [N; C; Hh; W] ->
        numel (shape weight) <> C \/ numel (shape bias) <> C ->
        LayerNormFunction_forward x weight bias eps = None)
  /\ (forall ctx y,
        LayerNormFunction_forward x weight bias eps = Some (ctx, y) ->
        shape y = shape x).
Proof.
  pose proof (sim_LayerNormFunction x weight bias eps) as Hsim.
  assert (Hinv : forall ctx y,
             LayerNormFunction_forward x weight bias eps = Some (ctx, y) ->
             exists N C Hh W,
               shape x = [N; C; Hh; W] /\ numel (shape weight) = C
               /\ numel (shape bias) = C /\ shape y = shape x).
  { intros ctx y Hf. rewrite Hf in Hsim. cbn [option_map snd] in Hsim.
    symmetry in Hsim. apply LayerNormFunction_shape_iff in Hsim.
    destruct Hsim as (N & C & Hh & W & Ex & Ew & Eb & Ey).
    exists N, C, Hh, W. repeat split; assumption. }
  split; [|split].
  - intros Hl.
    destruct (LayerNormFunction_forward x weight bias eps) as [[ctx y]|] eqn:Ef;
      [|reflexivity].
    destruct (Hinv ctx y eq_refl) as (N & C & Hh & W & Ex & _).
    rewrite Ex in Hl. contradiction Hl. reflexivity.
  - intros N C Hh W Ex Hbad.
    destruct (LayerNormFunction_forward x weight bias eps) as [[ctx y]|] eqn:Ef;
      [|reflexivity].
    destruct (Hinv ctx y eq_refl) as (N' & C' & Hh' & W' & Ex' & Ew & Eb & _).
    rewrite Ex in Ex'. injection Ex' as _ EC _ _. subst C'.
    destruct Hbad as [Hb|Hb]; contradiction.
  - intros ctx y Hf.
    destruct (Hinv ctx y Hf) as (_ & _ & _ & _ & _ & _ & _ & Ey). exact Ey.
Qed.


(** *** check_image_size and the final crop *)

Lemma shape_build s (g : list nat -> F) : shape (build s g) = s.
Proof. reflexivity. Qed.

(** X5: the crop at the end of [forward] undoes [check_image_size]:
    cropping the padded tensor to the input's height and width gives the
    input back. *)
Theorem crop_undoes_check_image_size
  img_channel (theta : Params F) (x : tensor F) B C Hh W :
  wf x -> shape x = [B; C; Hh; W] ->
  exists p,
    check_image_size (CascadedGaze_init img_channel theta) x = Some p
    /\ crop p Hh W = Some x.
Proof.
  intros Hwx E.
  rewrite (check_image_size_16 _ x B C Hh W (padder_size_init _ _) E).
  destruct (pad_constant_bottom_right x B C Hh W
              ((16 - W mod 16) mod 16) ((16 - Hh mod 16) mod 16) E)
    as (p & Hp & Sp & _ & Hin & _).
  exists p. split; [exact Hp|].
  unfold crop. rewrite Sp. rewrite !Nat.min_l by lia. f_equal.
  apply tensor_ext; [apply wf_build | exact Hwx | rewrite shape_build; congruence |].
  rewrite shape_build. intros idx Hr. rewrite get_build by exact Hr.
  apply in_range4_inv in Hr.
  destruct Hr as (b & c & h & w & -> & Hb & Hc & Hh' & Hw).
  apply Hin; assumption.
Qed.

(** X6: [check_image_size] is idempotent: its result already has height
    and width that are multiples of 16, and a second call returns it
    unchanged. *)
Theorem check_image_size_idempotent
  img_channel (theta : Params F) (x : tensor F) B C Hh W :
  shape x = [B; C; Hh; W] ->
  exists p,
    check_image_size (CascadedGaze_init img_channel theta) x = Some p
    /\ check_image_size (CascadedGaze_init img_channel theta) p = Some p.
Proof.
  intros E.
  rewrite (check_image_size_16 _ x B C Hh W (padder_size_init _ _) E).
  destruct (pad_constant_bottom_right x B C Hh W
              ((16 - W mod 16) mod 16) ((16 - Hh mod 16) mod 16) E)
    as (p & Hp & Sp & Wp & _ & _).
  exists p. split; [exact Hp|].
  rewrite (check_image_size_16 _ p _ _ _ _ (padder_size_init _ _) Sp).
  destruct (pad_amount_minimal Hh) as [Eh _].
  destruct (pad_amount_minimal W) as [Ew _].
  rewrite Eh, Ew. change ((16 - 0) mod 16) with 0.
  destruct (pad_constant_bottom_right p _ _ _ _ 0 0 Sp)
    as (q & Hq & Sq & Wq & Hin & _).
  rewrite Hq. f_equal.
  rewrite !Nat.add_0_r in Sq.
  apply tensor_ext; [exact Wq | exact Wp | congruence |].
  rewrite Sq. intros idx Hr. apply in_range4_inv in Hr.
  destruct Hr as (b & c & h & w & -> & Hb & Hc & Hh' & Hw).
  apply Hin; assumption.
Qed.

(** *** Convolutions: when they return *)

Lemma Conv2d_shape_inv (cv : Conv2d F) B C Hh W s :
  Conv2d_shape cv [B; C; Hh; W] = Some s ->
  C = in_channels cv
  /\ kernel_size cv <= Hh + 2 * padding cv
  /\ kernel_size cv <= W + 2 * padding cv
  /\ s = [B; out_channels cv;
          conv_out Hh (kernel_size cv) (stride cv) (padding cv);
          conv_out W (kernel_size cv) (stride cv) (padding cv)].
Proof.
  unfold Conv2d_shape. intros Hs.
  apply bind_Some in Hs. destruct Hs as (u1 & _ & Hs).
  apply bind_Some in Hs. destruct Hs as (u2 & G2 & Hs).
  apply bind_Some in Hs. destruct Hs as (u3 & G3 & Hs).
  apply guard_Some in G2. apply guard_Some in G3.
  apply Nat.eqb_eq in G2. apply andb_true_iff in G3. destruct G3 as [G3 G4].
  apply Nat.leb_le in G3. apply Nat.leb_le in G4.
  repeat split; try assumption. congruence.
Qed.

Lemma Conv2d_shape_fails (cv : Conv2d F) B C Hh W :
  C <> in_channels cv
  \/ Hh + 2 * padding cv < kernel_size cv
  \/ W + 2 * padding cv < kernel_size cv ->
  Conv2d_shape cv [B; C; Hh; W] = None.
Proof.
  intros Hbad. destruct (Conv2d_shape cv [B; C; Hh; W]) as [s|] eqn:Es;
    [|reflexivity].
  apply Conv2d_shape_inv in Es. lia.
Qed.

Lemma conv_out_1x1 h : 1 <= h -> conv_out h 1 1 0 = h.
Proof. intros Hh. unfold conv_out. rewrite Nat.div_1_r. lia. Qed.

Lemma conv_out_3x3 h : 1 <= h -> conv_out h 3 1 1 = h.
Proof. intros Hh. unfold conv_out. rewrite Nat.div_1_r. lia. Qed.

Lemma conv_out_ge_inv size k s k' :
  k' <= conv_out size k s 0 -> k <= size -> k + s * (k' - 1) <= size.
Proof.
  unfold conv_out. intros Hk Hsz.
  pose proof (Nat.Div0.mul_div_le (size + 2 * 0 - k) s) as Hd.
  assert (Hm : s * (k' - 1) <= s * ((size + 2 * 0 - k) / s))
    by (apply Nat.mul_le_mono_l; lia).
  lia.
Qed.

Lemma depthwise_separable_conv_shape_gen
  nin nout k p s bias (theta : Params F) B C Hh W :
  1 <= nin -> 0 < s -> C = nin -> k <= Hh + 2 * p -> k <= W + 2 * p ->
  depthwise_separable_conv_shape
    (depthwise_separable_conv_init nin nout k p s bias theta) [B; C; Hh; W]
  = Some [B; nout; conv_out Hh k s p; conv_out W k s p].
Proof.
  intros Hc Hs HC HH HW.
  unfold depthwise_separable_conv_shape, depthwise_separable_conv_init.
  cbn [depthwise pointwise].
  rewrite Conv2d_init_shape by (try apply Nat.Div0.mod_same; lia). cbn [bind].
  apply conv1x1_shape; [reflexivity | apply conv_out_ge_1 | apply conv_out_ge_1].
Qed.

Lemma depthwise_separable_conv_shape_inv
  nin nout k p s bias (theta : Params F) B C Hh W s' :
  depthwise_separable_conv_shape
    (depthwise_separable_conv_init nin nout k p s bias theta) [B; C; Hh; W]
  = Some s' ->
  C = nin /\ k <= Hh + 2 * p /\ k <= W + 2 * p
  /\ s' = [B; nout; conv_out Hh k s p; conv_out W k s p].
Proof.
  unfold depthwise_separable_conv_shape, depthwise_separable_conv_init.
  cbn [depthwise pointwise]. intros Hs.
  apply bind_Some in Hs. destruct Hs as (s1 & H1 & H2).
  apply Conv2d_shape_inv in H1.
  cbn [in_channels out_channels kernel_size stride padding Conv2d_init] in H1.
  destruct H1 as (HC & HH & HW & ->).
  apply Conv2d_shape_inv in H2.
  cbn [in_channels out_channels kernel_size stride padding Conv2d_init] in H2.
  destruct H2 as (_ & _ & _ & ->).
  rewrite !conv_out_1x1 by apply conv_out_ge_1.
  repeat split; assumption.
Qed.

(** X7: for [nin], [nout], kernel size and stride all at least 1,
    [depthwise_separable_conv.forward] (a depthwise convolution with the
    given kernel, stride and padding, then a 1x1 convolution) returns a
    tensor of shape [(B, nout, (H + 2p - k) / s + 1, (W + 2p - k) / s + 1)]
    when the input has [nin] channels, is not empty in height or width, and
    the kernel fits in the padded input; it raises when the channel count
    differs from [nin] or the kernel is larger than the padded input. *)
Theorem depthwise_separable_conv_forward_shape
  nin nout k p s bias (theta : Params F) (x : tensor F) B C Hh W :
  shape x = [B; C; Hh; W] ->
  1 <= nin -> 1 <= nout -> 1 <= k -> 1 <= s ->
  let m := depthwise_separable_conv_init nin nout k p s bias theta in
  (C = nin /\ 1 <= Hh /\ 1 <= W /\ k <= Hh + 2 * p /\ k <= W + 2 * p ->
   exists y,
     depthwise_separable_conv_forward m x = Some y
     /\ shape y = [B; nout; conv_out Hh k s p; conv_out W k s p])
  /\ (C <> nin \/ Hh + 2 * p < k \/ W + 2 * p < k ->
      depthwise_separable_conv_forward m x = None).
Proof.
  intros E Hc Hn Hk Hs m. split.
  - intros (HC & _ & _ & HH & HW). apply sim_exists.
    rewrite sim_depthwise_separable_conv, E.
    apply depthwise_separable_conv_shape_gen; assumption.
  - intros Hbad. apply (option_map_None shape).
    rewrite sim_depthwise_separable_conv, E.
    destruct (depthwise_separable_conv_shape m [B; C; Hh; W]) as [s'|] eqn:Es;
      [|reflexivity].
    apply depthwise_separable_conv_shape_inv in Es. lia.
Qed.

(** *** GlobalContextExtractor: the smallest feature map *)

Lemma GCE_loop_shape_inv c g (theta : Params F) B Hh W outs :
  GCE_loop_shape (cgb_GCE (CascadedGazeBlock_init c g 2 2 theta))
    [B; c; Hh; W] [] = Some outs ->
  GCE_min_size g <= Hh /\ GCE_min_size g <= W.
Proof.
  unfold GCE_min_size, CascadedGazeBlock_init. cbn [cgb_GCE].
  destruct (g =? 3); unfold GlobalContextExtractor_init;
    cbn [combine GCE_convs_from GCE_loop_shape]; intros Hs.
  - apply bind_Some in Hs. destruct Hs as (s1 & H1 & Hs).
    apply depthwise_separable_conv_shape_inv in H1.
    destruct H1 as (_ & HH1 & HW1 & ->).
    apply bind_Some in Hs. destruct Hs as (s2 & H2 & Hs).
    apply depthwise_separable_conv_shape_inv in H2.
    destruct H2 as (_ & HH2 & HW2 & ->).
    apply bind_Some in Hs. destruct Hs as (s3 & H3 & Hs).
    apply depthwise_separable_conv_shape_inv in H3.
    destruct H3 as (_ & HH3 & HW3 & _).
    pose proof (conv_out_ge_inv (conv_out Hh 2 2 0) 4 4 4) as A1.
    pose proof (conv_out_ge_inv (conv_out W 2 2 0) 4 4 4) as A2.
    pose proof (conv_out_ge_inv Hh 2 2 16) as A3.
    pose proof (conv_out_ge_inv W 2 2 16) as A4.
    lia.
  - apply bind_Some in Hs. destruct Hs as (s1 & H1 & Hs).
    apply depthwise_separable_conv_shape_inv in H1.
    destruct H1 as (_ & HH1 & HW1 & ->).
    apply bind_Some in Hs. destruct Hs as (s2 & H2 & Hs).
    apply depthwise_separable_conv_shape_inv in H2.
    destruct H2 as (_ & HH2 & HW2 & _).
    pose proof (conv_out_ge_inv Hh 3 2 3) as A3.
    pose proof (conv_out_ge_inv W 3 2 3) as A4.
    lia.
Qed.

Lemma GCE_loop_shape_ok c g (theta : Params F) B Hh W :
  1 <= c -> GCE_min_size g <= Hh -> GCE_min_size g <= W ->
  GCE_loop_shape (cgb_GCE (CascadedGazeBlock_init c g 2 2 theta))
    [B; c; Hh; W] []
  = Some (if g =? 3
          then [[B; c; conv_out Hh 2 2 0; conv_out W 2 2 0];
                [B; c; conv_out (conv_out Hh 2 2 0) 4 4 0;
                 conv_out (conv_out W 2 2 0) 4 4 0];
                [B; c; conv_out (conv_out (conv_out Hh 2 2 0) 4 4 0) 4 4 0;
                 conv_out (conv_out (conv_out W 2 2 0) 4 4 0) 4 4 0]]
          else [[B; c; conv_out Hh 3 2 0; conv_out W 3 2 0];
                [B; c; conv_out (conv_out Hh 3 2 0) 3 3 0;
                 conv_out (conv_out W 3 2 0) 3 3 0]]).
Proof.
  unfold GCE_min_size, CascadedGazeBlock_init. cbn [cgb_GCE].
  intros Hc HH HW.
  destruct (g =? 3); unfold GlobalContextExtractor_init;
    cbn [combine GCE_convs_from GCE_loop_shape].
  - pose proof (conv_out_fits Hh 2 2 16 ltac:(lia) ltac:(lia)) as H1.
    pose proof (conv_out_fits W 2 2 16 ltac:(lia) ltac:(lia)) as W1.
    rewrite depthwise_separable_conv_init_shape by lia. cbn [bind app].
    pose proof (conv_out_fits (conv_out Hh 2 2 0) 4 4 4 ltac:(lia) ltac:(lia)) as H2.
    pose proof (conv_out_fits (conv_out W 2 2 0) 4 4 4 ltac:(lia) ltac:(lia)) as W2.
    rewrite depthwise_separable_conv_init_shape by lia. cbn [bind app].
    rewrite depthwise_separable_conv_init_shape by lia. cbn [bind app].
    reflexivity.
  - pose proof (conv_out_fits Hh 3 2 3 ltac:(lia) ltac:(lia)) as H1.
    pose proof (conv_out_fits W 3 2 3 ltac:(lia) ltac:(lia)) as W1.
    rewrite depthwise_separable_conv_init_shape by lia. cbn [bind app].
    rewrite depthwise_separable_conv_init_shape by lia. cbn [bind app].
    reflexivity.
Qed.

(** X8: the context extractor of a [CascadedGazeBlock] needs a feature
    map of at least 32 x 32 with the kernels (2, 4, 4) of [GCE_Conv = 3] and
    of at least 7 x 7 with the kernels (3, 3) otherwise.  At or above that
    size it returns one tensor per stage, each stage's extent obtained from
    the previous one by [(size - k) / s + 1]; below it, it raises. *)
Theorem GlobalContextExtractor_minimum_size
  c g (theta : Params F) (x : tensor F) B Hh W :
  shape x = [B; c; Hh; W] -> 1 <= c ->
  let gce := cgb_GCE (CascadedGazeBlock_init c g 2 2 theta) in
  (GCE_min_size g <= Hh /\ GCE_min_size g <= W ->
   exists outs,
     GlobalContextExtractor_forward gce x = Some outs
     /\ map shape outs
        = if g =? 3
          then [[B; c; conv_out Hh 2 2 0; conv_out W 2 2 0];
                [B; c; conv_out (conv_out Hh 2 2 0) 4 4 0;
                 conv_out (conv_out W 2 2 0) 4 4 0];
                [B; c; conv_out (conv_out (conv_out Hh 2 2 0) 4 4 0) 4 4 0;
                 conv_out (conv_out (conv_out W 2 2 0) 4 4 0) 4 4 0]]
          else [[B; c; conv_out Hh 3 2 0; conv_out W 3 2 0];
                [B; c; conv_out (conv_out Hh 3 2 0) 3 3 0;
                 conv_out (conv_out W 3 2 0) 3 3 0]])
  /\ (Hh < GCE_min_size g \/ W < GCE_min_size g ->
      GlobalContextExtractor_forward gce x = None).
Proof.
  intros E Hc gce. split.
  - intros (HH & HW).
    pose proof (sim_GlobalContextExtractor gce x) as Hsim.
    rewrite E in Hsim. unfold gce in Hsim at 2.
    rewrite GCE_loop_shape_ok in Hsim by assumption.
    apply option_map_Some in Hsim. exact Hsim.
  - intros Hbad. apply (option_map_None (map shape)).
    rewrite sim_GlobalContextExtractor, E.
    destruct (GCE_loop_shape gce [B; c; Hh; W] []) as [outs|] eqn:Es;
      [|reflexivity].
    apply GCE_loop_shape_inv in Es. lia.
Qed.


(** *** The smallest image [forward] accepts *)

Lemma CascadedGazeBlock_shape_inv c g (theta : Params F) B Hh W s :
  CascadedGazeBlock_shape (CascadedGazeBlock_init c g 2 2 theta) [B; c; Hh; W]
  = Some s ->
  GCE_min_size g <= Hh /\ GCE_min_size g <= W.
Proof.
  intros Hs. unfold CascadedGazeBlock_shape in Hs.
  apply bind_Some in Hs. destruct Hs as (x & Hx & _).
  unfold CascadedGazeBlock_spatial_shape in Hx.
  change (cgb_norm1 (CascadedGazeBlock_init c g 2 2 theta))
    with (LayerNorm2d_init c eps_1e_6 (sub_params theta 7)) in Hx.
  change (cgb_conv1 (CascadedGazeBlock_init c g 2 2 theta))
    with (Conv2d_init c (c * 2) 1 1 0 1 true (sub_params theta 0)) in Hx.
  change (cgb_conv2 (CascadedGazeBlock_init c g 2 2 theta))
    with (Conv2d_init (c * 2) (c * 2) 3 1 1 (c * 2) true (sub_params theta 1)) in Hx.
  rewrite LayerNorm2d_init_shape in Hx by reflexivity. cbn [bind] in Hx.
  apply bind_Some in Hx. destruct Hx as (x1 & H1 & Hx).
  apply Conv2d_shape_inv in H1.
  cbn [in_channels out_channels kernel_size stride padding Conv2d_init] in H1.
  destruct H1 as (_ & HH1 & HW1 & ->).
  rewrite !conv_out_1x1 in Hx by lia.
  destruct (Nat.eq_dec c 0) as [->|Hc].
  { apply bind_Some in Hx. destruct Hx as (x2 & H2 & _).
    unfold Conv2d_shape, conv2d_valid in H2.
    cbn [in_channels out_channels kernel_size stride padding groups Conv2d_init
         Nat.mul Nat.ltb Nat.leb andb guard bind] in H2.
    discriminate. }
  rewrite conv3x3_shape in Hx by (try apply Nat.Div0.mod_same; lia).
  cbn [bind] in Hx.
  rewrite (chunk_dim1_shape_even B (c * 2) c Hh W) in Hx by lia.
  cbn [bind] in Hx.
  rewrite broadcast_shape_same in Hx. cbn [bind] in Hx.
  apply bind_Some in Hx. destruct Hx as (outs & Hg & _).
  exact (GCE_loop_shape_inv c g theta B Hh W outs Hg).
Qed.

Lemma Sequential_blocks_first {B} (mk : Params F -> B) fwd_shape n theta s s' :
  Sequential_shape fwd_shape (blocks_init mk (S n) theta) s = Some s' ->
  exists s1, fwd_shape (mk (sub_params theta 0)) s = Some s1.
Proof.
  unfold blocks_init. cbn [seq map Sequential_shape]. intros Hs.
  apply bind_Some in Hs. destruct Hs as (s1 & H1 & _). exists s1. exact H1.
Qed.

Lemma CascadedGaze_shape_inv img_channel (theta : Params F) B C Hh W s :
  CascadedGaze_shape (CascadedGaze_init img_channel theta) [B; C; Hh; W] = Some s ->
  C = img_channel /\ 49 <= Hh /\ 49 <= W.
Proof.
  rewrite CascadedGaze_init_eq. unfold CascadedGaze_shape. intros Hs.
  apply bind_Some in Hs. destruct Hs as (p & Hp & Hs).
  apply bind_Some in Hs. destruct Hs as (y & Hy & _).
  unfold check_image_size_shape in Hp.
  cbn [padder_size Nat.eqb negb guard bind pad_constant_shape Nat.add] in Hp.
  apply Some_eq_inv in Hp. subst p.
  remember (Hh + (16 - Hh mod 16) mod 16) as Hp eqn:EH.
  remember (W + (16 - W mod 16) mod 16) as Wp eqn:EW.
  unfold CascadedGaze_body_shape in Hy. cbn [intro encoders downs] in Hy.
  apply bind_Some in Hy. destruct Hy as (x0 & H0 & Hy).
  apply Conv2d_shape_inv in H0.
  cbn [in_channels out_channels kernel_size stride padding Conv2d_init] in H0.
  destruct H0 as (HC & HH0 & HW0 & ->).
  rewrite !conv_out_3x3 in Hy by lia.
  apply bind_Some in Hy. destruct Hy as (r & Hr & _).
  cbn [combine encoder_loop_shape] in Hr.
  apply bind_Some in Hr. destruct Hr as (e0 & He0 & Hr).
  pose proof He0 as F0.
  apply Sequential_blocks_first in F0. destruct F0 as (s1 & F0).
  apply CascadedGazeBlock_shape_inv in F0.
  change (GCE_min_size 3) with 32 in F0. destruct F0 as [HH1 HW1].
  rewrite Sequential_blocks_shape in He0
    by (intros th; apply CascadedGazeBlock_init_shape;
        change (GCE_min_size 3) with 32; lia).
  apply Some_eq_inv in He0. subst e0.
  apply bind_Some in Hr. destruct Hr as (x1 & Hx1 & Hr).
  rewrite Conv2d_init_shape in Hx1 by (try apply Nat.mod_1_r; lia).
  apply Some_eq_inv in Hx1. subst x1.
  apply bind_Some in Hr. destruct Hr as (e1 & He1 & _).
  apply Sequential_blocks_first in He1. destruct He1 as (s2 & F1).
  apply CascadedGazeBlock_shape_inv in F1.
  change (GCE_min_size 3) with 32 in F1. destruct F1 as [HH2 HW2].
  pose proof (conv_out_ge_inv Hp 2 2 32 HH2) as HH3.
  pose proof (conv_out_ge_inv Wp 2 2 32 HW2) as HW3.
  destruct (pad_amount_minimal Hh) as [_ Bh].
  destruct (pad_amount_minimal W) as [_ Bw].
  split; [exact HC|]. lia.
Qed.

Lemma CascadedGaze_forward_ok img_channel (theta : Params F) (inp : tensor F)
  B Hh W :
  shape inp = [B; img_channel; Hh; W] -> 49 <= Hh -> 49 <= W ->
  exists out,
    CascadedGaze_forward (CascadedGaze_init img_channel theta) inp = Some out
    /\ shape out = [B; img_channel; Hh; W].
Proof.
  intros E HH HW.
  destruct (check_image_size_run img_channel theta inp B Hh W E) as (p & Hp & Sp).
  destruct (pad_to_16 Hh HH) as (a & Ha & Ea).
  destruct (pad_to_16 W HW) as (b & Hb & Eb).
  assert (Sp' : shape p = [B; img_channel; 2 * (2 * (2 * (2 * a)));
                           2 * (2 * (2 * (2 * b)))]) by congruence.
  destruct (CascadedGaze_run img_channel theta p B a b Sp' Ha Hb)
    as (x0 & e0 & e1 & e2 & e3 & x4 & xm & yd & y & _ & _ & _ & _ & _ & _ & _
        & Hy & Sy).
  destruct (sim_exists shape (crop y Hh W) [B; img_channel; Hh; W])
    as (out & Hout & Sout).
  { rewrite sim_crop, Sy, Sp. cbn [crop_shape].
    rewrite !Nat.min_l by lia. reflexivity. }
  exists out. split; [|exact Sout].
  unfold CascadedGaze_forward. rewrite E, Hp. cbn [bind]. rewrite Hy. exact Hout.
Qed.

(** X9: [CascadedGaze.forward] has a smallest image.  On a 4-D input it
    returns when the channel count is the network's [img_channel] and height
    and width are at least 49, and raises in every other case: a wrong
    channel count fails in [intro], and an image under 49 pixels pads to at
    most 48, which the (2, 4, 4) context extractor of the first or second
    encoder stage cannot reduce. *)
Theorem CascadedGaze_forward_minimum_size
  img_channel (theta : Params F) (inp : tensor F) B C Hh W :
  shape inp = [B; C; Hh; W] -> 1 <= img_channel ->
  let m := CascadedGaze_init img_channel theta in
  (C = img_channel /\ 49 <= Hh /\ 49 <= W ->
   exists out, CascadedGaze_forward m inp = Some out /\ shape out = shape inp)
  /\ (C <> img_channel \/ Hh < 49 \/ W < 49 ->
      CascadedGaze_forward m inp = None).
Proof.
  intros E Hc m. split.
  - intros (-> & HH & HW). rewrite E.
    apply CascadedGaze_forward_ok; assumption.
  - intros Hbad. apply (option_map_None shape).
    rewrite sim_CascadedGaze, E.
    destruct (CascadedGaze_shape m [B; C; Hh; W]) as [s|] eqn:Es; [|reflexivity].
    apply CascadedGaze_shape_inv in Es. lia.
Qed.

(** *** The global residual *)

Lemma get_crop (y : tensor F) B C Hh W Hc Wc b c h w :
  shape y = [B; C; Hh; W] -> Hc <= Hh -> Wc <= W ->
  b < B -> c < C -> h < Hc -> w < Wc ->
  exists out, crop y Hc Wc = Some out
              /\ shape out = [B; C; Hc; Wc]
              /\ get out [b; c; h; w] = get y [b; c; h; w].
Proof.
  intros E HH HW Hb Hcc Hh' Hw. unfold crop. rewrite E.
  rewrite !Nat.min_l by lia. eexists. split; [reflexivity|].
  split; [reflexivity|].
  apply get_build. apply in_range4; assumption.
Qed.

(** X10: the network predicts a residual: inside the input's extent the
    output of [forward] is the output of the [ending] convolution plus the
    input itself. *)
Theorem CascadedGaze_forward_adds_input
  img_channel (theta : Params F) (inp : tensor F) B Hh W :
  shape inp = [B; img_channel; Hh; W] ->
  1 <= img_channel -> 49 <= Hh -> 49 <= W ->
  let m := CascadedGaze_init img_channel theta in
  exists padded x0 r xm yd z out,
    check_image_size m inp = Some padded
    /\ Conv2d_forward (intro m) padded = Some x0
    /\ encoder_loop (combine (encoders m) (downs m)) x0 [] = Some r
    /\ Sequential NAFBlock0_forward (middle_blks m) (fst r) = Some xm
    /\ decoder_loop (combine (combine (decoders m) (ups m)) (rev (snd r))) xm
       = Some yd
    /\ Conv2d_forward (ending m) yd = Some z
    /\ CascadedGaze_forward m inp = Some out
    /\ forall b c h w, b < B -> c < img_channel -> h < Hh -> w < W ->
         get out [b; c; h; w] = add (get z [b; c; h; w]) (get inp [b; c; h; w]).
Proof.
  intros E Hc HH HW m.
  pose proof (check_image_size_16 m inp B img_channel Hh W
                (padder_size_init _ _) E) as Hchk.
  destruct (pad_constant_bottom_right inp B img_channel Hh W
              ((16 - W mod 16) mod 16) ((16 - Hh mod 16) mod 16) E)
    as (p & Hp & Sp & _ & Hin & _).
  rewrite Hp in Hchk.
  destruct (pad_to_16 Hh HH) as (a & Ha & Ea).
  destruct (pad_to_16 W HW) as (b' & Hb' & Eb).
  assert (Sp' : shape p = [B; img_channel; 2 * (2 * (2 * (2 * a)));
                           2 * (2 * (2 * (2 * b')))]) by congruence.
  destruct (CascadedGaze_encoder_run img_channel theta p B a b' Sp' Ha Hb')
    as (x0 & e0 & e1 & e2 & e3 & x4 & Hx0 & Henc & O0 & O1 & O2 & O3
        & S0 & S1 & S2 & S3 & S4).
  fold m in Hx0, Henc, O0, O1, O2, O3.
  destruct (Sequential_NAF_ok 960 10 (sub_params theta 4) x4 B a b' S4)
    as (xm & Hxm & Sxm); try lia.
  change (blocks_init (NAFBlock0_init 960 2 2) 10 (sub_params theta 4))
    with (middle_blks m) in Hxm.
  destruct (CascadedGaze_decoder_run img_channel theta x0 e0 e1 e2 e3 xm B a b'
              O0 O1 O2 O3 S0 S1 S2 S3 Sxm)
    as (yd & Hyd & _ & Syd & _); try lia.
  fold m in Hyd.
  destruct (conv3x3_ok 60 img_channel (sub_params theta 1) yd B _ _ Syd)
    as (z & Hz & Sz); try lia.
  change (Conv2d_init 60 img_channel 3 1 1 1 true (sub_params theta 1))
    with (ending m) in Hz.
  destruct (binop_same_shape add z p _ Sz Sp') as (y & Hy & Sy & _ & Gy).
  assert (Hbody : CascadedGaze_body m p = Some y).
  { unfold CascadedGaze_body. rewrite Hx0. cbn [bind]. rewrite Henc.
    cbn [bind fst snd]. rewrite Hxm. cbn [bind]. rewrite Hyd. cbn [bind].
    rewrite Hz. cbn [bind]. exact Hy. }
  destruct (sim_exists shape (crop y Hh W) [B; img_channel; Hh; W])
    as (out & Hout & Sout).
  { rewrite sim_crop, Sy. cbn [crop_shape].
    rewrite !Nat.min_l by lia. reflexivity. }
  exists p, x0, (x4, [e0; e1; e2; e3]), xm, yd, z, out.
  split; [exact Hchk|]. split; [exact Hx0|]. split; [exact Henc|].
  split; [exact Hxm|]. split; [exact Hyd|]. split; [exact Hz|].
  split.
  { unfold CascadedGaze_forward. rewrite E, Hchk. cbn [bind].
    rewrite Hbody. exact Hout. }
  intros b c h w Hb Hcc Hh' Hw.
  destruct (get_crop y B img_channel _ _ Hh W b c h w Sy) as (out' & Hout' & _ & Gout);
    try lia.
  rewrite Hout in Hout'. apply Some_eq_inv in Hout'. subst out'.
  rewrite Gout, Gy by (apply in_range4; lia).
  rewrite Hin by assumption. reflexivity.
Qed.

(** *** Up-sampling and down-sampling stages *)

(** X11: a decoder's up-sampling stage (1x1 convolution doubling the
    channels, then [CustomPixelShuffle(2)]) halves the channels and doubles
    height and width, and the encoder's strided 2x2 convolution of the same
    level takes that shape back to the original one. *)
Theorem down_after_up_restores_shape
  c' (th1 th2 : Params F) (x : tensor F) B h w :
  shape x = [B; 2 * c'; h; w] -> 1 <= c' -> 1 <= h -> 1 <= w ->
  exists u d,
    Up_forward {| up_conv := Conv2d_init (2 * c') (2 * (2 * c')) 1 1 0 1 false th1;
                  up_shuffle := 2 |} x = Some u
    /\ shape u = [B; c'; 2 * h; 2 * w]
    /\ Conv2d_forward (Conv2d_init c' (2 * c') 2 2 0 1 true th2) u = Some d
    /\ shape d = shape x.
Proof.
  intros Ex Hc Hh Hw. unfold Up_forward. cbn [up_conv up_shuffle].
  destruct (sim_exists shape
              (Conv2d_forward (Conv2d_init (2 * c') (2 * (2 * c')) 1 1 0 1 false th1) x)
              [B; 4 * c'; h; w]) as (v & Hv & Sv).
  { rewrite sim_Conv2d, Ex, conv1x1_shape by lia. do 3 f_equal. lia. }
  rewrite Hv. cbn [bind].
  pose proof (CustomPixelShuffle_2_eq v B c' h w Sv) as Hu.
  match type of Hu with _ = Some ?t => set (u := t) in * end.
  assert (Su : shape u = [B; c'; 2 * h; 2 * w]).
  { subst u. cbn [shape]. rewrite (Nat.mul_comm h), (Nat.mul_comm w). reflexivity. }
  clearbody u.
  destruct (conv_down_ok c' th2 u B h w Su Hh Hw) as (d & Hd & Sd).
  exists u, d. repeat split; try assumption. congruence.
Qed.


(** *** LayerNorm2d and the two blocks: when they return *)

Lemma LayerNorm2d_shape_inv c eps (theta : Params F) N C Hh W s :
  LayerNorm2d_shape (LayerNorm2d_init c eps theta) [N; C; Hh; W] = Some s ->
  C = c.
Proof.
  unfold LayerNorm2d_shape. intros Hs.
  apply LayerNormFunction_shape_iff in Hs.
  destruct Hs as (N' & C' & Hh' & W' & E & Ew & _ & _).
  change (ln_channels (LayerNorm2d_init c eps theta)) with c in Ew.
  cbn [numel fold_right] in Ew. injection E as _ EC _ _. lia.
Qed.

(** X16: [LayerNorm2d(c).forward] returns, with the shape of its input,
    exactly when the 4-D input has [c] channels; any other channel count
    raises, because the [c] weights cannot be viewed as [(1, C, 1, 1)]. *)
Theorem LayerNorm2d_forward_returns_iff
  c eps (theta : Params F) (x : tensor F) N C Hh W :
  shape x = [N; C; Hh; W] ->
  (C = c ->
   exists y, LayerNorm2d_forward (LayerNorm2d_init c eps theta) x = Some y
             /\ shape y = shape x)
  /\ (C <> c -> LayerNorm2d_forward (LayerNorm2d_init c eps theta) x = None).
Proof.
  intros E. split.
  - intros HC. apply sim_exists. rewrite sim_LayerNorm2d, E.
    apply LayerNorm2d_init_shape. exact HC.
  - intros HC. apply (option_map_None shape). rewrite sim_LayerNorm2d, E.
    destruct (LayerNorm2d_shape (LayerNorm2d_init c eps theta) [N; C; Hh; W])
      as [s|] eqn:Es; [|reflexivity].
    apply LayerNorm2d_shape_inv in Es. contradiction.
Qed.

Lemma CascadedGazeBlock_shape_inv_chan c g (theta : Params F) B C Hh W s :
  CascadedGazeBlock_shape (CascadedGazeBlock_init c g 2 2 theta) [B; C; Hh; W]
  = Some s ->
  C = c.
Proof.
  intros Hs. unfold CascadedGazeBlock_shape in Hs.
  apply bind_Some in Hs. destruct Hs as (x & Hx & _).
  unfold CascadedGazeBlock_spatial_shape in Hx.
  change (cgb_norm1 (CascadedGazeBlock_init c g 2 2 theta))
    with (LayerNorm2d_init c eps_1e_6 (sub_params theta 7)) in Hx.
  apply bind_Some in Hx. destruct Hx as (x1 & H1 & _).
  exact (LayerNorm2d_shape_inv _ _ _ _ _ _ _ _ H1).
Qed.

(** X17: [CascadedGazeBlock.forward] keeps the shape of its input and has
    a smallest feature map.  A block built for [c >= 1] channels returns on
    a 4-D input with [c] channels whose height and width are at least 32
    ([GCE_Conv = 3]) or 7 (otherwise), and raises on any other channel count
    and on any smaller input. *)
Theorem CascadedGazeBlock_forward_minimum_size
  c g (theta : Params F) (inp : tensor F) B C Hh W :
  shape inp = [B; C; Hh; W] -> 1 <= c ->
  let m := CascadedGazeBlock_init c g 2 2 theta in
  (C = c /\ GCE_min_size g <= Hh /\ GCE_min_size g <= W ->
   exists y, CascadedGazeBlock_forward m inp = Some y /\ shape y = shape inp)
  /\ (C <> c \/ Hh < GCE_min_size g \/ W < GCE_min_size g ->
      CascadedGazeBlock_forward m inp = None).
Proof.
  intros E Hc m. split.
  - intros (-> & HH & HW). apply sim_exists.
    rewrite sim_CascadedGazeBlock, E.
    apply CascadedGazeBlock_init_shape; assumption.
  - intros Hbad. apply (option_map_None shape).
    rewrite sim_CascadedGazeBlock, E.
    destruct (CascadedGazeBlock_shape m [B; C; Hh; W]) as [s|] eqn:Es;
      [|reflexivity].
    pose proof (CascadedGazeBlock_shape_inv_chan _ _ _ _ _ _ _ _ Es) as HC.
    subst C. apply CascadedGazeBlock_shape_inv in Es. lia.
Qed.

Lemma NAFBlock0_shape_inv c (theta : Params F) B C Hh W s :
  NAFBlock0_shape (NAFBlock0_init c 2 2 theta) [B; C; Hh; W] = Some s ->
  C = c /\ 1 <= Hh /\ 1 <= W.
Proof.
  intros Hs. unfold NAFBlock0_shape in Hs.
  apply bind_Some in Hs. destruct Hs as (x & Hx & _).
  unfold NAFBlock0_spatial_shape in Hx.
  change (naf_norm1 (NAFBlock0_init c 2 2 theta))
    with (LayerNorm2d_init c eps_1e_6 (sub_params theta 6)) in Hx.
  change (naf_conv1 (NAFBlock0_init c 2 2 theta))
    with (Conv2d_init c (c * 2) 1 1 0 1 true (sub_params theta 0)) in Hx.
  apply bind_Some in Hx. destruct Hx as (x1 & H1 & Hx).
  pose proof (LayerNorm2d_shape_inv _ _ _ _ _ _ _ _ H1) as HC. subst C.
  rewrite LayerNorm2d_init_shape in H1 by reflexivity.
  apply Some_eq_inv in H1. subst x1.
  apply bind_Some in Hx. destruct Hx as (x2 & H2 & _).
  apply Conv2d_shape_inv in H2.
  cbn [in_channels out_channels kernel_size stride padding Conv2d_init] in H2.
  lia.
Qed.

(** X18: [NAFBlock0.forward] keeps the shape of its input: a block built
    for [c >= 1] channels returns on every non-empty 4-D feature map with
    [c] channels, and raises on any other channel count and on a map of
    height or width 0. *)
Theorem NAFBlock0_forward_keeps_shape
  c (theta : Params F) (inp : tensor F) B C Hh W :
  shape inp = [B; C; Hh; W] -> 1 <= c ->
  let m := NAFBlock0_init c 2 2 theta in
  (C = c /\ 1 <= Hh /\ 1 <= W ->
   exists y, NAFBlock0_forward m inp = Some y /\ shape y = shape inp)
  /\ (C <> c \/ Hh = 0 \/ W = 0 -> NAFBlock0_forward m inp = None).
Proof.
  intros E Hc m. split.
  - intros (-> & HH & HW). apply sim_exists.
    rewrite sim_NAFBlock0, E.
    apply NAFBlock0_init_shape; assumption.
  - intros Hbad. apply (option_map_None shape).
    rewrite sim_NAFBlock0, E.
    destruct (NAFBlock0_shape m [B; C; Hh; W]) as [s|] eqn:Es; [|reflexivity].
    apply NAFBlock0_shape_inv in Es. lia.
Qed.

(** *** Stacks of blocks at their initial scales *)

Section ZeroStacks.

Hypothesis mul_zero_r : forall a : F, mul a zero = zero.
Hypothesis add_zero_r : forall a : F, add a zero = a.

Lemma Sequential_identity {B} (fwd : B -> tensor F -> option (tensor F))
  (mk : Params F -> B) (theta : Params F) (x : tensor F) l :
  (forall j, In j l -> fwd (mk (sub_params theta j)) x = Some x) ->
  Sequential fwd (map (fun j => mk (sub_params theta j)) l) x = Some x.
Proof.
  induction l as [|j l IH]; intros Hl; [reflexivity|].
  cbn [map Sequential]. rewrite (Hl j (or_introl eq_refl)). cbn [bind].
  apply IH. intros j' Hj'. apply Hl. right. exact Hj'.
Qed.

(** X19: a whole [nn.Sequential] of blocks is the identity while every
    block's [beta] and [gamma] are zero, as [__init__] sets them: each
    encoder stage, the middle blocks and each decoder stage then return
    their input (in any scalar arithmetic where [a * 0 = 0] and
    [a + 0 = a]). *)
Theorem Sequential_is_identity_at_zero_scales :
  (forall chan g num (theta : Params F) (x : tensor F) B Hh W,
      (forall j k, j < num ->
         cgb_beta (CascadedGazeBlock_init chan g 2 2 (sub_params theta j)) k = zero
         /\ cgb_gamma (CascadedGazeBlock_init chan g 2 2 (sub_params theta j)) k
            = zero) ->
      wf x -> shape x = [B; chan; Hh; W] ->
      1 <= chan -> GCE_min_size g <= Hh -> GCE_min_size g <= W ->
      Sequential CascadedGazeBlock_forward
        (blocks_init (CascadedGazeBlock_init chan g 2 2) num theta) x = Some x)
  /\ (forall chan num (theta : Params F) (x : tensor F) B Hh W,
        (forall j k, j < num ->
           naf_beta (NAFBlock0_init chan 2 2 (sub_params theta j)) k = zero
           /\ naf_gamma (NAFBlock0_init chan 2 2 (sub_params theta j)) k = zero) ->
        wf x -> shape x = [B; chan; Hh; W] ->
        1 <= chan -> 1 <= Hh -> 1 <= W ->
        Sequential NAFBlock0_forward
          (blocks_init (NAFBlock0_init chan 2 2) num theta) x = Some x).
Proof.
  split.
  - intros chan g num theta x B Hh W Hz Hwf Ex Hc HH HW.
    unfold blocks_init. apply Sequential_identity. intros j Hj.
    apply in_seq in Hj.
    apply (CascadedGazeBlock_identity mul_zero_r add_zero_r chan g
             (sub_params theta j) x B Hh W); try assumption.
    + intros k. apply (Hz j k). lia.
    + intros k. apply (Hz j k). lia.
  - intros chan num theta x B Hh W Hz Hwf Ex Hc HH HW.
    unfold blocks_init. apply Sequential_identity. intros j Hj.
    apply in_seq in Hj.
    apply (NAFBlock0_identity mul_zero_r add_zero_r chan
             (sub_params theta j) x B Hh W); try assumption.
    + intros k. apply (Hz j k). lia.
    + intros k. apply (Hz j k). lia.
Qed.

End ZeroStacks.


(** *** The encoder's feature pyramid *)

(** X20: on an accepted image the encoder halves the resolution and
    doubles the channels at every stage: with the padded size [16a x 16b],
    the four encoder stages return 60, 120, 240 and 480 channels at
    [16a x 16b], [8a x 8b], [4a x 4b] and [2a x 2b], and the middle blocks
    receive 960 channels at [a x b]. *)
Theorem encoder_feature_pyramid
  img_channel (theta : Params F) (inp : tensor F) B Hh W :
  shape inp = [B; img_channel; Hh; W] ->
  1 <= img_channel -> 49 <= Hh -> 49 <= W ->
  let m := CascadedGaze_init img_channel theta in
  exists padded x0 e0 e1 e2 e3 x4 a b,
    check_image_size m inp = Some padded
    /\ Conv2d_forward (intro m) padded = Some x0
    /\ encoder_loop (combine (encoders m) (downs m)) x0 []
       = Some (x4, [e0; e1; e2; e3])
    /\ shape padded = [B; img_channel; 16 * a; 16 * b]
    /\ Hh <= 16 * a < Hh + 16 /\ W <= 16 * b < W + 16
    /\ shape e0 = [B; 60; 16 * a; 16 * b]
    /\ shape e1 = [B; 120; 8 * a; 8 * b]
    /\ shape e2 = [B; 240; 4 * a; 4 * b]
    /\ shape e3 = [B; 480; 2 * a; 2 * b]
    /\ shape x4 = [B; 960; a; b].
Proof.
  intros E Hc HH HW m.
  destruct (check_image_size_run img_channel theta inp B Hh W E) as (p & Hp & Sp).
  destruct (pad_to_16 Hh HH) as (a & Ha & Ea).
  destruct (pad_to_16 W HW) as (b & Hb & Eb).
  assert (Sp' : shape p = [B; img_channel; 2 * (2 * (2 * (2 * a)));
                           2 * (2 * (2 * (2 * b)))]) by congruence.
  destruct (CascadedGaze_encoder_run img_channel theta p B a b Sp' Ha Hb)
    as (x0 & e0 & e1 & e2 & e3 & x4 & Hx0 & Henc & _ & _ & _ & _
        & S0 & S1 & S2 & S3 & S4).
  destruct (pad_amount_minimal Hh) as [_ Bh].
  destruct (pad_amount_minimal W) as [_ Bw].
  exists p, x0, e0, e1, e2, e3, x4, a, b.
  split; [exact Hp|]. split; [exact Hx0|]. split; [exact Henc|].
  split; [rewrite Sp'; do 2 f_equal; f_equal; [lia | f_equal; lia]|].
  split; [lia|]. split; [lia|].
  split; [rewrite S0; do 2 f_equal; f_equal; [lia | f_equal; lia]|].
  split; [rewrite S1; do 2 f_equal; f_equal; [lia | f_equal; lia]|].
  split; [rewrite S2; do 2 f_equal; f_equal; [lia | f_equal; lia]|].
  split; [exact S3 | exact S4].
Qed.


(** *** GlobalContextExtractor: the list it returns *)

Lemma GCE_loop_shape_fits c padding bias (theta : Params F) B ks :
  1 <= c ->
  forall i Hh W acc,
    GCE_fits ks padding Hh W = true ->
    exists l,
      GCE_loop_shape (GCE_convs_from i c ks padding bias theta) [B; c; Hh; W] acc
      = Some l.
Proof.
  intros Hc. induction ks as [|[k s] ks IH]; intros i Hh W acc Hfit.
  - eexists. reflexivity.
  - cbn [GCE_fits] in Hfit.
    repeat (apply andb_true_iff in Hfit; destruct Hfit as [Hfit ?]).
    repeat match goal with
           | Hb : (_ <? _) = true |- _ => apply Nat.ltb_lt in Hb
           | Hb : (_ <=? _) = true |- _ => apply Nat.leb_le in Hb
           end.
    apply Nat.ltb_lt in Hfit.
    cbn [GCE_convs_from GCE_loop_shape].
    rewrite depthwise_separable_conv_shape_gen by (assumption || lia || reflexivity).
    cbn [bind]. apply IH. assumption.
Qed.

(** C7 (amended): [GlobalContextExtractor] holds one convolution per
    configured (kernel_size, stride) pair and applies them in sequence.  On
    a 4-D input with [c >= 1] channels on which every stage's kernel fits
    (positive kernel and stride, a non-empty map, the kernel no larger than
    the padded map), [forward] returns a list with one entry per pair, whose
    entry 0 is [gelu(conv_0(x))] and whose entry [i] is
    [gelu(conv_i(entry (i-1)))]. *)
Theorem GlobalContextExtractor_sequential
  c kernel_sizes strides padding bias (theta : Params F) (x : tensor F) B Hh W :
  shape x = [B; c; Hh; W] -> 1 <= c ->
  GCE_fits (combine kernel_sizes strides) padding Hh W = true ->
  let m := GlobalContextExtractor_init c kernel_sizes strides padding bias theta in
  length m = length (combine kernel_sizes strides)
  /\ exists outs,
       GlobalContextExtractor_forward m x = Some outs
       /\ length outs = length (combine kernel_sizes strides)
       /\ forall i, i < length outs ->
            GCE_entry m x i = nth_error outs i.
Proof.
  intros E Hc Hfit m.
  destruct (GlobalContextExtractor_forward_chain c kernel_sizes strides padding
              bias theta x) as (Hlen & _ & Hs).
  fold m in Hlen, Hs.
  split; [exact Hlen|].
  destruct (GCE_loop_shape_fits c padding bias theta B
              (combine kernel_sizes strides) Hc 0 Hh W [] Hfit) as (l & Hl).
  pose proof (sim_GlobalContextExtractor m x) as Hsim.
  rewrite E in Hsim. unfold m in Hsim at 2.
  unfold GlobalContextExtractor_init in Hsim. rewrite Hl in Hsim.
  apply option_map_Some in Hsim. destruct Hsim as (outs & Hout & _).
  exists outs. split; [exact Hout|]. exact (Hs outs Hout).
Qed.

End Properties.

(** * Part II (continued): the gradient of LayerNormFunction, over the reals *)

Section Gradient.

Local Open Scope R_scope.

Ltac rops :=
  cbv beta iota delta [add sub mul div sqrt of_nat zero Scalar_R] in *.

(** ** Finite sums of reals *)

Lemma rsum_S n (f : nat -> R) : sum_upto (S n) f = sum_upto n f + f n.
Proof. exact (@sum_upto_S R Scalar_R n f). Qed.

Lemma rsum_zero n : sum_upto n (fun _ => 0) = 0.
Proof.
  induction n as [|n IH]; [reflexivity|]. rewrite rsum_S, IH. lra.
Qed.

Lemma rsum_plus n (f g : nat -> R) :
  sum_upto n (fun i => f i + g i) = sum_upto n f + sum_upto n g.
Proof.
  induction n as [|n IH]; [cbv; lra|]. rewrite !rsum_S, IH. lra.
Qed.

Lemma rsum_minus n (f g : nat -> R) :
  sum_upto n (fun i => f i - g i) = sum_upto n f - sum_upto n g.
Proof.
  induction n as [|n IH]; [cbv; lra|]. rewrite !rsum_S, IH. lra.
Qed.

Lemma rsum_scal n k (f : nat -> R) :
  sum_upto n (fun i => k * f i) = k * sum_upto n f.
Proof.
  induction n as [|n IH]; [cbv; lra|]. rewrite !rsum_S, IH. lra.
Qed.

Lemma rsum_scal_r n k (f : nat -> R) :
  sum_upto n (fun i => f i * k) = sum_upto n f * k.
Proof.
  induction n as [|n IH]; [cbv; lra|]. rewrite !rsum_S, IH. lra.
Qed.

Lemma rsum_const n a : sum_upto n (fun _ => a) = INR n * a.
Proof.
  induction n as [|n IH]; [cbv; lra|]. rewrite rsum_S, IH, S_INR. lra.
Qed.

Lemma rsum_single n j (f : nat -> R) :
  (j < n)%nat -> sum_upto n (fun i => if i =? j then f i else 0) = f j.
Proof.
  induction n as [|n IH]; intros Hj; [lia|].
  rewrite rsum_S. destruct (Nat.eqb_spec n j) as [->|Hne].
  - rewrite (sum_upto_ext j _ (fun _ => 0)), rsum_zero; [lra|].
    intros i Hi. destruct (Nat.eqb_spec i j); [lia | reflexivity].
  - rewrite IH by lia. lra.
Qed.

Lemma rsum_nonneg n (f : nat -> R) :
  (forall i, 0 <= f i) -> 0 <= sum_upto n f.
Proof.
  intros Hf. induction n as [|n IH]; [cbv; lra|].
  rewrite rsum_S. specialize (Hf n). lra.
Qed.

(** ** Derivatives, in pointwise form *)

Lemma D_eq (f : R -> R) x l l' :
  derivable_pt_lim f x l -> l = l' -> derivable_pt_lim f x l'.
Proof. intros Hd <-. exact Hd. Qed.

Lemma D_const a x : derivable_pt_lim (fun _ => a) x 0.
Proof. apply (derivable_pt_lim_const a x). Qed.

Lemma D_id x : derivable_pt_lim (fun t => t) x 1.
Proof. apply (derivable_pt_lim_id x). Qed.

Lemma D_plus (f g : R -> R) x l1 l2 :
  derivable_pt_lim f x l1 -> derivable_pt_lim g x l2 ->
  derivable_pt_lim (fun t => f t + g t) x (l1 + l2).
Proof. intros Hf Hg. apply (derivable_pt_lim_plus f g x l1 l2 Hf Hg). Qed.

Lemma D_minus (f g : R -> R) x l1 l2 :
  derivable_pt_lim f x l1 -> derivable_pt_lim g x l2 ->
  derivable_pt_lim (fun t => f t - g t) x (l1 - l2).
Proof. intros Hf Hg. apply (derivable_pt_lim_minus f g x l1 l2 Hf Hg). Qed.

Lemma D_mult (f g : R -> R) x l1 l2 :
  derivable_pt_lim f x l1 -> derivable_pt_lim g x l2 ->
  derivable_pt_lim (fun t => f t * g t) x (l1 * g x + f x * l2).
Proof. intros Hf Hg. apply (derivable_pt_lim_mult f g x l1 l2 Hf Hg). Qed.

Lemma D_div (f g : R -> R) x l1 l2 :
  derivable_pt_lim f x l1 -> derivable_pt_lim g x l2 -> g x <> 0 ->
  derivable_pt_lim (fun t => f t / g t) x ((l1 * g x - l2 * f x) / Rsqr (g x)).
Proof. intros Hf Hg Hn. apply (derivable_pt_lim_div f g x l1 l2 Hf Hg Hn). Qed.

Lemma D_sqrt (f : R -> R) x l :
  derivable_pt_lim f x l -> 0 < f x ->
  derivable_pt_lim (fun t => R_sqrt.sqrt (f t)) x (/ (2 * R_sqrt.sqrt (f x)) * l).
Proof.
  intros Hf Hp.
  apply (derivable_pt_lim_comp f R_sqrt.sqrt x l _ Hf).
  apply derivable_pt_lim_sqrt. exact Hp.
Qed.

Lemma D_sum n (f : nat -> R -> R) (d : nat -> R) x :
  (forall i, (i < n)%nat -> derivable_pt_lim (f i) x (d i)) ->
  derivable_pt_lim (fun t => sum_upto n (fun i => f i t)) x (sum_upto n d).
Proof.
  induction n as [|n IH]; intros Hf.
  - apply (D_const 0 x).
  - apply (derivable_pt_lim_ext
             (fun t => sum_upto n (fun i => f i t) + f n t)).
    + intros t. rewrite rsum_S. reflexivity.
    + rewrite rsum_S. apply D_plus; [apply IH; intros; apply Hf; lia | apply Hf; lia].
Qed.

Lemma D_sum4 N C Hh W (f : nat -> nat -> nat -> nat -> R -> R)
  (d : nat -> nat -> nat -> nat -> R) x :
  (forall n c h w, (n < N)%nat -> (c < C)%nat -> (h < Hh)%nat -> (w < W)%nat ->
     derivable_pt_lim (f n c h w) x (d n c h w)) ->
  derivable_pt_lim
    (fun t => sum_upto N (fun n => sum_upto C (fun c => sum_upto Hh (fun h =>
       sum_upto W (fun w => f n c h w t))))) x
    (sum_upto N (fun n => sum_upto C (fun c => sum_upto Hh (fun h =>
       sum_upto W (fun w => d n c h w))))).
Proof.
  intros Hf.
  apply (D_sum N (fun n t => sum_upto C (fun c => sum_upto Hh (fun h =>
                    sum_upto W (fun w => f n c h w t))))
               (fun n => sum_upto C (fun c => sum_upto Hh (fun h =>
                    sum_upto W (fun w => d n c h w))))).
  intros n Hn.
  apply (D_sum C (fun c t => sum_upto Hh (fun h =>
                    sum_upto W (fun w => f n c h w t)))
               (fun c => sum_upto Hh (fun h => sum_upto W (fun w => d n c h w)))).
  intros c Hc.
  apply (D_sum Hh (fun h t => sum_upto W (fun w => f n c h w t))
               (fun h => sum_upto W (fun w => d n c h w))).
  intros h Hh'.
  apply (D_sum W (fun w t => f n c h w t) (fun w => d n c h w)).
  intros w Hw. apply Hf; assumption.
Qed.

(** ** One spatial position: the [C] channel values [xs], varied at channel [j] *)

Lemma rmean_eq C (f : nat -> R) : channel_mean C f = sum_upto C f / INR C.
Proof. reflexivity. Qed.

Lemma rvar_eq C (f : nat -> R) :
  channel_var C f
  = sum_upto C (fun c => (f c - channel_mean C f) * (f c - channel_mean C f))
    / INR C.
Proof. reflexivity. Qed.

Lemma rnormalized_eq C eps (f : nat -> R) c :
  normalized C eps f c
  = (f c - channel_mean C f) / R_sqrt.sqrt (channel_var C f + eps).
Proof. reflexivity. Qed.

Lemma rmean_ext C (f g : nat -> R) :
  (forall c, (c < C)%nat -> f c = g c) -> channel_mean C f = channel_mean C g.
Proof. intros E. rewrite !rmean_eq, (sum_upto_ext C f g E). reflexivity. Qed.

Lemma rvar_ext C (f g : nat -> R) :
  (forall c, (c < C)%nat -> f c = g c) -> channel_var C f = channel_var C g.
Proof.
  intros E. rewrite !rvar_eq, (rmean_ext C f g E). f_equal.
  apply sum_upto_ext. intros c Hc. rewrite (E c Hc). reflexivity.
Qed.

Lemma rnormalized_ext C eps (f g : nat -> R) c :
  (forall c', (c' < C)%nat -> f c' = g c') -> (c < C)%nat ->
  normalized C eps f c = normalized C eps g c.
Proof.
  intros E Hc.
  rewrite !rnormalized_eq, (rmean_ext C f g E), (rvar_ext C f g E), (E c Hc).
  reflexivity.
Qed.

Lemma rvar_nonneg C (f : nat -> R) : (0 < C)%nat -> 0 <= channel_var C f.
Proof.
  intros HC. rewrite rvar_eq.
  apply Rmult_le_pos.
  - apply rsum_nonneg. intros i. apply Rle_0_sqr.
  - left. apply Rinv_0_lt_compat. apply lt_0_INR. exact HC.
Qed.

Section Position.

Variables (C j : nat) (xs : nat -> R) (eps : R).
Hypothesis Hj : (j < C)%nat.
Hypothesis Hpos : 0 < channel_var C xs + eps.

Lemma INR_C_pos : 0 < INR C.
Proof. apply lt_0_INR. lia. Qed.

Lemma sdev_pos : 0 < R_sqrt.sqrt (channel_var C xs + eps).
Proof. apply sqrt_lt_R0. exact Hpos. Qed.

Lemma upd_self c : upd xs j (xs j) c = xs c.
Proof. unfold upd. destruct (Nat.eqb_spec c j) as [->|]; reflexivity. Qed.

Lemma mean_upd_self : channel_mean C (upd xs j (xs j)) = channel_mean C xs.
Proof. apply rmean_ext. intros c _. apply upd_self. Qed.

Lemma var_upd_self : channel_var C (upd xs j (xs j)) = channel_var C xs.
Proof. apply rvar_ext. intros c _. apply upd_self. Qed.

Lemma dev_sum_zero :
  sum_upto C (fun c => xs c - channel_mean C xs) = 0.
Proof.
  rewrite rsum_minus, rsum_const, rmean_eq.
  pose proof INR_C_pos. field. lra.
Qed.

Lemma D_upd c :
  derivable_pt_lim (fun t => upd xs j t c) (xs j) (if c =? j then 1 else 0).
Proof.
  unfold upd. destruct (c =? j); [apply D_id | apply D_const].
Qed.

Lemma D_mean :
  derivable_pt_lim (fun t => channel_mean C (upd xs j t)) (xs j) (/ INR C).
Proof.
  apply (derivable_pt_lim_ext
           (fun t => sum_upto C (fun c => upd xs j t c) * / INR C)).
  { intros t. reflexivity. }
  eapply D_eq.
  - apply D_mult; [apply D_sum; intros c _; apply D_upd | apply D_const].
  - cbv beta. rewrite (rsum_single C j (fun _ => 1) Hj). lra.
Qed.

Lemma D_dev c :
  derivable_pt_lim (fun t => upd xs j t c - channel_mean C (upd xs j t)) (xs j)
    ((if c =? j then 1 else 0) - / INR C).
Proof. apply D_minus; [apply D_upd | apply D_mean]. Qed.

Lemma D_var :
  derivable_pt_lim (fun t => channel_var C (upd xs j t)) (xs j)
    (2 * (xs j - channel_mean C xs) / INR C).
Proof.
  apply (derivable_pt_lim_ext
           (fun t => sum_upto C (fun c =>
                       (upd xs j t c - channel_mean C (upd xs j t))
                       * (upd xs j t c - channel_mean C (upd xs j t)))
                     * / INR C)).
  { intros t. reflexivity. }
  eapply D_eq.
  - apply D_mult; [|apply D_const].
    apply D_sum. intros c _. apply D_mult; apply D_dev.
  - cbv beta. rewrite mean_upd_self.
    rewrite (sum_upto_ext C _
               (fun c => (if c =? j then 2 * (xs c - channel_mean C xs) else 0)
                         - 2 * / INR C * (xs c - channel_mean C xs))).
    2:{ intros c _. rewrite upd_self. destruct (c =? j); ring. }
    rewrite rsum_minus, (rsum_single C j _ Hj), rsum_scal, dev_sum_zero.
    pose proof INR_C_pos. field. lra.
Qed.

Lemma D_sdev :
  derivable_pt_lim (fun t => R_sqrt.sqrt (channel_var C (upd xs j t) + eps)) (xs j)
    ((xs j - channel_mean C xs)
     / (INR C * R_sqrt.sqrt (channel_var C xs + eps))).
Proof.
  eapply D_eq.
  - apply (D_sqrt (fun t => channel_var C (upd xs j t) + eps)).
    + apply D_plus; [apply D_var | apply D_const].
    + cbv beta. rewrite var_upd_self. exact Hpos.
  - cbv beta. rewrite var_upd_self.
    pose proof INR_C_pos. pose proof sdev_pos. field. lra.
Qed.

Lemma D_normalized c :
  derivable_pt_lim (fun t => normalized C eps (upd xs j t) c) (xs j)
    (((if c =? j then 1 else 0) - / INR C)
     / R_sqrt.sqrt (channel_var C xs + eps)
     - (xs c - channel_mean C xs) * (xs j - channel_mean C xs)
       / (INR C * (R_sqrt.sqrt (channel_var C xs + eps)
                   * R_sqrt.sqrt (channel_var C xs + eps)
                   * R_sqrt.sqrt (channel_var C xs + eps)))).
Proof.
  apply (derivable_pt_lim_ext
           (fun t => (upd xs j t c - channel_mean C (upd xs j t))
                     / R_sqrt.sqrt (channel_var C (upd xs j t) + eps))).
  { intros t. reflexivity. }
  eapply D_eq.
  - apply D_div; [apply D_dev | apply D_sdev|].
    rewrite var_upd_self. pose proof sdev_pos. lra.
  - cbv beta. rewrite var_upd_self, mean_upd_self, upd_self. unfold Rsqr.
    pose proof INR_C_pos. pose proof sdev_pos. field. lra.
Qed.

(** The contraction of the Jacobian of [normalized] with [g] is the
    expression [backward] computes. *)
Lemma normalized_vjp (g : nat -> R) :
  sum_upto C (fun c =>
    g c * (((if c =? j then 1 else 0) - / INR C)
           / R_sqrt.sqrt (channel_var C xs + eps)
           - (xs c - channel_mean C xs) * (xs j - channel_mean C xs)
             / (INR C * (R_sqrt.sqrt (channel_var C xs + eps)
                         * R_sqrt.sqrt (channel_var C xs + eps)
                         * R_sqrt.sqrt (channel_var C xs + eps)))))
  = 1 / R_sqrt.sqrt (channel_var C xs + eps)
    * (g j
       - normalized C eps xs j
         * channel_mean C (fun c => g c * normalized C eps xs c)
       - channel_mean C g).
Proof.
  pose proof INR_C_pos as HC. pose proof sdev_pos as Hs.
  set (s := R_sqrt.sqrt (channel_var C xs + eps)) in *.
  set (m := channel_mean C xs).
  rewrite (sum_upto_ext C _
             (fun c => (if c =? j then g c / s else 0)
                       - / (INR C * s) * g c
                       - (xs j - m) / (INR C * (s * s * s))
                         * (g c * (xs c - m)))).
  2:{ intros c _. destruct (c =? j); field; lra. }
  rewrite !rsum_minus, (rsum_single C j (fun c => g c / s) Hj), !rsum_scal.
  rewrite (rmean_eq C g), (rmean_eq C (fun c => g c * normalized C eps xs c)).
  rewrite (sum_upto_ext C (fun c => g c * normalized C eps xs c)
             (fun c => / s * (g c * (xs c - m)))).
  2:{ intros c _. rewrite rnormalized_eq. fold m. fold s. field. lra. }
  rewrite rsum_scal, rnormalized_eq. fold m. fold s.
  field. lra.
Qed.

End Position.

(** ** Sums in which one index is fixed *)

Lemma rsum_if_out n (b : bool) (f : nat -> R) :
  sum_upto n (fun i => if b then f i else 0)
  = if b then sum_upto n f else 0.
Proof. destruct b; [reflexivity | apply rsum_zero]. Qed.

Lemma rsum4_position N C Hh W n h w (A : nat -> R) :
  (n < N)%nat -> (h < Hh)%nat -> (w < W)%nat ->
  sum_upto N (fun n' => sum_upto C (fun c => sum_upto Hh (fun h' =>
    sum_upto W (fun w' =>
      if n' =? n then if h' =? h then if w' =? w then A c else 0 else 0 else 0))))
  = sum_upto C A.
Proof.
  intros Hn Hh' Hw.
  rewrite (sum_upto_ext N _ (fun n' => if n' =? n then sum_upto C A else 0)).
  - apply (rsum_single N n (fun _ => sum_upto C A) Hn).
  - intros n' _. rewrite <- rsum_if_out.
    apply sum_upto_ext. intros c _.
    rewrite (sum_upto_ext Hh _
               (fun h' => if n' =? n then if h' =? h then A c else 0 else 0)).
    + rewrite rsum_if_out.
      rewrite (rsum_single Hh h (fun _ => A c) Hh'). reflexivity.
    + intros h' _. rewrite rsum_if_out.
      destruct (n' =? n); [|reflexivity].
      rewrite rsum_if_out.
      destruct (h' =? h); [|reflexivity].
      apply (rsum_single W w (fun _ => A c) Hw).
Qed.

Lemma rsum4_channel N C Hh W c0 (B : nat -> nat -> nat -> nat -> R) :
  (c0 < C)%nat ->
  sum_upto N (fun n => sum_upto C (fun c => sum_upto Hh (fun h =>
    sum_upto W (fun w => if c =? c0 then B n c h w else 0))))
  = sum_upto N (fun n => sum_upto Hh (fun h => sum_upto W (fun w => B n c0 h w))).
Proof.
  intros Hc. apply sum_upto_ext. intros n _.
  rewrite (sum_upto_ext C _
             (fun c => if c =? c0
                       then sum_upto Hh (fun h => sum_upto W (fun w => B n c h w))
                       else 0)).
  - apply (rsum_single C c0
             (fun c => sum_upto Hh (fun h => sum_upto W (fun w => B n c h w))) Hc).
  - intros c _. rewrite <- rsum_if_out. apply sum_upto_ext. intros h _.
    apply rsum_if_out.
Qed.

(** ** The contracted output as a function of the inputs *)

Lemma weighted_output_eq (x weight bias go : tensor R) eps N C Hh W :
  shape x = [N; C; Hh; W] -> shape weight = [C] -> shape bias = [C] ->
  weighted_output go N C Hh W (LayerNormFunction_forward x weight bias eps)
  = sum_upto N (fun n => sum_upto C (fun c => sum_upto Hh (fun h =>
      sum_upto W (fun w =>
        get go [n; c; h; w]
        * (get weight [c]
           * normalized C eps (fun c' => get x [n; c'; h; w]) c
           + get bias [c]))))).
Proof.
  intros Ex Ew Eb.
  destruct (LayerNormFunction_forward_char x weight bias eps N C Hh W Ex Ew Eb)
    as (ctx & y & Hf & _ & _ & _ & _ & _ & _ & _ & _ & Hg).
  rewrite Hf. unfold weighted_output.
  apply sum_upto_ext. intros n Hn. apply sum_upto_ext. intros c Hc.
  apply sum_upto_ext. intros h Hh'. apply sum_upto_ext. intros w Hw.
  destruct (Hg n c h w Hn Hc Hh' Hw) as (_ & _ & Gy).
  rewrite Gy. reflexivity.
Qed.

Lemma get_tset_x (x : tensor R) N C Hh W n j h w t n' c' h' w' :
  shape x = [N; C; Hh; W] ->
  (n' < N)%nat -> (c' < C)%nat -> (h' < Hh)%nat -> (w' < W)%nat ->
  get (tset x [n; j; h; w] t) [n'; c'; h'; w']
  = if (n' =? n) && (h' =? h) && (w' =? w)
    then upd (fun c => get x [n'; c; h'; w']) j t c'
    else get x [n'; c'; h'; w'].
Proof.
  intros Ex Hn Hc Hh' Hw.
  rewrite get_tset by (rewrite Ex; apply in_range4; assumption).
  unfold upd.
  destruct (list_eq_dec Nat.eq_dec [n'; c'; h'; w'] [n; j; h; w]) as [E|E].
  - injection E as -> -> -> ->. rewrite !Nat.eqb_refl. reflexivity.
  - destruct (Nat.eqb_spec n' n) as [->|]; [|reflexivity].
    destruct (Nat.eqb_spec h' h) as [->|]; [|reflexivity].
    destruct (Nat.eqb_spec w' w) as [->|]; [|reflexivity].
    cbn [andb]. destruct (Nat.eqb_spec c' j) as [->|]; [|reflexivity].
    exfalso. apply E. reflexivity.
Qed.

Lemma get_tset_vec (v : tensor R) C c0 t c :
  shape v = [C] -> (c < C)%nat ->
  get (tset v [c0] t) [c] = if c =? c0 then t else get v [c].
Proof.
  intros Ev Hc.
  rewrite get_tset by (rewrite Ev; in_range_tac; assumption).
  destruct (list_eq_dec Nat.eq_dec [c] [c0]) as [E|E].
  - injection E as ->. rewrite Nat.eqb_refl. reflexivity.
  - destruct (Nat.eqb_spec c c0) as [->|]; [|reflexivity].
    exfalso. apply E. reflexivity.
Qed.

(** ** The three partial derivatives *)

Section Derivatives.

Variables (x weight bias go : tensor R) (eps : R) (N C Hh W : nat).
Hypothesis Ex : shape x = [N; C; Hh; W].
Hypothesis Ew : shape weight = [C].
Hypothesis Eb : shape bias = [C].

Lemma D_weighted_output_x n j h w :
  (n < N)%nat -> (j < C)%nat -> (h < Hh)%nat -> (w < W)%nat ->
  let xs := fun c => get x [n; c; h; w] in
  0 < channel_var C xs + eps ->
  derivable_pt_lim
    (fun t => weighted_output go N C Hh W
                (LayerNormFunction_forward (tset x [n; j; h; w] t) weight bias eps))
    (get x [n; j; h; w])
    (sum_upto C (fun c =>
       get go [n; c; h; w] * get weight [c]
       * (((if c =? j then 1 else 0) - / INR C)
          / R_sqrt.sqrt (channel_var C xs + eps)
          - (xs c - channel_mean C xs) * (xs j - channel_mean C xs)
            / (INR C * (R_sqrt.sqrt (channel_var C xs + eps)
                        * R_sqrt.sqrt (channel_var C xs + eps)
                        * R_sqrt.sqrt (channel_var C xs + eps)))))).
Proof.
  intros Hn Hj Hh' Hw xs Hpos.
  set (dn := fun c =>
         ((if c =? j then 1 else 0) - / INR C)
         / R_sqrt.sqrt (channel_var C xs + eps)
         - (xs c - channel_mean C xs) * (xs j - channel_mean C xs)
           / (INR C * (R_sqrt.sqrt (channel_var C xs + eps)
                       * R_sqrt.sqrt (channel_var C xs + eps)
                       * R_sqrt.sqrt (channel_var C xs + eps)))).
  apply (derivable_pt_lim_ext
           (fun t => sum_upto N (fun n' => sum_upto C (fun c => sum_upto Hh (fun h' =>
              sum_upto W (fun w' =>
                get go [n'; c; h'; w']
                * (get weight [c]
                   * normalized C eps
                       (fun c' => get (tset x [n; j; h; w] t) [n'; c'; h'; w']) c
                   + get bias [c]))))))).
  { intros t. symmetry. apply weighted_output_eq; assumption. }
  eapply D_eq.
  - apply (D_sum4 N C Hh W
             (fun n' c h' w' t =>
                get go [n'; c; h'; w']
                * (get weight [c]
                   * normalized C eps
                       (fun c' => get (tset x [n; j; h; w] t) [n'; c'; h'; w']) c
                   + get bias [c]))
             (fun n' c h' w' =>
                if n' =? n then if h' =? h then if w' =? w
                then get go [n; c; h; w] * get weight [c] * dn c
                else 0 else 0 else 0)).
    intros n' c h' w' Hn' Hc Hh'' Hw'. cbv beta.
    destruct (Nat.eqb_spec n' n) as [->|Nn].
    + destruct (Nat.eqb_spec h' h) as [->|Nh].
      * destruct (Nat.eqb_spec w' w) as [->|Nw].
        -- apply (derivable_pt_lim_ext
                    (fun t => get go [n; c; h; w]
                              * (get weight [c] * normalized C eps (upd xs j t) c
                                 + get bias [c]))).
           { intros t. f_equal. f_equal. f_equal.
             apply rnormalized_ext; [|assumption].
             intros c' Hc'.
             rewrite (get_tset_x x N C Hh W n j h w t n c' h w Ex)
               by assumption.
             rewrite !Nat.eqb_refl. reflexivity. }
           eapply D_eq.
           ++ apply D_mult; [apply D_const|].
              apply D_plus; [|apply D_const].
              apply D_mult; [apply D_const|].
              apply (D_normalized C j xs eps Hj Hpos c).
           ++ cbv beta. subst dn. cbv beta. ring.
        -- apply (derivable_pt_lim_ext
                    (fun _ => get go [n; c; h; w']
                              * (get weight [c]
                                 * normalized C eps
                                     (fun c' => get x [n; c'; h; w']) c
                                 + get bias [c]))); [|apply D_const].
           intros t. f_equal. f_equal. f_equal.
           apply rnormalized_ext; [|assumption].
           intros c' Hc'.
           rewrite (get_tset_x x N C Hh W n j h w t n c' h w' Ex) by assumption.
           destruct (Nat.eqb_spec w' w); [contradiction|].
           rewrite !andb_false_r. reflexivity.
      * apply (derivable_pt_lim_ext
                 (fun _ => get go [n; c; h'; w']
                           * (get weight [c]
                              * normalized C eps
                                  (fun c' => get x [n; c'; h'; w']) c
                              + get bias [c]))); [|apply D_const].
        intros t. f_equal. f_equal. f_equal.
        apply rnormalized_ext; [|assumption].
        intros c' Hc'.
        rewrite (get_tset_x x N C Hh W n j h w t n c' h' w' Ex) by assumption.
        destruct (Nat.eqb_spec h' h); [contradiction|].
        rewrite andb_false_r. reflexivity.
    + apply (derivable_pt_lim_ext
               (fun _ => get go [n'; c; h'; w']
                         * (get weight [c]
                            * normalized C eps
                                (fun c' => get x [n'; c'; h'; w']) c
                            + get bias [c]))); [|apply D_const].
      intros t. f_equal. f_equal. f_equal.
      apply rnormalized_ext; [|assumption].
      intros c' Hc'.
      rewrite (get_tset_x x N C Hh W n j h w t n' c' h' w' Ex) by assumption.
      destruct (Nat.eqb_spec n' n); [contradiction|]. reflexivity.
  - cbv beta.
    apply (rsum4_position N C Hh W n h w
             (fun c => get go [n; c; h; w] * get weight [c] * dn c) Hn Hh' Hw).
Qed.

Lemma D_weighted_output_weight c0 :
  (c0 < C)%nat ->
  derivable_pt_lim
    (fun t => weighted_output go N C Hh W
                (LayerNormFunction_forward x (tset weight [c0] t) bias eps))
    (get weight [c0])
    (sum_upto N (fun n => sum_upto Hh (fun h => sum_upto W (fun w =>
       get go [n; c0; h; w]
       * normalized C eps (fun c' => get x [n; c'; h; w]) c0)))).
Proof.
  intros Hc0.
  apply (derivable_pt_lim_ext
           (fun t => sum_upto N (fun n => sum_upto C (fun c => sum_upto Hh (fun h =>
              sum_upto W (fun w =>
                get go [n; c; h; w]
                * (get (tset weight [c0] t) [c]
                   * normalized C eps (fun c' => get x [n; c'; h; w]) c
                   + get bias [c]))))))).
  { intros t. symmetry. apply weighted_output_eq; assumption. }
  eapply D_eq.
  - apply (D_sum4 N C Hh W
             (fun n c h w t =>
                get go [n; c; h; w]
                * (get (tset weight [c0] t) [c]
                   * normalized C eps (fun c' => get x [n; c'; h; w]) c
                   + get bias [c]))
             (fun n c h w =>
                if c =? c0
                then get go [n; c; h; w]
                     * normalized C eps (fun c' => get x [n; c'; h; w]) c
                else 0)).
    intros n c h w Hn Hc Hh' Hw. cbv beta.
    apply (derivable_pt_lim_ext
             (fun t => get go [n; c; h; w]
                       * ((if c =? c0 then t else get weight [c])
                          * normalized C eps (fun c' => get x [n; c'; h; w]) c
                          + get bias [c]))).
    { intros t. rewrite (get_tset_vec weight C c0 t c Ew Hc). reflexivity. }
    destruct (c =? c0).
    + eapply D_eq.
      * apply D_mult; [apply D_const|].
        apply D_plus; [|apply D_const].
        apply D_mult; [apply D_id | apply D_const].
      * cbv beta. ring.
    + apply D_const.
  - cbv beta.
    apply (rsum4_channel N C Hh W c0
             (fun n c h w => get go [n; c; h; w]
                             * normalized C eps (fun c' => get x [n; c'; h; w]) c)
             Hc0).
Qed.

Lemma D_weighted_output_bias c0 :
  (c0 < C)%nat ->
  derivable_pt_lim
    (fun t => weighted_output go N C Hh W
                (LayerNormFunction_forward x weight (tset bias [c0] t) eps))
    (get bias [c0])
    (sum_upto N (fun n => sum_upto Hh (fun h => sum_upto W (fun w =>
       get go [n; c0; h; w])))).
Proof.
  intros Hc0.
  apply (derivable_pt_lim_ext
           (fun t => sum_upto N (fun n => sum_upto C (fun c => sum_upto Hh (fun h =>
              sum_upto W (fun w =>
                get go [n; c; h; w]
                * (get weight [c]
                   * normalized C eps (fun c' => get x [n; c'; h; w]) c
                   + get (tset bias [c0] t) [c]))))))).
  { intros t. symmetry. apply weighted_output_eq; assumption. }
  eapply D_eq.
  - apply (D_sum4 N C Hh W
             (fun n c h w t =>
                get go [n; c; h; w]
                * (get weight [c]
                   * normalized C eps (fun c' => get x [n; c'; h; w]) c
                   + get (tset bias [c0] t) [c]))
             (fun n c h w => if c =? c0 then get go [n; c; h; w] else 0)).
    intros n c h w Hn Hc Hh' Hw. cbv beta.
    apply (derivable_pt_lim_ext
             (fun t => get go [n; c; h; w]
                       * (get weight [c]
                          * normalized C eps (fun c' => get x [n; c'; h; w]) c
                          + (if c =? c0 then t else get bias [c])))).
    { intros t. rewrite (get_tset_vec bias C c0 t c Eb Hc). reflexivity. }
    destruct (c =? c0).
    + eapply D_eq.
      * apply D_mult; [apply D_const|].
        apply D_plus; [apply D_const | apply D_id].
      * cbv beta. ring.
    + apply D_const.
  - cbv beta.
    apply (rsum4_channel N C Hh W c0 (fun n c h w => get go [n; c; h; w]) Hc0).
Qed.

End Derivatives.

(** C4: the three tensors [backward] returns are the partial derivatives,
    with respect to each entry of [x], [weight] and [bias], of the forward
    output contracted with the upstream gradient; they are computed by the
    formulas [1/sqrt(var+eps) * (g - y * mean_C(g*y) - mean_C(g))] with
    [g = grad_output * weight], [sum over n, h, w of grad_output * y] and
    [sum over n, h, w of grad_output].  The derivative with respect to [x]
    is taken where the saved [var + eps] is positive, which is everywhere
    when [eps > 0]. *)
Theorem LayerNormFunction_backward_is_gradient
  (x weight bias go : tensor R) (eps : R) (N C Hh W : nat) :
  shape x = [N; C; Hh; W] -> shape weight = [C] -> shape bias = [C] ->
  shape go = [N; C; Hh; W] ->
  exists ctx y gx gw gb,
    LayerNormFunction_forward x weight bias eps = Some (ctx, y)
    /\ LayerNormFunction_backward ctx go = Some (gx, gw, gb)
    /\ shape gx = [N; C; Hh; W] /\ shape gw = [C] /\ shape gb = [C]
    /\ (0 < eps -> (0 < C)%nat ->
        forall n h w, (n < N)%nat -> (h < Hh)%nat -> (w < W)%nat ->
          0 < get (saved_var ctx) [n; 0%nat; h; w] + eps)
    /\ (forall n j h w, (n < N)%nat -> (j < C)%nat -> (h < Hh)%nat -> (w < W)%nat ->
          let yv := fun c => get (saved_y ctx) [n; c; h; w] in
          let g := fun c => get go [n; c; h; w] * get weight [c] in
          get gx [n; j; h; w]
          = 1 / R_sqrt.sqrt (get (saved_var ctx) [n; 0%nat; h; w] + eps)
            * (g j - yv j * channel_mean C (fun c => g c * yv c) - channel_mean C g)
          /\ (0 < get (saved_var ctx) [n; 0%nat; h; w] + eps ->
              derivable_pt_lim
               (fun t => weighted_output go N C Hh W
                           (LayerNormFunction_forward (tset x [n; j; h; w] t)
                              weight bias eps))
               (get x [n; j; h; w]) (get gx [n; j; h; w])))
    /\ (forall c, (c < C)%nat ->
          get gw [c]
          = sum_upto N (fun n => sum_upto Hh (fun h => sum_upto W (fun w =>
              get go [n; c; h; w] * get (saved_y ctx) [n; c; h; w])))
          /\ derivable_pt_lim
               (fun t => weighted_output go N C Hh W
                           (LayerNormFunction_forward x (tset weight [c] t)
                              bias eps))
               (get weight [c]) (get gw [c]))
    /\ (forall c, (c < C)%nat ->
          get gb [c]
          = sum_upto N (fun n => sum_upto Hh (fun h => sum_upto W (fun w =>
              get go [n; c; h; w])))
          /\ derivable_pt_lim
               (fun t => weighted_output go N C Hh W
                           (LayerNormFunction_forward x weight (tset bias [c] t)
                              eps))
               (get bias [c]) (get gb [c])).
Proof.
  intros Ex Ew Eb Eg.
  destruct (LayerNormFunction_forward_char x weight bias eps N C Hh W Ex Ew Eb)
    as (ctx & y & Hf & Ceps & Cw & Sy & Wy & Sv & Wv & _ & _ & Hg).
  assert (Sw : shape (saved_weight ctx) = [C]) by (rewrite Cw; exact Ew).
  destruct (LayerNormFunction_backward_char ctx go N C Hh W Sy Sv Wv Sw Eg)
    as (gx & gw & gb & Hb & Sgx & Sgw & Sgb & Gx & Gw & Gb).
  exists ctx, y, gx, gw, gb.
  split; [exact Hf|]. split; [exact Hb|].
  split; [exact Sgx|]. split; [exact Sgw|]. split; [exact Sgb|].
  assert (Ey : forall n c h w,
             (n < N)%nat -> (c < C)%nat -> (h < Hh)%nat -> (w < W)%nat ->
             get (saved_y ctx) [n; c; h; w]
             = normalized C eps (fun c' => get x [n; c'; h; w]) c).
  { intros n c h w Hn Hc Hh' Hw.
    destruct (Hg n c h w Hn Hc Hh' Hw) as (_ & E & _). exact E. }
  assert (Ev : forall n c h w,
             (n < N)%nat -> (c < C)%nat -> (h < Hh)%nat -> (w < W)%nat ->
             get (saved_var ctx) [n; 0%nat; h; w]
             = channel_var C (fun c' => get x [n; c'; h; w])).
  { intros n c h w Hn Hc Hh' Hw.
    destruct (Hg n c h w Hn Hc Hh' Hw) as (E & _ & _). exact E. }
  split.
  { intros Heps HC n h w Hn Hh' Hw.
    rewrite (Ev n 0%nat h w Hn HC Hh' Hw).
    pose proof (rvar_nonneg C (fun c' => get x [n; c'; h; w]) HC).
    lra. }
  split; [|split].
  - intros n j h w Hn Hj Hh' Hw yv g.
    assert (Eform : get gx [n; j; h; w]
                    = 1 / R_sqrt.sqrt (get (saved_var ctx) [n; 0%nat; h; w] + eps)
                      * (g j - yv j * channel_mean C (fun c => g c * yv c)
                         - channel_mean C g)).
    { rewrite (Gx n j h w Hn Hj Hh' Hw). rewrite Ceps, Cw. reflexivity. }
    split; [exact Eform|].
    intros Hpos. rewrite (Ev n j h w Hn Hj Hh' Hw) in Hpos.
    rewrite Eform.
    eapply D_eq.
    + apply (D_weighted_output_x x weight bias go eps N C Hh W Ex Ew Eb
               n j h w Hn Hj Hh' Hw Hpos).
    + cbv zeta.
      etransitivity;
        [exact (normalized_vjp C j (fun c => get x [n; c; h; w]) eps Hj Hpos g)|].
      rewrite (Ev n j h w Hn Hj Hh' Hw).
      subst yv. cbv beta. rewrite (Ey n j h w Hn Hj Hh' Hw).
      f_equal. f_equal. f_equal. f_equal.
      apply rmean_ext. intros c Hc. rewrite (Ey n c h w Hn Hc Hh' Hw).
      reflexivity.
  - intros c Hc.
    assert (Eform : get gw [c]
                    = sum_upto N (fun n => sum_upto Hh (fun h => sum_upto W (fun w =>
                        get go [n; c; h; w] * get (saved_y ctx) [n; c; h; w])))).
    { apply (Gw c Hc). }
    split; [exact Eform|].
    rewrite Eform.
    eapply D_eq.
    + apply (D_weighted_output_weight x weight bias go eps N C Hh W Ex Ew Eb c Hc).
    + apply sum_upto_ext. intros n Hn. apply sum_upto_ext. intros h Hh'.
      apply sum_upto_ext. intros w Hw.
      rewrite (Ey n c h w Hn Hc Hh' Hw). reflexivity.
  - intros c Hc.
    assert (Eform : get gb [c]
                    = sum_upto N (fun n => sum_upto Hh (fun h => sum_upto W (fun w =>
                        get go [n; c; h; w])))).
    { apply (Gb c Hc). }
    split; [exact Eform|].
    rewrite Eform.
    apply (D_weighted_output_bias x weight bias go eps N C Hh W Ex Ew Eb c Hc).
Qed.


(** ** Invariants of the normalisation, over the reals *)

Lemma rdev_sum_zero C (xs : nat -> R) :
  (0 < C)%nat -> sum_upto C (fun c => xs c - channel_mean C xs) = 0.
Proof.
  intros HC. rewrite rsum_minus, rsum_const, rmean_eq.
  assert (0 < INR C) by (apply lt_0_INR; exact HC).
  field. lra.
Qed.

Lemma rnormalized_sum_zero C eps (xs : nat -> R) :
  (0 < C)%nat -> sum_upto C (normalized C eps xs) = 0.
Proof.
  intros HC.
  rewrite (sum_upto_ext C _
             (fun c => (xs c - channel_mean C xs)
                       * / R_sqrt.sqrt (channel_var C xs + eps)))
    by (intros c _; reflexivity).
  rewrite rsum_scal_r, rdev_sum_zero by exact HC. lra.
Qed.

Lemma rmean_shift C (xs : nat -> R) k :
  (0 < C)%nat ->
  channel_mean C (fun c => xs c + k) = channel_mean C xs + k.
Proof.
  intros HC. rewrite !rmean_eq, rsum_plus, rsum_const.
  assert (0 < INR C) by (apply lt_0_INR; exact HC).
  field. lra.
Qed.

Lemma rvar_shift C (xs : nat -> R) k :
  (0 < C)%nat ->
  channel_var C (fun c => xs c + k) = channel_var C xs.
Proof.
  intros HC. rewrite !rvar_eq, rmean_shift by exact HC. f_equal.
  apply sum_upto_ext. intros c _. ring.
Qed.

Lemma rnormalized_shift C eps (xs : nat -> R) k c :
  (0 < C)%nat ->
  normalized C eps (fun c' => xs c' + k) c = normalized C eps xs c.
Proof.
  intros HC. rewrite !rnormalized_eq, rmean_shift, rvar_shift by exact HC.
  f_equal. ring.
Qed.

(** X12: the normalised tensor that [LayerNormFunction.forward] saves has
    channel sum zero at every position, and so has the output itself when
    [weight] is all ones and [bias] all zeros, the values [LayerNorm2d]
    starts from. *)
Theorem LayerNormFunction_forward_zero_channel_mean
  (x weight bias : tensor R) (eps : R) (N C Hh W : nat) :
  shape x = [N; C; Hh; W] -> shape weight = [C] -> shape bias = [C] ->
  0 < eps -> (0 < C)%nat ->
  exists ctx y,
    LayerNormFunction_forward x weight bias eps = Some (ctx, y)
    /\ forall n h w, (n < N)%nat -> (h < Hh)%nat -> (w < W)%nat ->
         sum_upto C (fun c => get (saved_y ctx) [n; c; h; w]) = 0
         /\ ((forall c, (c < C)%nat -> get weight [c] = 1 /\ get bias [c] = 0) ->
             sum_upto C (fun c => get y [n; c; h; w]) = 0).
Proof.
  intros Ex Ew Eb Heps HC.
  destruct (LayerNormFunction_forward_char x weight bias eps N C Hh W Ex Ew Eb)
    as (ctx & y & Hf & _ & _ & _ & _ & _ & _ & _ & _ & Hg).
  exists ctx, y. split; [exact Hf|].
  intros n h w Hn Hh' Hw.
  pose proof (rnormalized_sum_zero C eps (fun c' => get x [n; c'; h; w]) HC) as Hz.
  split.
  - rewrite <- Hz. apply sum_upto_ext. intros c Hc.
    destruct (Hg n c h w Hn Hc Hh' Hw) as (_ & E & _). exact E.
  - intros Hwb. rewrite <- Hz. apply sum_upto_ext. intros c Hc.
    destruct (Hg n c h w Hn Hc Hh' Hw) as (_ & _ & E).
    destruct (Hwb c Hc) as [E1 E0].
    rewrite E, E1, E0. unfold normalized. cbn [add mul Scalar_R]. lra.
Qed.

(** X13: [LayerNormFunction.forward] is invariant under a shift that is
    constant along the channel axis: adding to every channel of [x], at each
    batch index and position, the same number [k n h w] leaves the output
    unchanged. *)
Theorem LayerNormFunction_forward_shift_invariant
  (x x' weight bias : tensor R) (eps : R) (N C Hh W : nat)
  (k : nat -> nat -> nat -> R) :
  shape x = [N; C; Hh; W] -> shape x' = [N; C; Hh; W] ->
  shape weight = [C] -> shape bias = [C] ->
  0 < eps -> (0 < C)%nat ->
  (forall n c h w, (n < N)%nat -> (c < C)%nat -> (h < Hh)%nat -> (w < W)%nat ->
     get x' [n; c; h; w] = get x [n; c; h; w] + k n h w) ->
  exists ctx y ctx' y',
    LayerNormFunction_forward x weight bias eps = Some (ctx, y)
    /\ LayerNormFunction_forward x' weight bias eps = Some (ctx', y')
    /\ shape y' = shape y
    /\ forall n c h w, (n < N)%nat -> (c < C)%nat -> (h < Hh)%nat -> (w < W)%nat ->
         get y' [n; c; h; w] = get y [n; c; h; w].
Proof.
  intros Ex Ex' Ew Eb Heps HC Hk.
  destruct (LayerNormFunction_forward_char x weight bias eps N C Hh W Ex Ew Eb)
    as (ctx & y & Hf & _ & _ & _ & _ & _ & _ & Sy & _ & Hg).
  destruct (LayerNormFunction_forward_char x' weight bias eps N C Hh W Ex' Ew Eb)
    as (ctx' & y' & Hf' & _ & _ & _ & _ & _ & _ & Sy' & _ & Hg').
  exists ctx, y, ctx', y'.
  split; [exact Hf|]. split; [exact Hf'|]. split; [congruence|].
  intros n c h w Hn Hc Hh' Hw.
  destruct (Hg n c h w Hn Hc Hh' Hw) as (_ & _ & E).
  destruct (Hg' n c h w Hn Hc Hh' Hw) as (_ & _ & E').
  rewrite E, E'. f_equal. f_equal.
  change (normalized C eps (fun c' => get x' [n; c'; h; w]) c
          = normalized C eps (fun c' => get x [n; c'; h; w]) c).
  rewrite <- (rnormalized_shift C eps (fun c' => get x [n; c'; h; w])
                (k n h w) c HC).
  apply rnormalized_ext; [|exact Hc].
  intros c' Hc'. apply Hk; assumption.
Qed.

(** X14: with a single channel the normalised value is 0 everywhere, so
    the output of [LayerNormFunction.forward] is the bias, whatever the
    input holds. *)
Theorem LayerNormFunction_forward_single_channel
  (x weight bias : tensor R) (eps : R) (N Hh W : nat) :
  shape x = [N; 1%nat; Hh; W] -> shape weight = [1%nat] -> shape bias = [1%nat] ->
  0 < eps ->
  exists ctx y,
    LayerNormFunction_forward x weight bias eps = Some (ctx, y)
    /\ forall n h w, (n < N)%nat -> (h < Hh)%nat -> (w < W)%nat ->
         get y [n; 0%nat; h; w] = get bias [0%nat].
Proof.
  intros Ex Ew Eb Heps.
  destruct (LayerNormFunction_forward_char x weight bias eps N 1 Hh W Ex Ew Eb)
    as (ctx & y & Hf & _ & _ & _ & _ & _ & _ & _ & _ & Hg).
  exists ctx, y. split; [exact Hf|].
  intros n h w Hn Hh' Hw.
  destruct (Hg n 0%nat h w Hn (Nat.lt_0_succ 0) Hh' Hw) as (_ & _ & E).
  rewrite E.
  pose proof (rnormalized_sum_zero 1 eps (fun c' => get x [n; c'; h; w])
                (Nat.lt_0_succ 0)) as Hz.
  rewrite rsum_S in Hz.
  change (sum_upto 0 (normalized 1 eps (fun c' => get x [n; c'; h; w]))) with 0
    in Hz.
  assert (E0 : normalized 1 eps (fun c' => get x [n; c'; h; w]) 0 = 0) by lra.
  change (get weight [0%nat]
          * normalized 1 eps (fun c' => get x [n; c'; h; w]) 0
          + get bias [0%nat] = get bias [0%nat]).
  rewrite E0. lra.
Qed.

(** X15: the gradient that [LayerNormFunction.backward] returns for [x]
    sums to zero along the channel axis at every position, for every
    upstream gradient. *)
Theorem LayerNormFunction_backward_grad_x_channel_sum_zero
  (x weight bias go : tensor R) (eps : R) (N C Hh W : nat) :
  shape x = [N; C; Hh; W] -> shape weight = [C] -> shape bias = [C] ->
  shape go = [N; C; Hh; W] ->
  0 < eps -> (0 < C)%nat ->
  exists ctx y gx gw gb,
    LayerNormFunction_forward x weight bias eps = Some (ctx, y)
    /\ LayerNormFunction_backward ctx go = Some (gx, gw, gb)
    /\ forall n h w, (n < N)%nat -> (h < Hh)%nat -> (w < W)%nat ->
         sum_upto C (fun j => get gx [n; j; h; w]) = 0.
Proof.
  intros Ex Ew Eb Eg Heps HC.
  destruct (LayerNormFunction_forward_char x weight bias eps N C Hh W Ex Ew Eb)
    as (ctx & y & Hf & Ceps & Cw & Sy & Wy & Sv & Wv & _ & _ & Hg).
  assert (Sw : shape (saved_weight ctx) = [C]) by (rewrite Cw; exact Ew).
  destruct (LayerNormFunction_backward_char ctx go N C Hh W Sy Sv Wv Sw Eg)
    as (gx & gw & gb & Hb & _ & _ & _ & Gx & _ & _).
  exists ctx, y, gx, gw, gb.
  split; [exact Hf|]. split; [exact Hb|].
  intros n h w Hn Hh' Hw.
  set (yv := fun c => get (saved_y ctx) [n; c; h; w]).
  set (g := fun c => get go [n; c; h; w] * get (saved_weight ctx) [c]).
  set (s := 1 / R_sqrt.sqrt (get (saved_var ctx) [n; 0%nat; h; w] + ctx_eps ctx)).
  rewrite (sum_upto_ext C _
             (fun j => s * (g j - yv j * channel_mean C (fun c => g c * yv c)
                            - channel_mean C g)))
    by (intros j Hj; rewrite (Gx n j h w Hn Hj Hh' Hw); reflexivity).
  rewrite rsum_scal, !rsum_minus, rsum_scal_r, rsum_const.
  assert (Hy : sum_upto C yv = 0).
  { rewrite <- (rnormalized_sum_zero C eps (fun c' => get x [n; c'; h; w]) HC).
    apply sum_upto_ext. intros c Hc.
    destruct (Hg n c h w Hn Hc Hh' Hw) as (_ & E & _). exact E. }
  rewrite Hy, (rmean_eq C g).
  assert (0 < INR C) by (apply lt_0_INR; exact HC).
  field. lra.
Qed.

End Gradient.

(** * Part III: instances on concrete inputs *)

Lemma CustomPixelShuffle_is_pixel_shuffle_witness :
  exists y,
    CustomPixelShuffle_forward 2 (iota [1; 4; 2; 2]) = Some y
    /\ y = pixel_shuffle_spec 2 (iota [1; 4; 2; 2])
    /\ shape y = [1; 4 / 4; 2 * 2; 2 * 2]
    /\ forall n q i j di dj,
         n < 1 -> q < 4 / 4 -> i < 2 -> j < 2 -> di < 2 -> dj < 2 ->
         get y [n; q; 2 * i + di; 2 * j + dj]
         = get (iota [1; 4; 2; 2]) [n; 4 * q + 2 * di + dj; i; j].
Proof.
  apply (CustomPixelShuffle_is_pixel_shuffle (iota [1; 4; 2; 2]) 1 4 2 2);
    reflexivity.
Defined.

Lemma SimpleGate_split_and_multiply_witness :
  exists y,
    SimpleGate_forward (iota [1; 4; 1; 2]) = Some y
    /\ shape y = [1; 2; 1; 2]
    /\ forall b c h w, b < 1 -> c < 2 -> h < 1 -> w < 2 ->
         get y [b; c; h; w]
         = mul (get (iota [1; 4; 1; 2]) [b; c; h; w])
               (get (iota [1; 4; 1; 2]) [b; 2 + c; h; w]).
Proof.
  apply (SimpleGate_split_and_multiply (iota [1; 4; 1; 2]) 1 2 1 2). reflexivity.
Defined.

Lemma check_image_size_minimal_bottom_right_witness :
  exists y,
    check_image_size (CascadedGaze_init 1 theta_ones) (iota [1; 1; 2; 3]) = Some y
    /\ shape y = [1; 1; 2 + (16 - 2 mod 16) mod 16; 3 + (16 - 3 mod 16) mod 16]
    /\ ((2 + (16 - 2 mod 16) mod 16) mod 16 = 0 /\ (16 - 2 mod 16) mod 16 < 16)
    /\ ((3 + (16 - 3 mod 16) mod 16) mod 16 = 0 /\ (16 - 3 mod 16) mod 16 < 16)
    /\ (forall b c h w, b < 1 -> c < 1 -> h < 2 -> w < 3 ->
          get y [b; c; h; w] = get (iota [1; 1; 2; 3]) [b; c; h; w])
    /\ (wf (iota [1; 1; 2; 3]) -> 2 mod 16 = 0 -> 3 mod 16 = 0 ->
        y = iota [1; 1; 2; 3]).
Proof.
  apply (check_image_size_minimal_bottom_right 1 theta_ones (iota [1; 1; 2; 3])
           1 1 2 3).
  reflexivity.
Defined.

Lemma check_image_size_pads_with_zero_witness :
  exists y,
    check_image_size (CascadedGaze_init 1 theta_ones) x_15 = Some y
    /\ forall b c h w,
         b < 1 -> c < 1 ->
         h < 15 + (16 - 15 mod 16) mod 16 -> w < 15 + (16 - 15 mod 16) mod 16 ->
         15 <= h \/ 15 <= w ->
         get y [b; c; h; w] = zero.
Proof.
  apply (check_image_size_pads_with_zero 1 theta_ones x_15 1 1 15 15).
  reflexivity.
Defined.

(** C2, as stated, fails on a 15 x 15 image of ones: the row added at the
    bottom holds 0, which is no entry of the input, mirrored or not. *)
Lemma check_image_size_is_not_reflection :
  exists y,
    check_image_size (CascadedGaze_init 1 theta_ones) x_15 = Some y
    /\ ~ reflection_padded x_15 y
    /\ get y [0; 0; 15; 0] = 0%Z
    /\ forall h w, h < 15 -> w < 15 -> get x_15 [0; 0; h; w] = 1%Z.
Proof.
  eexists. split; [vm_compute; reflexivity|]. split; [|split].
  - intros Hr. unfold reflection_padded in Hr. cbn [shape x_15 full] in Hr.
    specialize (Hr 0 0 15 0 ltac:(lia) ltac:(lia) ltac:(lia) ltac:(lia)).
    vm_compute in Hr. discriminate Hr.
  - vm_compute. reflexivity.
  - intros h w Hh Hw. apply (get_full [1; 1; 15; 15] 1%Z).
    apply in_range4; lia.
Qed.

Lemma LayerNormFunction_forward_formula_witness :
  let x := iota [1; 3; 1; 2] in
  let weight := mkT [3] [1; 2; 3]%Z in
  let bias := mkT [3] [10; 20; 30]%Z in
  exists ctx y,
    LayerNormFunction_forward x weight bias 0%Z = Some (ctx, y)
    /\ shape y = [1; 3; 1; 2]
    /\ forall n c h w, n < 1 -> c < 3 -> h < 1 -> w < 2 ->
         let xs := fun c' => get x [n; c'; h; w] in
         let mu := channel_mean 3 xs in
         let var := channel_var 3 xs in
         get y [n; c; h; w]
         = add (mul (get weight [c]) (div (sub (get x [n; c; h; w]) mu)
                                          (sqrt (add var 0%Z))))
               (get bias [c]).
Proof.
  intros x weight bias.
  apply (LayerNormFunction_forward_formula x weight bias 0%Z 1 3 1 2);
    reflexivity.
Defined.

Lemma GlobalContextExtractor_sequential_witness :
  let m := GlobalContextExtractor_init 1 [2; 4; 4] [2; 4; 4] 0 false theta_ones in
  let x := iota [1; 1; 32; 32] in
  length m = length (combine [2; 4; 4] [2; 4; 4])
  /\ exists outs,
       GlobalContextExtractor_forward m x = Some outs
       /\ length outs = length (combine [2; 4; 4] [2; 4; 4])
       /\ forall i, i < length outs -> GCE_entry m x i = nth_error outs i.
Proof.
  apply (GlobalContextExtractor_sequential 1 [2; 4; 4] [2; 4; 4] 0 false
           theta_ones (iota [1; 1; 32; 32]) 1 32 32);
    [reflexivity | lia | reflexivity].
Defined.

(** On a 16 x 16 map the extractor built with kernels and strides
    (2, 4, 4) returns no list: the map shrinks to 8 x 8 and then to 2 x 2,
    which the third 4 x 4 kernel does not fit. *)
Lemma GlobalContextExtractor_raises_on_16x16 :
  let m := GlobalContextExtractor_init 1 [2; 4; 4] [2; 4; 4] 0 false theta_ones in
  shape (iota [1; 1; 16; 16]) = [1; 1; 16; 16]
  /\ GlobalContextExtractor_forward m (iota [1; 1; 16; 16]) = None
  /\ ~ (exists outs,
          GlobalContextExtractor_forward m (iota [1; 1; 16; 16]) = Some outs
          /\ length outs = 3)
  /\ conv_out 16 2 2 0 = 8 /\ conv_out 8 4 4 0 = 2
  /\ GCE_fits (combine [2; 4; 4] [2; 4; 4]) 0 16 16 = false.
Proof.
  intros m.
  assert (E : GlobalContextExtractor_forward m (iota [1; 1; 16; 16]) = None).
  { apply (option_map_None (map shape)). rewrite sim_GlobalContextExtractor.
    vm_compute. reflexivity. }
  split; [reflexivity|]. split; [exact E|].
  split; [|repeat split; vm_compute; reflexivity].
  intros (outs & Hout & _). rewrite E in Hout. discriminate Hout.
Qed.



(** C1, as stated, fails on a 16 x 16 image: the third strided convolution
    of the first block's context extractor receives a 2 x 2 tensor, smaller
    than its 4 x 4 kernel, and [forward] raises. *)
Lemma CascadedGaze_forward_raises_on_16x16 :
  shape x_16 = [1; 3; 16; 16]
  /\ CascadedGaze_forward (CascadedGaze_init 3 theta_ones) x_16 = None
  /\ ~ (exists out,
          CascadedGaze_forward (CascadedGaze_init 3 theta_ones) x_16 = Some out
          /\ shape out = [1; 3; 16; 16])
  /\ conv_out 16 2 2 0 = 8 /\ conv_out 8 4 4 0 = 2
  /\ Conv2d_shape (Conv2d_init 60 60 4 4 0 60 false theta_ones) [1; 60; 2; 2]
     = None.
Proof.
  assert (E : CascadedGaze_forward (CascadedGaze_init 3 theta_ones) x_16 = None).
  { apply (option_map_None shape). rewrite sim_CascadedGaze.
    vm_compute. reflexivity. }
  split; [reflexivity|]. split; [exact E|].
  split; [|repeat split; vm_compute; reflexivity].
  intros (out & Hout & _). rewrite E in Hout. discriminate Hout.
Qed.

Lemma CascadedGaze_forward_restores_shape_witness :
  let m := CascadedGaze_init 3 theta_ones in
  padder_size m = 2 ^ length (encoders m) /\ padder_size m = 16
  /\ exists padded y out,
       check_image_size m x_49 = Some padded
       /\ shape padded = [1; 3; 49 + (16 - 49 mod 16) mod 16;
                          49 + (16 - 49 mod 16) mod 16]
       /\ (49 + (16 - 49 mod 16) mod 16) mod 16 = 0
       /\ (16 - 49 mod 16) mod 16 < 16
       /\ (49 + (16 - 49 mod 16) mod 16) mod 16 = 0
       /\ (16 - 49 mod 16) mod 16 < 16
       /\ CascadedGaze_body m padded = Some y
       /\ crop y 49 49 = Some out
       /\ CascadedGaze_forward m x_49 = Some out
       /\ shape out = [1; 3; 49; 49].
Proof.
  apply (CascadedGaze_forward_restores_shape 3 theta_ones x_49 1 49 49);
    [reflexivity | lia | lia | lia].
Defined.

Lemma skip_connections_pair_matching_stages_witness :
  let m := CascadedGaze_init 3 theta_ones in
  let n := length (encoders m) in
  n = 4 /\ length (decoders m) = n /\ length (ups m) = n
  /\ exists padded x0 x4 encs xm yd z y out,
       check_image_size m x_49 = Some padded
       /\ Conv2d_forward (intro m) padded = Some x0
       /\ encoder_loop (combine (encoders m) (downs m)) x0 [] = Some (x4, encs)
       /\ length encs = n
       /\ (forall k, k < n -> nth_error encs k = encoder_output m x0 k)
       /\ Sequential NAFBlock0_forward (middle_blks m) x4 = Some xm
       /\ decoder_stages m x0 n xm = Some yd
       /\ (forall i, i < n -> skip_sum_at m x0 xm i)
       /\ Conv2d_forward (ending m) yd = Some z
       /\ tadd z padded = Some y
       /\ CascadedGaze_body m padded = Some y
       /\ crop y 49 49 = Some out
       /\ CascadedGaze_forward m x_49 = Some out.
Proof.
  apply (skip_connections_pair_matching_stages 3 theta_ones x_49 1 49 49);
    [reflexivity | lia | lia | lia].
Defined.

Lemma LayerNormFunction_backward_is_gradient_witness :
  exists ctx y gx gw gb,
    LayerNormFunction_forward xr_2 wr_2 br_2 1%R = Some (ctx, y)
    /\ LayerNormFunction_backward ctx gor_2 = Some (gx, gw, gb)
    /\ shape gx = [1; 2; 1; 1] /\ shape gw = [2] /\ shape gb = [2]
    /\ (forall n j h w, n < 1 -> j < 2 -> h < 1 -> w < 1 ->
          derivable_pt_lim
            (fun t => weighted_output gor_2 1 2 1 1
                        (LayerNormFunction_forward (tset xr_2 [n; j; h; w] t)
                           wr_2 br_2 1%R))
            (get xr_2 [n; j; h; w]) (get gx [n; j; h; w]))
    /\ (forall c, c < 2 ->
          derivable_pt_lim
            (fun t => weighted_output gor_2 1 2 1 1
                        (LayerNormFunction_forward xr_2 (tset wr_2 [c] t)
                           br_2 1%R))
            (get wr_2 [c]) (get gw [c]))
    /\ (forall c, c < 2 ->
          derivable_pt_lim
            (fun t => weighted_output gor_2 1 2 1 1
                        (LayerNormFunction_forward xr_2 wr_2 (tset br_2 [c] t)
                           1%R))
            (get br_2 [c]) (get gb [c])).
Proof.
  destruct (LayerNormFunction_backward_is_gradient xr_2 wr_2 br_2 gor_2 1%R
              1 2 1 1 eq_refl eq_refl eq_refl eq_refl)
    as (ctx & y & gx & gw & gb & Hf & Hb & Sx & Sw & Sb & Hpos & Gx & Gw & Gb).
  exists ctx, y, gx, gw, gb.
  split; [exact Hf|]. split; [exact Hb|].
  split; [exact Sx|]. split; [exact Sw|]. split; [exact Sb|].
  split; [|split].
  - intros n j h w Hn Hj Hh Hw.
    apply (proj2 (Gx n j h w Hn Hj Hh Hw)).
    apply (Hpos Rlt_0_1 (Nat.lt_0_succ 1) n h w Hn Hh Hw).
  - intros c Hc. apply (proj2 (Gw c Hc)).
  - intros c Hc. apply (proj2 (Gb c Hc)).
Defined.

(** ** Instances of the further properties *)

Lemma CustomPixelShuffle_raises_on_indivisible_channels_witness :
  CustomPixelShuffle_forward 2 (iota [1; 3; 1; 1]) = None.
Proof.
  apply (CustomPixelShuffle_raises_on_indivisible_channels
           (iota [1; 3; 1; 1]) 1 3 1 1);
    [reflexivity | vm_compute; lia | lia | lia | lia].
Defined.

Lemma SimpleGate_raises_on_odd_channels_witness :
  SimpleGate_forward (iota [1; 5; 1; 1]) = None.
Proof.
  apply (SimpleGate_raises_on_odd_channels (iota [1; 5; 1; 1]) 1 2 1 1);
    [reflexivity | lia].
Defined.

Lemma SimpleGate_broadcasts_on_three_channels_witness :
  exists y,
    SimpleGate_forward (iota [1; 3; 1; 2]) = Some y
    /\ shape y = [1; 2; 1; 2]
    /\ forall b c h w, b < 1 -> c < 2 -> h < 1 -> w < 2 ->
         get y [b; c; h; w]
         = mul (get (iota [1; 3; 1; 2]) [b; c; h; w])
               (get (iota [1; 3; 1; 2]) [b; 2; h; w]).
Proof.
  apply (SimpleGate_broadcasts_on_three_channels (iota [1; 3; 1; 2]) 1 1 2).
  reflexivity.
Defined.

Lemma LayerNormFunction_forward_raises_on_mismatch_witness :
  LayerNormFunction_forward (iota [1; 3; 1; 2]) (mkT [2] [1; 2]%Z)
    (mkT [3] [10; 20; 30]%Z) 0%Z = None
  /\ LayerNormFunction_forward (iota [3; 2]) (mkT [3] [1; 2; 3]%Z)
       (mkT [3] [10; 20; 30]%Z) 0%Z = None.
Proof.
  split.
  - apply (proj1 (proj2 (LayerNormFunction_forward_raises_on_mismatch
                           (iota [1; 3; 1; 2]) (mkT [2] [1; 2]%Z)
                           (mkT [3] [10; 20; 30]%Z) 0%Z))
             1 3 1 2 eq_refl).
    left. vm_compute. lia.
  - apply (proj1 (LayerNormFunction_forward_raises_on_mismatch
                    (iota [3; 2]) (mkT [3] [1; 2; 3]%Z)
                    (mkT [3] [10; 20; 30]%Z) 0%Z)).
    vm_compute. lia.
Defined.

Lemma crop_undoes_check_image_size_witness :
  exists p,
    check_image_size (CascadedGaze_init 1 theta_ones) x_15 = Some p
    /\ crop p 15 15 = Some x_15.
Proof.
  apply (crop_undoes_check_image_size 1 theta_ones x_15 1 1 15 15);
    reflexivity.
Defined.

Lemma check_image_size_idempotent_witness :
  exists p,
    check_image_size (CascadedGaze_init 1 theta_ones) x_15 = Some p
    /\ check_image_size (CascadedGaze_init 1 theta_ones) p = Some p.
Proof.
  apply (check_image_size_idempotent 1 theta_ones x_15 1 1 15 15).
  reflexivity.
Defined.

Lemma depthwise_separable_conv_forward_shape_witness :
  (exists y,
     depthwise_separable_conv_forward
       (depthwise_separable_conv_init 2 3 3 1 2 false theta_ones)
       (iota [1; 2; 5; 5]) = Some y
     /\ shape y = [1; 3; conv_out 5 3 2 1; conv_out 5 3 2 1])
  /\ depthwise_separable_conv_forward
       (depthwise_separable_conv_init 2 3 3 0 2 false theta_ones)
       (iota [1; 2; 2; 5]) = None.
Proof.
  split.
  - apply (proj1 (depthwise_separable_conv_forward_shape 2 3 3 1 2 false
                    theta_ones (iota [1; 2; 5; 5]) 1 2 5 5
                    eq_refl (le_S 1 1 (le_n 1)) (le_S 1 2 (le_S 1 1 (le_n 1)))
                    (le_S 1 2 (le_S 1 1 (le_n 1))) (le_S 1 1 (le_n 1)))).
    repeat split; lia.
  - apply (proj2 (depthwise_separable_conv_forward_shape 2 3 3 0 2 false
                    theta_ones (iota [1; 2; 2; 5]) 1 2 2 5
                    eq_refl (le_S 1 1 (le_n 1)) (le_S 1 2 (le_S 1 1 (le_n 1)))
                    (le_S 1 2 (le_S 1 1 (le_n 1))) (le_S 1 1 (le_n 1)))).
    right. left. lia.
Defined.

Lemma GlobalContextExtractor_minimum_size_witness :
  (exists outs,
     GlobalContextExtractor_forward
       (cgb_GCE (CascadedGazeBlock_init 1 3 2 2 theta_ones))
       (iota [1; 1; 32; 32]) = Some outs
     /\ map shape outs = [[1; 1; 16; 16]; [1; 1; 4; 4]; [1; 1; 1; 1]])
  /\ GlobalContextExtractor_forward
       (cgb_GCE (CascadedGazeBlock_init 1 3 2 2 theta_ones))
       (iota [1; 1; 31; 32]) = None.
Proof.
  split.
  - apply (proj1 (GlobalContextExtractor_minimum_size 1 3 theta_ones
                    (iota [1; 1; 32; 32]) 1 32 32 eq_refl (le_n 1))).
    split; vm_compute; lia.
  - apply (proj2 (GlobalContextExtractor_minimum_size 1 3 theta_ones
                    (iota [1; 1; 31; 32]) 1 31 32 eq_refl (le_n 1))).
    left. vm_compute. lia.
Defined.

Lemma CascadedGaze_forward_minimum_size_witness :
  (exists out,
     CascadedGaze_forward (CascadedGaze_init 3 theta_ones) x_49 = Some out
     /\ shape out = shape x_49)
  /\ CascadedGaze_forward (CascadedGaze_init 3 theta_ones) x_16 = None.
Proof.
  split.
  - apply (proj1 (CascadedGaze_forward_minimum_size 3 theta_ones x_49 1 3 49 49
                    eq_refl (le_S 1 2 (le_S 1 1 (le_n 1))))).
    repeat split; lia.
  - apply (proj2 (CascadedGaze_forward_minimum_size 3 theta_ones x_16 1 3 16 16
                    eq_refl (le_S 1 2 (le_S 1 1 (le_n 1))))).
    right. left. lia.
Defined.

Lemma CascadedGaze_forward_adds_input_witness :
  let m := CascadedGaze_init 3 theta_ones in
  exists padded x0 r xm yd z out,
    check_image_size m x_49 = Some padded
    /\ Conv2d_forward (intro m) padded = Some x0
    /\ encoder_loop (combine (encoders m) (downs m)) x0 [] = Some r
    /\ Sequential NAFBlock0_forward (middle_blks m) (fst r) = Some xm
    /\ decoder_loop (combine (combine (decoders m) (ups m)) (rev (snd r))) xm
       = Some yd
    /\ Conv2d_forward (ending m) yd = Some z
    /\ CascadedGaze_forward m x_49 = Some out
    /\ forall b c h w, b < 1 -> c < 3 -> h < 49 -> w < 49 ->
         get out [b; c; h; w] = add (get z [b; c; h; w]) (get x_49 [b; c; h; w]).
Proof.
  apply (CascadedGaze_forward_adds_input 3 theta_ones x_49 1 49 49);
    [reflexivity | lia | lia | lia].
Defined.

Lemma down_after_up_restores_shape_witness :
  exists u d,
    Up_forward {| up_conv := Conv2d_init (2 * 1) (2 * (2 * 1)) 1 1 0 1 false
                               theta_ones;
                  up_shuffle := 2 |} (iota [1; 2; 1; 1]) = Some u
    /\ shape u = [1; 1; 2 * 1; 2 * 1]
    /\ Conv2d_forward (Conv2d_init 1 (2 * 1) 2 2 0 1 true theta_ones) u = Some d
    /\ shape d = shape (iota [1; 2; 1; 1]).
Proof.
  apply (down_after_up_restores_shape 1 theta_ones theta_ones
           (iota [1; 2; 1; 1]) 1 1 1); [reflexivity | lia | lia | lia].
Defined.

Lemma LayerNorm2d_forward_returns_iff_witness :
  (exists y,
     LayerNorm2d_forward (LayerNorm2d_init 3 0%Z theta_ones) (iota [1; 3; 1; 2])
     = Some y
     /\ shape y = shape (iota [1; 3; 1; 2]))
  /\ LayerNorm2d_forward (LayerNorm2d_init 4 0%Z theta_ones) (iota [1; 3; 1; 2])
     = None.
Proof.
  split.
  - apply (proj1 (LayerNorm2d_forward_returns_iff 3 0%Z theta_ones
                    (iota [1; 3; 1; 2]) 1 3 1 2 eq_refl)).
    reflexivity.
  - apply (proj2 (LayerNorm2d_forward_returns_iff 4 0%Z theta_ones
                    (iota [1; 3; 1; 2]) 1 3 1 2 eq_refl)).
    lia.
Defined.

Lemma CascadedGazeBlock_forward_minimum_size_witness :
  (exists y,
     CascadedGazeBlock_forward (CascadedGazeBlock_init 1 2 2 2 theta_ones)
       (iota [1; 1; 7; 7]) = Some y
     /\ shape y = shape (iota [1; 1; 7; 7]))
  /\ CascadedGazeBlock_forward (CascadedGazeBlock_init 1 2 2 2 theta_ones)
       (iota [1; 1; 6; 7]) = None.
Proof.
  split.
  - apply (proj1 (CascadedGazeBlock_forward_minimum_size 1 2 theta_ones
                    (iota [1; 1; 7; 7]) 1 1 7 7 eq_refl (le_n 1))).
    repeat split; vm_compute; lia.
  - apply (proj2 (CascadedGazeBlock_forward_minimum_size 1 2 theta_ones
                    (iota [1; 1; 6; 7]) 1 1 6 7 eq_refl (le_n 1))).
    right. left. vm_compute. lia.
Defined.

Lemma NAFBlock0_forward_keeps_shape_witness :
  (exists y,
     NAFBlock0_forward (NAFBlock0_init 1 2 2 theta_ones) (iota [1; 1; 2; 2])
     = Some y
     /\ shape y = shape (iota [1; 1; 2; 2]))
  /\ NAFBlock0_forward (NAFBlock0_init 1 2 2 theta_ones) (iota [1; 2; 2; 2])
     = None.
Proof.
  split.
  - apply (proj1 (NAFBlock0_forward_keeps_shape 1 theta_ones
                    (iota [1; 1; 2; 2]) 1 1 2 2 eq_refl (le_n 1))).
    repeat split; lia.
  - apply (proj2 (NAFBlock0_forward_keeps_shape 1 theta_ones
                    (iota [1; 2; 2; 2]) 1 2 2 2 eq_refl (le_n 1))).
    left. lia.
Defined.

Lemma Sequential_is_identity_at_zero_scales_witness :
  Sequential CascadedGazeBlock_forward
    (blocks_init (CascadedGazeBlock_init 1 2 2 2) 2 theta_stack_zero_scales)
    (iota [1; 1; 7; 7]) = Some (iota [1; 1; 7; 7])
  /\ Sequential NAFBlock0_forward
       (blocks_init (NAFBlock0_init 1 2 2) 3 theta_stack_zero_scales)
       (iota [1; 1; 2; 2]) = Some (iota [1; 1; 2; 2]).
Proof.
  destruct (@Sequential_is_identity_at_zero_scales Z Scalar_Z Z.mul_0_r Z.add_0_r)
    as [Hc Hn].
  split.
  - apply (Hc 1 2 2 theta_stack_zero_scales (iota [1; 1; 7; 7]) 1 7 7);
      try reflexivity; try (cbv; lia); intros; split; reflexivity.
  - apply (Hn 1 3 theta_stack_zero_scales (iota [1; 1; 2; 2]) 1 2 2);
      try reflexivity; try lia; intros; split; reflexivity.
Defined.

Lemma encoder_feature_pyramid_witness :
  let m := CascadedGaze_init 3 theta_ones in
  exists padded x0 e0 e1 e2 e3 x4 a b,
    check_image_size m x_49 = Some padded
    /\ Conv2d_forward (intro m) padded = Some x0
    /\ encoder_loop (combine (encoders m) (downs m)) x0 []
       = Some (x4, [e0; e1; e2; e3])
    /\ shape padded = [1; 3; 16 * a; 16 * b]
    /\ 49 <= 16 * a < 49 + 16 /\ 49 <= 16 * b < 49 + 16
    /\ shape e0 = [1; 60; 16 * a; 16 * b]
    /\ shape e1 = [1; 120; 8 * a; 8 * b]
    /\ shape e2 = [1; 240; 4 * a; 4 * b]
    /\ shape e3 = [1; 480; 2 * a; 2 * b]
    /\ shape x4 = [1; 960; a; b].
Proof.
  apply (encoder_feature_pyramid 3 theta_ones x_49 1 49 49);
    [reflexivity | lia | lia | lia].
Defined.

Lemma LayerNormFunction_forward_zero_channel_mean_witness :
  exists ctx y,
    LayerNormFunction_forward xr_2 wr_2 br_2 1%R = Some (ctx, y)
    /\ forall n h w, n < 1 -> h < 1 -> w < 1 ->
         sum_upto 2 (fun c => get (saved_y ctx) [n; c; h; w]) = 0%R
         /\ ((forall c, c < 2 -> get wr_2 [c] = 1%R /\ get br_2 [c] = 0%R) ->
             sum_upto 2 (fun c => get y [n; c; h; w]) = 0%R).
Proof.
  apply (LayerNormFunction_forward_zero_channel_mean xr_2 wr_2 br_2 1%R 1 2 1 1
           eq_refl eq_refl eq_refl Rlt_0_1 (Nat.lt_0_succ 1)).
Defined.

Lemma LayerNormFunction_forward_shift_invariant_witness :
  exists ctx y ctx' y',
    LayerNormFunction_forward xr_2 wr_2 br_2 1%R = Some (ctx, y)
    /\ LayerNormFunction_forward xr_2_shifted wr_2 br_2 1%R = Some (ctx', y')
    /\ shape y' = shape y
    /\ forall n c h w, n < 1 -> c < 2 -> h < 1 -> w < 1 ->
         get y' [n; c; h; w] = get y [n; c; h; w].
Proof.
  apply (LayerNormFunction_forward_shift_invariant xr_2 xr_2_shifted wr_2 br_2
           1%R 1 2 1 1 (fun _ _ _ => 1%R)
           eq_refl eq_refl eq_refl eq_refl Rlt_0_1 (Nat.lt_0_succ 1)).
  intros n c h w Hn Hc Hh Hw.
  assert (n = 0) by lia. assert (h = 0) by lia. assert (w = 0) by lia.
  subst n h w.
  destruct c as [|[|c]]; [cbn; lra | cbn; lra | lia].
Defined.

Lemma LayerNormFunction_forward_single_channel_witness :
  exists ctx y,
    LayerNormFunction_forward xr_1 wr_1 br_1 1%R = Some (ctx, y)
    /\ forall n h w, n < 1 -> h < 1 -> w < 1 ->
         get y [n; 0; h; w] = get br_1 [0].
Proof.
  apply (LayerNormFunction_forward_single_channel xr_1 wr_1 br_1 1%R 1 1 1
           eq_refl eq_refl eq_refl Rlt_0_1).
Defined.

Lemma LayerNormFunction_backward_grad_x_channel_sum_zero_witness :
  exists ctx y gx gw gb,
    LayerNormFunction_forward xr_2 wr_2 br_2 1%R = Some (ctx, y)
    /\ LayerNormFunction_backward ctx gor_2 = Some (gx, gw, gb)
    /\ forall n h w, n < 1 -> h < 1 -> w < 1 ->
         sum_upto 2 (fun j => get gx [n; j; h; w]) = 0%R.
Proof.
  apply (LayerNormFunction_backward_grad_x_channel_sum_zero xr_2 wr_2 br_2 gor_2
           1%R 1 2 1 1 eq_refl eq_refl eq_refl eq_refl Rlt_0_1 (Nat.lt_0_succ 1)).
Defined.
